(** * The dynamic-binding and non-local-exit core of the evaluator

    A shallow embedding of the parts of [data.c] and [eval.c] that store
    symbol values (plain, aliased, buffer/frame-local, forwarded), keep the
    binding stack [specpdl], and implement [catch]/[throw],
    [condition-case]/[signal] and unwind protection on top of the dynamic
    wind stack and the prompts of the Scheme runtime. *)

From stdpp Require Import gmap list strings finite.
From Stdlib Require Import ZArith Lia.

#[local] Open Scope Z_scope.
#[local] Open Scope nat_scope.

(** ** Lisp objects *)

(** Symbols, buffers and frames are pointers; a pointer is modelled by a
    natural number.  Strings and conses are heap objects as well: they carry
    their address, and [EQ] compares addresses, as the C macro does. *)
Definition sym_t := nat.
Definition buffer_t := nat.
Definition frame_t := nat.
Definition addr := nat.

Inductive Lisp_Object : Type :=
| Qunbound
| LSym (s : sym_t)
| LInt (n : Z)
| LStr (a : addr) (s : string)
| LCons (a : addr) (car cdr : Lisp_Object)
| LBuffer (b : buffer_t)
| LFrame (f : frame_t).

#[global] Instance Lisp_Object_eq_dec : EqDecision Lisp_Object.
Proof. solve_decision. Defined.

(** The symbols the C code names. *)
Definition Snil : sym_t := 0.
Definition St : sym_t := 1.
Definition Serror : sym_t := 2.
Definition Sdebug : sym_t := 3.
Definition Squit : sym_t := 4.
Definition Stop_level : sym_t := 5.
Definition Sno_catch : sym_t := 6.
Definition Serror_conditions : sym_t := 7.
Definition Ssetting_constant : sym_t := 8.
Definition Scyclic_variable_indirection : sym_t := 9.
Definition Swrong_type_argument : sym_t := 10.
Definition Swrong_number_of_arguments : sym_t := 11.
Definition Sinvalid_function : sym_t := 12.
Definition Sand_rest : sym_t := 13.
Definition Sand_optional : sym_t := 14.
Definition Sclosure : sym_t := 15.
Definition Sinternal_interpreter_environment : sym_t := 16.
Definition Ssymbolp : sym_t := 17.
Definition Slistp : sym_t := 18.
Definition Sintegerp : sym_t := 19.
Definition Sstringp : sym_t := 20.
Definition Snumberp : sym_t := 21.
Definition Sbufferp : sym_t := 22.
Definition Svoid_variable : sym_t := 23.
Definition Sarith_error : sym_t := 24.

Abbreviation Qnil := (LSym Snil).
Abbreviation Qt := (LSym St).
Abbreviation Qerror := (LSym Serror).
Abbreviation Qdebug := (LSym Sdebug).
Abbreviation Qquit := (LSym Squit).
Abbreviation Qtop_level := (LSym Stop_level).
Abbreviation Qno_catch := (LSym Sno_catch).
Abbreviation Qerror_conditions := (LSym Serror_conditions).
Abbreviation Qsetting_constant := (LSym Ssetting_constant).
Abbreviation Qcyclic_variable_indirection := (LSym Scyclic_variable_indirection).
Abbreviation Qwrong_type_argument := (LSym Swrong_type_argument).
Abbreviation Qwrong_number_of_arguments := (LSym Swrong_number_of_arguments).
Abbreviation Qinvalid_function := (LSym Sinvalid_function).
Abbreviation Qand_rest := (LSym Sand_rest).
Abbreviation Qand_optional := (LSym Sand_optional).
Abbreviation Qclosure := (LSym Sclosure).
Abbreviation Qinternal_interpreter_environment :=
  (LSym Sinternal_interpreter_environment).
Abbreviation Qsymbolp := (LSym Ssymbolp).
Abbreviation Qlistp := (LSym Slistp).
Abbreviation Qintegerp := (LSym Sintegerp).
Abbreviation Qstringp := (LSym Sstringp).
Abbreviation Qnumberp := (LSym Snumberp).
Abbreviation Qbufferp := (LSym Sbufferp).
Abbreviation Qvoid_variable := (LSym Svoid_variable).
Abbreviation Qarith_error := (LSym Sarith_error).

(** [EQ]: identity of objects.  Immediate objects compare by value, heap
    objects by address. *)
Definition EQ (x y : Lisp_Object) : bool :=
  match x, y with
  | Qunbound, Qunbound => true
  | LSym a, LSym b => bool_decide (a = b)
  | LInt a, LInt b => bool_decide (a = b)
  | LStr a _, LStr b _ => bool_decide (a = b)
  | LCons a _ _, LCons b _ _ => bool_decide (a = b)
  | LBuffer a, LBuffer b => bool_decide (a = b)
  | LFrame a, LFrame b => bool_decide (a = b)
  | _, _ => false
  end.

Definition NILP (x : Lisp_Object) : bool := EQ x Qnil.
Definition CONSP (x : Lisp_Object) : bool :=
  match x with LCons _ _ _ => true | _ => false end.
Definition SYMBOLP (x : Lisp_Object) : bool :=
  match x with LSym _ => true | _ => false end.
Definition BUFFERP (x : Lisp_Object) : bool :=
  match x with LBuffer _ => true | _ => false end.

(** [XCAR] and [XCDR]; what they give on an object that is not a cons is
    left open by the C code, and is [Qnil] here. *)
Definition XCAR (x : Lisp_Object) : Lisp_Object :=
  match x with LCons _ a _ => a | _ => Qnil end.
Definition XCDR (x : Lisp_Object) : Lisp_Object :=
  match x with LCons _ _ d => d | _ => Qnil end.

(** [Fmemq] on a list object: the tail whose car is [EQ] to [elt]. *)
Fixpoint Fmemq (elt list : Lisp_Object) : Lisp_Object :=
  match list with
  | LCons _ a d => if EQ a elt then list else Fmemq elt d
  | _ => Qnil
  end.

(** The elements of a list object, as far as it is made of conses. *)
Fixpoint list_elements (x : Lisp_Object) : list Lisp_Object :=
  match x with
  | LCons _ a d => a :: list_elements d
  | _ => []
  end.

(** The object after the last cons of a list object ([Qnil] for a proper
    list). *)
Fixpoint list_end (x : Lisp_Object) : Lisp_Object :=
  match x with
  | LCons _ _ d => list_end d
  | _ => x
  end.

(** ** Forwards, buffer-local values and symbols *)

(** Where a [Lisp_Objfwd] points: at a C variable of its own, or at a slot
    of [buffer_defaults] (the case [store_symval_forwarding] tests for with
    a pointer comparison). *)
Inductive objvar_loc : Type :=
| Objvar (n : nat)
| Objvar_buffer_default (offset : Z).

Inductive Lisp_Fwd : Type :=
| Lisp_Fwd_Int (intvar : nat)
| Lisp_Fwd_Bool (boolvar : nat)
| Lisp_Fwd_Obj (objvar : objvar_loc)
| Lisp_Fwd_Buffer_Obj (offset : Z) (predicate : Lisp_Object)
| Lisp_Fwd_Kboard_Obj (offset : Z).

Definition BUFFER_OBJFWDP (f : Lisp_Fwd) : bool :=
  match f with Lisp_Fwd_Buffer_Obj _ _ => true | _ => false end.
Definition KBOARD_OBJFWDP (f : Lisp_Fwd) : bool :=
  match f with Lisp_Fwd_Kboard_Obj _ => true | _ => false end.

(** [struct Lisp_Buffer_Local_Value].  [defcell] and [valcell] are the
    addresses of two binding conses [(SYMBOL . VALUE)]; they are compared by
    address. *)
Record Lisp_Buffer_Local_Value : Type := mk_blv {
  local_if_set : bool;
  frame_local : bool;
  found : bool;
  fwd : option Lisp_Fwd;
  blv_where : Lisp_Object;
  defcell : addr;
  valcell : addr }.

Definition set_blv_found (v : bool) (b : Lisp_Buffer_Local_Value) :=
  mk_blv (local_if_set b) (frame_local b) v (fwd b) (blv_where b) (defcell b)
    (valcell b).
Definition set_blv_where (v : Lisp_Object) (b : Lisp_Buffer_Local_Value) :=
  mk_blv (local_if_set b) (frame_local b) (found b) (fwd b) v (defcell b)
    (valcell b).
Definition set_blv_valcell (v : addr) (b : Lisp_Buffer_Local_Value) :=
  mk_blv (local_if_set b) (frame_local b) (found b) (fwd b) (blv_where b)
    (defcell b) v.
Definition set_blv_fwd (v : option Lisp_Fwd) (b : Lisp_Buffer_Local_Value) :=
  mk_blv (local_if_set b) (frame_local b) (found b) v (blv_where b) (defcell b)
    (valcell b).
Definition set_blv_local_if_set (v : bool) (b : Lisp_Buffer_Local_Value) :=
  mk_blv v (frame_local b) (found b) (fwd b) (blv_where b) (defcell b)
    (valcell b).
Definition set_blv_frame_local (v : bool) (b : Lisp_Buffer_Local_Value) :=
  mk_blv (local_if_set b) v (found b) (fwd b) (blv_where b) (defcell b)
    (valcell b).

(** The value redirection of a symbol with its payload (the C code keeps a
    tag [redirect] and a union [val]). *)
Inductive symbol_redirect : Type :=
| SYMBOL_PLAINVAL (value : Lisp_Object)
| SYMBOL_VARALIAS (alias : sym_t)
| SYMBOL_LOCALIZED (blv : Lisp_Buffer_Local_Value)
| SYMBOL_FORWARDED (fwd : Lisp_Fwd).

Record Lisp_Symbol : Type := mk_symbol {
  redirect : symbol_redirect;
  constant : bool;
  declared_special : bool;
  keyword : bool;
  plist : Lisp_Object }.

Definition set_redirect (r : symbol_redirect) (s : Lisp_Symbol) :=
  mk_symbol r (constant s) (declared_special s) (keyword s) (plist s).

(** A symbol nobody has touched yet: void, not constant. *)
Definition void_symbol : Lisp_Symbol :=
  mk_symbol (SYMBOL_PLAINVAL Qunbound) false false false Qnil.

(** ** Buffers and frames, as far as the binding engine looks into them *)

(** [local_var_alist] is a list of binding conses, given by their
    addresses; [local_flags] is indexed by [PER_BUFFER_IDX]; [slots] are the
    Lisp fields of the buffer, addressed by offset. *)
Record buffer : Type := mk_buffer {
  live : bool;
  local_var_alist : list addr;
  local_flags : gmap Z bool;
  slots : gmap Z Lisp_Object }.

Definition set_local_var_alist (v : list addr) (b : buffer) :=
  mk_buffer (live b) v (local_flags b) (slots b).
Definition set_local_flags (v : gmap Z bool) (b : buffer) :=
  mk_buffer (live b) (local_var_alist b) v (slots b).
Definition set_slots (v : gmap Z Lisp_Object) (b : buffer) :=
  mk_buffer (live b) (local_var_alist b) (local_flags b) v.

Definition empty_buffer : buffer := mk_buffer false [] ∅ ∅.

Record frame : Type := mk_frame {
  param_alist : list addr;
  kboard : nat }.

Definition empty_frame : frame := mk_frame [] 0.

(** ** The binding stack, handlers and the wind stack *)

(** The tags keep the order of [enum specbind_tag]:
    [SPECPDL_LET < SPECPDL_LET_LOCAL < SPECPDL_LET_DEFAULT]. *)
Inductive specbind_tag : Type :=
| SPECPDL_LET
| SPECPDL_LET_LOCAL
| SPECPDL_LET_DEFAULT.

#[global] Instance specbind_tag_eq_dec : EqDecision specbind_tag.
Proof. solve_decision. Defined.

Record specbinding : Type := mk_specbinding {
  kind : specbind_tag;
  symbol : Lisp_Object;
  old_value : Lisp_Object;
  let_where : Lisp_Object }.

#[global] Instance specbinding_eq_dec : EqDecision specbinding.
Proof. solve_decision. Defined.

Definition specpdl_symbol (pdl : specbinding) : Lisp_Object := symbol pdl.
Definition specpdl_old_value (pdl : specbinding) : Lisp_Object :=
  old_value pdl.
Definition specpdl_where (pdl : specbinding) : Lisp_Object := let_where pdl.

Inductive handlertype : Type := CATCHER | CONDITION_CASE.

#[global] Instance handlertype_eq_dec : EqDecision handlertype.
Proof. solve_decision. Defined.

(** [struct handler].  The [next] pointer is the tail of the chain the
    handler heads: a [struct handler *] is modelled by the list of handlers
    reached from it. *)
Record handler : Type := mk_handler {
  h_type : handlertype;
  tag_or_ch : Lisp_Object;
  h_var : Lisp_Object;
  h_body : Lisp_Object;
  h_lisp_eval_depth : Z;
  h_interrupt_input_blocked : Z;
  ptag : addr }.

#[global] Instance handler_eq_dec : EqDecision handler.
Proof. solve_decision. Defined.

(** A cleanup registered with [record_unwind_protect]: a C function and its
    argument.  What the function does is outside the binding engine; the
    model keeps its identity and whether it ends by signalling an error. *)
Record cleanup : Type := mk_cleanup {
  cl_id : nat;
  cl_signal : option (Lisp_Object * Lisp_Object) }.

(** The unwind handlers [eval.c] registers on the wind stack. *)
Inductive unwinder : Type :=
| U_unbind_once
| U_set_handlerlist (data : list handler)
| U_restore_handler (c : handler)
| U_restore_stack_limits (data : Lisp_Object)
| U_protect (c : cleanup).

(** The wind stack of the Scheme runtime ([scm_dynwind_begin],
    [scm_dynwind_unwind_handler], [call-with-prompt]). *)
Inductive wind_entry : Type :=
| W_frame
| W_unwinder (f : unwinder) (explicit : bool)
| W_prompt (tag : addr).

(** What an unwinding did, in order: a ghost record that no code reads. *)
Inductive event : Type :=
| Ev_unbind (b : specbinding)
| Ev_cleanup (id : nat).

#[global] Instance event_eq_dec : EqDecision event.
Proof. solve_decision. Defined.

(** ** The state of the interpreter

    The global variables of [data.c] and [eval.c] and the heap objects they
    reach, passed explicitly.  [cells] holds the binding conses of
    buffer-local values, whose cdr is assigned in place; [intvars],
    [boolvars] and [objvars] are the C variables that forwards point at
    (and the integer globals of [eval.c]); [specpdl] lists the entries below
    [specpdl_ptr], newest first; [dynstack] is the wind stack, newest
    first. *)
Record state : Type := mk_state {
  symbols : gmap sym_t Lisp_Symbol;
  cells : gmap addr (Lisp_Object * Lisp_Object);
  next_addr : addr;
  buffers : gmap buffer_t buffer;
  buffer_defaults : gmap Z Lisp_Object;
  buffer_local_flags : gmap Z Z;
  current_buffer : buffer_t;
  frames : gmap frame_t frame;
  selected_frame : frame_t;
  kboards : gmap nat (gmap Z Lisp_Object);
  intvars : gmap nat Z;
  boolvars : gmap nat bool;
  objvars : gmap nat Lisp_Object;
  specpdl : list specbinding;
  handlerlist : list handler;
  dynstack : list wind_entry;
  trace : list event }.

Definition set_symbols (v : gmap sym_t Lisp_Symbol) (st : state) : state :=
  mk_state (v) (cells st) (next_addr st) (buffers st) (buffer_defaults st)
    (buffer_local_flags st) (current_buffer st) (frames st)
    (selected_frame st) (kboards st) (intvars st) (boolvars st) (objvars st)
    (specpdl st) (handlerlist st) (dynstack st) (trace st).
Definition set_cells (v : gmap addr (Lisp_Object * Lisp_Object)) (st : state) : state :=
  mk_state (symbols st) (v) (next_addr st) (buffers st) (buffer_defaults st)
    (buffer_local_flags st) (current_buffer st) (frames st)
    (selected_frame st) (kboards st) (intvars st) (boolvars st) (objvars st)
    (specpdl st) (handlerlist st) (dynstack st) (trace st).
Definition set_next_addr (v : addr) (st : state) : state :=
  mk_state (symbols st) (cells st) (v) (buffers st) (buffer_defaults st)
    (buffer_local_flags st) (current_buffer st) (frames st)
    (selected_frame st) (kboards st) (intvars st) (boolvars st) (objvars st)
    (specpdl st) (handlerlist st) (dynstack st) (trace st).
Definition set_buffers (v : gmap buffer_t buffer) (st : state) : state :=
  mk_state (symbols st) (cells st) (next_addr st) (v) (buffer_defaults st)
    (buffer_local_flags st) (current_buffer st) (frames st)
    (selected_frame st) (kboards st) (intvars st) (boolvars st) (objvars st)
    (specpdl st) (handlerlist st) (dynstack st) (trace st).
Definition set_buffer_defaults (v : gmap Z Lisp_Object) (st : state) : state :=
  mk_state (symbols st) (cells st) (next_addr st) (buffers st) (v)
    (buffer_local_flags st) (current_buffer st) (frames st)
    (selected_frame st) (kboards st) (intvars st) (boolvars st) (objvars st)
    (specpdl st) (handlerlist st) (dynstack st) (trace st).
Definition set_buffer_local_flags (v : gmap Z Z) (st : state) : state :=
  mk_state (symbols st) (cells st) (next_addr st) (buffers st)
    (buffer_defaults st) (v) (current_buffer st) (frames st)
    (selected_frame st) (kboards st) (intvars st) (boolvars st) (objvars st)
    (specpdl st) (handlerlist st) (dynstack st) (trace st).
Definition set_current_buffer (v : buffer_t) (st : state) : state :=
  mk_state (symbols st) (cells st) (next_addr st) (buffers st)
    (buffer_defaults st) (buffer_local_flags st) (v) (frames st)
    (selected_frame st) (kboards st) (intvars st) (boolvars st) (objvars st)
    (specpdl st) (handlerlist st) (dynstack st) (trace st).
Definition set_frames (v : gmap frame_t frame) (st : state) : state :=
  mk_state (symbols st) (cells st) (next_addr st) (buffers st)
    (buffer_defaults st) (buffer_local_flags st) (current_buffer st) (v)
    (selected_frame st) (kboards st) (intvars st) (boolvars st) (objvars st)
    (specpdl st) (handlerlist st) (dynstack st) (trace st).
Definition set_selected_frame (v : frame_t) (st : state) : state :=
  mk_state (symbols st) (cells st) (next_addr st) (buffers st)
    (buffer_defaults st) (buffer_local_flags st) (current_buffer st)
    (frames st) (v) (kboards st) (intvars st) (boolvars st) (objvars st)
    (specpdl st) (handlerlist st) (dynstack st) (trace st).
Definition set_kboards (v : gmap nat (gmap Z Lisp_Object)) (st : state) : state :=
  mk_state (symbols st) (cells st) (next_addr st) (buffers st)
    (buffer_defaults st) (buffer_local_flags st) (current_buffer st)
    (frames st) (selected_frame st) (v) (intvars st) (boolvars st)
    (objvars st) (specpdl st) (handlerlist st) (dynstack st) (trace st).
Definition set_intvars (v : gmap nat Z) (st : state) : state :=
  mk_state (symbols st) (cells st) (next_addr st) (buffers st)
    (buffer_defaults st) (buffer_local_flags st) (current_buffer st)
    (frames st) (selected_frame st) (kboards st) (v) (boolvars st)
    (objvars st) (specpdl st) (handlerlist st) (dynstack st) (trace st).
Definition set_boolvars (v : gmap nat bool) (st : state) : state :=
  mk_state (symbols st) (cells st) (next_addr st) (buffers st)
    (buffer_defaults st) (buffer_local_flags st) (current_buffer st)
    (frames st) (selected_frame st) (kboards st) (intvars st) (v)
    (objvars st) (specpdl st) (handlerlist st) (dynstack st) (trace st).
Definition set_objvars (v : gmap nat Lisp_Object) (st : state) : state :=
  mk_state (symbols st) (cells st) (next_addr st) (buffers st)
    (buffer_defaults st) (buffer_local_flags st) (current_buffer st)
    (frames st) (selected_frame st) (kboards st) (intvars st) (boolvars st)
    (v) (specpdl st) (handlerlist st) (dynstack st) (trace st).
Definition set_specpdl (v : list specbinding) (st : state) : state :=
  mk_state (symbols st) (cells st) (next_addr st) (buffers st)
    (buffer_defaults st) (buffer_local_flags st) (current_buffer st)
    (frames st) (selected_frame st) (kboards st) (intvars st) (boolvars st)
    (objvars st) (v) (handlerlist st) (dynstack st) (trace st).
Definition set_handlerlist (v : list handler) (st : state) : state :=
  mk_state (symbols st) (cells st) (next_addr st) (buffers st)
    (buffer_defaults st) (buffer_local_flags st) (current_buffer st)
    (frames st) (selected_frame st) (kboards st) (intvars st) (boolvars st)
    (objvars st) (specpdl st) (v) (dynstack st) (trace st).
Definition set_dynstack (v : list wind_entry) (st : state) : state :=
  mk_state (symbols st) (cells st) (next_addr st) (buffers st)
    (buffer_defaults st) (buffer_local_flags st) (current_buffer st)
    (frames st) (selected_frame st) (kboards st) (intvars st) (boolvars st)
    (objvars st) (specpdl st) (handlerlist st) (v) (trace st).
Definition set_trace (v : list event) (st : state) : state :=
  mk_state (symbols st) (cells st) (next_addr st) (buffers st)
    (buffer_defaults st) (buffer_local_flags st) (current_buffer st)
    (frames st) (selected_frame st) (kboards st) (intvars st) (boolvars st)
    (objvars st) (specpdl st) (handlerlist st) (dynstack st) (v).

(** ** Outcomes and the state monad *)

(** How a piece of C code ends.  [Signal] is a call of [xsignal] whose
    handler has not been looked up yet; [Abort] is a non-local exit on its
    way to the prompt [tag], the wind stack already unwound down to that
    prompt; [Fatal] is [fatal ()]; [Aborted] is [emacs_abort ()] or a state
    the C code cannot be in; [Outside] hands control to code that is not part
    of this development (the debugger, Lisp hooks). *)
Inductive outcome (A : Type) : Type :=
| Normal (a : A)
| Signal (error_symbol data : Lisp_Object)
| Abort (tag : addr) (args : Lisp_Object)
| Fatal (data : Lisp_Object)
| Aborted (why : string)
| Outside (what : string).

Arguments Normal {A} a.
Arguments Signal {A} error_symbol data.
Arguments Abort {A} tag args.
Arguments Fatal {A} data.
Arguments Aborted {A} why.
Arguments Outside {A} what.

Definition M (A : Type) : Type := state → outcome A * state.

Definition ret {A} (a : A) : M A := λ st, (Normal a, st).

Definition bind {A B} (m : M A) (k : A → M B) : M B :=
  λ st,
    match m st with
    | (Normal a, st') => k a st'
    | (Signal e d, st') => (Signal e d, st')
    | (Abort t v, st') => (Abort t v, st')
    | (Fatal d, st') => (Fatal d, st')
    | (Aborted w, st') => (Aborted w, st')
    | (Outside w, st') => (Outside w, st')
    end.

#[global] Instance M_ret : MRet M := @ret.
#[global] Instance M_bind : MBind M := λ A B k m, bind m k.

Definition gets {A} (f : state → A) : M A := λ st, (Normal (f st), st).
Definition modify (f : state → state) : M unit := λ st, (Normal tt, f st).
Definition emacs_abort {A} (why : string) : M A := λ st, (Aborted why, st).
Definition outside {A} (what : string) : M A := λ st, (Outside what, st).
Definition when (b : bool) (m : M unit) : M unit := if b then m else ret tt.
Definition xsignal {A} (error_symbol data : Lisp_Object) : M A :=
  λ st, (Signal error_symbol data, st).

(** Allocation: a fresh address for every new heap object. *)
Definition fresh : M addr :=
  λ st, (Normal (next_addr st), set_next_addr (S (next_addr st)) st).

Definition Fcons (car cdr : Lisp_Object) : M Lisp_Object :=
  a ← fresh; mret (LCons a car cdr).

Definition make_string (s : string) : M Lisp_Object :=
  a ← fresh; mret (LStr a s).

Definition list1 (a : Lisp_Object) : M Lisp_Object := Fcons a Qnil.
Definition list2 (a b : Lisp_Object) : M Lisp_Object :=
  t ← Fcons b Qnil; Fcons a t.
Definition list3 (a b c : Lisp_Object) : M Lisp_Object :=
  t ← list2 b c; Fcons a t.

(** [Flist (n, args)]: a fresh list of the arguments. *)
Fixpoint Flist (args : list Lisp_Object) : M Lisp_Object :=
  match args with
  | [] => mret Qnil
  | a :: rest => t ← Flist rest; Fcons a t
  end.

(** [Freverse] of a list object: a fresh list. *)
Fixpoint Freverse_onto (l acc : Lisp_Object) : M Lisp_Object :=
  match l with
  | LCons _ a d => acc' ← Fcons a acc; Freverse_onto d acc'
  | _ => mret acc
  end.
Definition Freverse (l : Lisp_Object) : M Lisp_Object := Freverse_onto l Qnil.

Definition xsignal0 {A} (error_symbol : Lisp_Object) : M A :=
  xsignal error_symbol Qnil.
Definition xsignal1 {A} (error_symbol arg : Lisp_Object) : M A :=
  d ← list1 arg; xsignal error_symbol d.
Definition xsignal2 {A} (error_symbol arg1 arg2 : Lisp_Object) : M A :=
  d ← list2 arg1 arg2; xsignal error_symbol d.

Definition wrong_type_argument {A} (predicate value : Lisp_Object) : M A :=
  xsignal2 Qwrong_type_argument predicate value.

(** [error (m, ...)]: the formatted message is a fresh string; the format
    arguments are not rendered. *)
Definition error {A} (m : string) : M A :=
  s ← make_string m; xsignal1 Qerror s.

(** [signal_error (s, arg)]. *)
Definition signal_error {A} (s : string) (arg : Lisp_Object) : M A :=
  arg' ← (if NILP (list_end arg) then mret arg else list1 arg);
  str ← make_string s;
  d ← Fcons str arg';
  xsignal Qerror d.

Definition CHECK_SYMBOL (x : Lisp_Object) : M sym_t :=
  match x with
  | LSym s => mret s
  | _ => wrong_type_argument Qsymbolp x
  end.

Definition CHECK_BUFFER (x : Lisp_Object) : M buffer_t :=
  match x with
  | LBuffer b => mret b
  | _ => wrong_type_argument Qbufferp x
  end.

(** ** Reading the state *)

Definition SYMBOL (st : state) (s : sym_t) : Lisp_Symbol :=
  default void_symbol (symbols st !! s).

Definition SYMBOL_REDIRECT (st : state) (s : sym_t) : symbol_redirect :=
  redirect (SYMBOL st s).

Definition SET_SYMBOL (s : sym_t) (v : Lisp_Symbol) (st : state) : state :=
  set_symbols (<[s := v]> (symbols st)) st.

Definition SET_SYMBOL_REDIRECT (s : sym_t) (r : symbol_redirect)
    (st : state) : state :=
  SET_SYMBOL s (set_redirect r (SYMBOL st s)) st.

Definition SYMBOL_CONSTANT_P (st : state) (x : Lisp_Object) : bool :=
  match x with LSym s => constant (SYMBOL st s) | _ => false end.

Definition Fkeywordp (st : state) (x : Lisp_Object) : bool :=
  match x with LSym s => keyword (SYMBOL st s) | _ => false end.

Definition BUFFER (st : state) (b : buffer_t) : buffer :=
  default empty_buffer (buffers st !! b).

Definition SET_BUFFER (b : buffer_t) (v : buffer) (st : state) : state :=
  set_buffers (<[b := v]> (buffers st)) st.

Definition FRAME (st : state) (f : frame_t) : frame :=
  default empty_frame (frames st !! f).

Definition Fcurrent_buffer (st : state) : Lisp_Object :=
  LBuffer (current_buffer st).

(** The car and cdr of a binding cons; [XSETCDR] on it. *)
Definition cell_car (st : state) (c : addr) : Lisp_Object :=
  match cells st !! c with Some (a, _) => a | None => Qnil end.
Definition cell_cdr (st : state) (c : addr) : Lisp_Object :=
  match cells st !! c with Some (_, d) => d | None => Qnil end.
Definition XSETCDR_cell (c : addr) (v : Lisp_Object) (st : state) : state :=
  set_cells (<[c := (cell_car st c, v)]> (cells st)) st.

(** A fresh binding cons. *)
Definition Fcons_cell (car cdr : Lisp_Object) : M addr :=
  a ← fresh; modify (λ st, set_cells (<[a := (car, cdr)]> (cells st)) st);;
  mret a.

(** [assq_no_quit] and [Fassq] on an alist of binding conses: the first cons
    whose car is [EQ] to the key. *)
Definition assq_no_quit (st : state) (key : Lisp_Object) (alist : list addr)
    : option addr :=
  List.find (λ c, EQ (cell_car st c) key) alist.

(** [Fdelq]: drop the conses that are the given one. *)
Definition Fdelq (c : addr) (alist : list addr) : list addr :=
  List.filter (λ c', negb (bool_decide (c' = c))) alist.

(** The integer globals of [eval.c] live in [intvars] next to the variables
    made with [DEFVAR_INT]; [max_specpdl_size] and [max_lisp_eval_depth] are
    such variables. *)
Definition a_max_specpdl_size : nat := 0.
Definition a_max_lisp_eval_depth : nat := 1.
Definition a_specpdl_size : nat := 2.
Definition a_lisp_eval_depth : nat := 3.
Definition a_interrupt_input_blocked : nat := 4.
Definition a_when_entered_debugger : nat := 5.
Definition a_num_nonmacro_input_events : nat := 6.

Definition intvar (st : state) (a : nat) : Z := default 0%Z (intvars st !! a).
Definition set_intvar (a : nat) (v : Z) (st : state) : state :=
  set_intvars (<[a := v]> (intvars st)) st.

Definition max_specpdl_size (st : state) : Z := intvar st a_max_specpdl_size.
Definition max_lisp_eval_depth (st : state) : Z :=
  intvar st a_max_lisp_eval_depth.
Definition specpdl_size (st : state) : Z := intvar st a_specpdl_size.
Definition lisp_eval_depth (st : state) : Z := intvar st a_lisp_eval_depth.
Definition interrupt_input_blocked (st : state) : Z :=
  intvar st a_interrupt_input_blocked.

(** Likewise the Lisp variables made with [DEFVAR_LISP] and
    [DEFVAR_BOOL]. *)
Definition a_Vdebug_on_error : nat := 0.
Definition a_Vdebug_on_signal : nat := 1.
Definition a_Vinhibit_debugger : nat := 2.
Definition a_Vdebug_ignored_errors : nat := 3.
Definition a_Vsignal_hook_function : nat := 4.
Definition a_Vinternal_interpreter_environment : nat := 5.
Definition a_debug_on_quit : nat := 0.

Definition objvar (st : state) (a : nat) : Lisp_Object :=
  default Qnil (objvars st !! a).
Definition boolvar (st : state) (a : nat) : bool :=
  default false (boolvars st !! a).

(** [SPECPDL_INDEX ()]. *)
Definition SPECPDL_INDEX (st : state) : Z := Z.of_nat (length (specpdl st)).

(** ** Per-buffer slots ([buffer.h]) *)

(** [PER_BUFFER_IDX]: the entry of [buffer_local_flags] for the slot: -1 for
    a slot that is local in every buffer, 0 for a slot without a flag, a
    positive index otherwise. *)
Definition PER_BUFFER_IDX (st : state) (offset : Z) : Z :=
  default 0%Z (buffer_local_flags st !! offset).

Definition per_buffer_value (b : buffer) (offset : Z) : Lisp_Object :=
  default Qnil (slots b !! offset).
Definition set_per_buffer_value (offset : Z) (v : Lisp_Object) (b : buffer)
    : buffer :=
  set_slots (<[offset := v]> (slots b)) b.
Definition per_buffer_default (st : state) (offset : Z) : Lisp_Object :=
  default Qnil (buffer_defaults st !! offset).
Definition set_per_buffer_default (offset : Z) (v : Lisp_Object)
    (st : state) : state :=
  set_buffer_defaults (<[offset := v]> (buffer_defaults st)) st.

(** [PER_BUFFER_VALUE_P (b, idx)] for [0 <= idx]; the macro aborts on a
    negative index, which its callers rule out first. *)
Definition PER_BUFFER_VALUE_P (b : buffer) (idx : Z) : bool :=
  default false (local_flags b !! idx).
Definition SET_PER_BUFFER_VALUE_P (idx : Z) (v : bool) (b : buffer)
    : buffer :=
  set_local_flags (<[idx := v]> (local_flags b)) b.

(** ** Alias chains ([indirect_variable]) *)

Definition SYMBOL_ALIAS (st : state) (s : sym_t) : option sym_t :=
  match SYMBOL_REDIRECT st s with
  | SYMBOL_VARALIAS a => Some a
  | _ => None
  end.

(** The loop of [indirect_variable].  Each round of the C loop is one unfolding;
    [fuel] bounds the rounds.  The tortoise is always an alias when it is
    advanced, since the hare went over it before. *)
Fixpoint indirect_variable_loop (fuel : nat) (symbol hare tortoise : sym_t)
    : M sym_t :=
  λ st,
    match fuel with
    | 0 => emacs_abort "indirect_variable: out of fuel" st
    | S fuel' =>
        match SYMBOL_ALIAS st hare with
        | None => ret hare st
        | Some hare1 =>
            match SYMBOL_ALIAS st hare1 with
            | None => ret hare1 st
            | Some hare2 =>
                match SYMBOL_ALIAS st tortoise with
                | None => emacs_abort "indirect_variable: tortoise" st
                | Some tortoise1 =>
                    if bool_decide (hare2 = tortoise1)
                    then xsignal1 Qcyclic_variable_indirection
                           (LSym symbol) st
                    else indirect_variable_loop fuel' symbol hare2
                           tortoise1 st
                end
            end
        end
    end.

(** The symbol table is finite, and a chain that has not ended after as many
    rounds as there are symbols has met the tortoise: the fuel given here is
    never used up. *)
Definition indirect_variable (symbol : sym_t) : M sym_t :=
  λ st,
    indirect_variable_loop (S (size (symbols st))) symbol symbol symbol st.

(** [alias_chain st n s]: the symbol reached from [s] after [n] alias
    links, if the chain is that long. *)
Fixpoint alias_chain (st : state) (n : nat) (s : sym_t) : option sym_t :=
  match n with
  | 0 => Some s
  | S n' =>
      match SYMBOL_ALIAS st s with
      | Some a => alias_chain st n' a
      | None => None
      end
  end.

(** What a call of [indirect_variable] may come to: the end of the
    chain, or the cyclic-indirection error on a chain without end. *)
Definition chain_result (st : state) (symbol : sym_t)
    (r : outcome sym_t * state) : Prop :=
  (∃ target n, r = (Normal target, st)
               ∧ alias_chain st n symbol = Some target
               ∧ SYMBOL_ALIAS st target = None)
  ∨ (∃ d st', r = (Signal Qcyclic_variable_indirection d, st')
              ∧ list_elements d = [LSym symbol]
              ∧ ∀ n, is_Some (alias_chain st n symbol)).

Definition get_state : M state := λ st, (Normal st, st).

(** [case SYMBOL_VARALIAS: sym = indirect_variable (sym); goto start;] the
    head of every [switch] on the redirection. *)
Definition chase_alias (sym : sym_t) : M sym_t :=
  λ st,
    match SYMBOL_REDIRECT st sym with
    | SYMBOL_VARALIAS _ => indirect_variable sym st
    | _ => ret sym st
    end.

(** ** Forwards ([do_symval_forwarding], [store_symval_forwarding]) *)

Definition FRAME_KBOARD_slots (st : state) : gmap Z Lisp_Object :=
  default ∅ (kboards st !! kboard (FRAME st (selected_frame st))).

(** [XSETINT] packs a C integer into a Lisp integer.  The macro is in
    [lisp.h], which is not among the sources: a Lisp integer has
    [FIXNUM_BITS] bits, two fewer than [EMACS_INT], and [XSETINT] keeps the
    low bits of the C integer as a signed number. *)
Definition FIXNUM_BITS : Z := 62.
Definition MOST_POSITIVE_FIXNUM : Z := 2 ^ (FIXNUM_BITS - 1) - 1.
Definition MOST_NEGATIVE_FIXNUM : Z := - 2 ^ (FIXNUM_BITS - 1).
Definition XSETINT (n : Z) : Lisp_Object :=
  LInt ((n + 2 ^ (FIXNUM_BITS - 1)) mod 2 ^ FIXNUM_BITS
        - 2 ^ (FIXNUM_BITS - 1)).

(** The integers a Lisp object can hold. *)
Definition FIXNUMP (n : Z) : Prop :=
  (MOST_NEGATIVE_FIXNUM ≤ n ≤ MOST_POSITIVE_FIXNUM)%Z.

Definition do_symval_forwarding (st : state) (valcontents : Lisp_Fwd)
    : Lisp_Object :=
  match valcontents with
  | Lisp_Fwd_Int v => XSETINT (intvar st v)
  | Lisp_Fwd_Bool v => if boolvar st v then Qt else Qnil
  | Lisp_Fwd_Obj (Objvar v) => objvar st v
  | Lisp_Fwd_Obj (Objvar_buffer_default offset) =>
      per_buffer_default st offset
  | Lisp_Fwd_Buffer_Obj offset _ =>
      per_buffer_value (BUFFER st (current_buffer st)) offset
  | Lisp_Fwd_Kboard_Obj offset =>
      default Qnil (FRAME_KBOARD_slots st !! offset)
  end.

(** [call1 (predicate, newval)] for the type predicates of [data.c]; any
    other predicate is Lisp code outside this development. *)
Definition call1_predicate (predicate newval : Lisp_Object) : option bool :=
  match predicate with
  | LSym s =>
      if bool_decide (s = Sintegerp) || bool_decide (s = Snumberp)
      then Some (match newval with LInt _ => true | _ => false end)
      else if bool_decide (s = Sstringp)
      then Some (match newval with LStr _ _ => true | _ => false end)
      else if bool_decide (s = Ssymbolp)
      then Some (SYMBOLP newval)
      else None
  | _ => None
  end.

(** [FOR_EACH_BUFFER] / [FOR_EACH_LIVE_BUFFER] with the body that stores a
    new default into the buffers without a value of their own. *)
Definition propagate_default (live_only : bool) (idx offset : Z)
    (v : Lisp_Object) (st : state) : state :=
  set_buffers
    ((λ b, if (negb live_only || live b) && negb (PER_BUFFER_VALUE_P b idx)
           then set_per_buffer_value offset v b else b) <$> buffers st)
    st.

Definition store_symval_forwarding (valcontents : Lisp_Fwd)
    (newval : Lisp_Object) (buf : option buffer_t) : M unit :=
  match valcontents with
  | Lisp_Fwd_Int v =>
      match newval with
      | LInt n => modify (set_intvar v n)
      | _ => wrong_type_argument Qintegerp newval
      end
  | Lisp_Fwd_Bool v =>
      modify (λ st, set_boolvars (<[v := negb (NILP newval)]> (boolvars st)) st)
  | Lisp_Fwd_Obj (Objvar v) =>
      modify (λ st, set_objvars (<[v := newval]> (objvars st)) st)
  | Lisp_Fwd_Obj (Objvar_buffer_default offset) =>
      modify (set_per_buffer_default offset newval);;
      st ← get_state;
      let idx := PER_BUFFER_IDX st offset in
      if bool_decide (idx ≤ 0)%Z then ret tt
      else modify (propagate_default true idx offset newval)
  | Lisp_Fwd_Buffer_Obj offset predicate =>
      (if negb (NILP predicate) && negb (NILP newval)
       then match call1_predicate predicate newval with
            | Some true => ret tt
            | Some false => wrong_type_argument predicate newval
            | None => outside "call1"
            end
       else ret tt);;
      st ← get_state;
      let b := default (current_buffer st) buf in
      modify (SET_BUFFER b (set_per_buffer_value offset newval (BUFFER st b)))
  | Lisp_Fwd_Kboard_Obj offset =>
      modify (λ st,
        set_kboards
          (<[kboard (FRAME st (selected_frame st))
             := <[offset := newval]> (FRAME_KBOARD_slots st)]> (kboards st))
          st)
  end.

(** ** Buffer-local values *)

Definition dummy_blv : Lisp_Buffer_Local_Value :=
  mk_blv false false false None Qnil 0 0.

Definition SYMBOL_BLV (st : state) (sym : sym_t) : Lisp_Buffer_Local_Value :=
  match SYMBOL_REDIRECT st sym with
  | SYMBOL_LOCALIZED blv => blv
  | _ => dummy_blv
  end.

(** An assignment through the pointer [SYMBOL_BLV (sym)]. *)
Definition modify_blv (sym : sym_t)
    (f : Lisp_Buffer_Local_Value → Lisp_Buffer_Local_Value) : M unit :=
  modify (λ st, SET_SYMBOL_REDIRECT sym (SYMBOL_LOCALIZED (f (SYMBOL_BLV st sym))) st).

Definition blv_value (st : state) (blv : Lisp_Buffer_Local_Value)
    : Lisp_Object :=
  cell_cdr st (valcell blv).

(** [set_blv_value (blv, val)] is [XSETCDR (blv->valcell, val)]. *)
Definition set_blv_value (sym : sym_t) (val : Lisp_Object) : M unit :=
  modify (λ st, XSETCDR_cell (valcell (SYMBOL_BLV st sym)) val st).

(** [if (blv->fwd) set_blv_value (blv, do_symval_forwarding (blv->fwd));] *)
Definition unload_binding (sym : sym_t) : M unit :=
  st ← get_state;
  match fwd (SYMBOL_BLV st sym) with
  | Some f => set_blv_value sym (do_symval_forwarding st f)
  | None => ret tt
  end.

Definition swap_in_global_binding (symbol : sym_t) : M unit :=
  unload_binding symbol;;
  modify_blv symbol (λ blv, set_blv_valcell (defcell blv) blv);;
  st ← get_state;
  (match fwd (SYMBOL_BLV st symbol) with
   | Some f =>
       store_symval_forwarding f (cell_cdr st (defcell (SYMBOL_BLV st symbol)))
         None
   | None => ret tt
   end);;
  modify_blv symbol (set_blv_where Qnil);;
  modify_blv symbol (set_blv_found false).

Definition swap_in_symval_forwarding (symbol : sym_t) : M unit :=
  st ← get_state;
  let blv := SYMBOL_BLV st symbol in
  let tem1 := blv_where blv in
  if NILP tem1
     || (if frame_local blv
         then negb (EQ (LFrame (selected_frame st)) tem1)
         else negb (EQ (LBuffer (current_buffer st)) tem1))
  then
    unload_binding symbol;;
    st ← get_state;
    let var := LSym symbol in
    let tem1 :=
      if frame_local blv
      then assq_no_quit st var (param_alist (FRAME st (selected_frame st)))
      else assq_no_quit st var
             (local_var_alist (BUFFER st (current_buffer st))) in
    modify_blv symbol
      (set_blv_where (if frame_local blv then LFrame (selected_frame st)
                      else Fcurrent_buffer st));;
    modify_blv symbol (set_blv_found (bool_decide (is_Some tem1)));;
    modify_blv symbol (λ blv, set_blv_valcell (default (defcell blv) tem1) blv);;
    st ← get_state;
    match fwd (SYMBOL_BLV st symbol) with
    | Some f =>
        store_symval_forwarding f (blv_value st (SYMBOL_BLV st symbol)) None
    | None => ret tt
    end
  else ret tt.

(** ** Reading and writing variables *)

Definition find_symbol_value (symbol : Lisp_Object) : M Lisp_Object :=
  sym ← CHECK_SYMBOL symbol;
  sym ← chase_alias sym;
  st ← get_state;
  match SYMBOL_REDIRECT st sym with
  | SYMBOL_VARALIAS _ => emacs_abort "alias after indirect_variable"
  | SYMBOL_PLAINVAL v => ret v
  | SYMBOL_LOCALIZED _ =>
      swap_in_symval_forwarding sym;;
      st ← get_state;
      let blv := SYMBOL_BLV st sym in
      ret (match fwd blv with
           | Some f => do_symval_forwarding st f
           | None => blv_value st blv
           end)
  | SYMBOL_FORWARDED f => ret (do_symval_forwarding st f)
  end.

Definition Fsymbol_value (symbol : Lisp_Object) : M Lisp_Object :=
  val ← find_symbol_value symbol;
  if EQ val Qunbound then xsignal1 Qvoid_variable symbol else ret val.

(** [let_shadows_buffer_binding_p] ([eval.c]): a let-binding of the symbol
    made in the current buffer is on the binding stack. *)
Definition let_shadows_buffer_binding_p (st : state) (symbol : sym_t)
    : bool :=
  existsb
    (λ p, negb (bool_decide (kind p = SPECPDL_LET))
          && bool_decide (LSym symbol = specpdl_symbol p)
          && EQ (let_where p) (Fcurrent_buffer st))
    (specpdl st).

Definition SET_SYMBOL_VAL (sym : sym_t) (v : Lisp_Object) (st : state)
    : state :=
  SET_SYMBOL_REDIRECT sym (SYMBOL_PLAINVAL v) st.

(** The alist a buffer-local value looks its binding up in: the frame
    parameters of a frame for a frame-local variable, the local variables of
    a buffer otherwise.  [XFRAME] of a non-frame and [XBUFFER] of a
    non-buffer have no meaning. *)
Definition where_alist (st : state) (frame_local : bool) (where_ : Lisp_Object)
    : option (list addr) :=
  match frame_local, where_ with
  | true, LFrame f => Some (param_alist (FRAME st f))
  | false, LBuffer b => Some (local_var_alist (BUFFER st b))
  | _, _ => None
  end.

Definition bset_local_var_alist (b : buffer_t) (v : list addr) (st : state)
    : state :=
  SET_BUFFER b (set_local_var_alist v (BUFFER st b)) st.

(** The [SYMBOL_LOCALIZED] case of [set_internal]. *)
Definition set_internal_localized (sym : sym_t) (newval where_ : Lisp_Object)
    (bindflag : bool) : M unit :=
  st ← get_state;
  let blv := SYMBOL_BLV st sym in
  let where_ :=
    if NILP where_
    then (if frame_local blv then LFrame (selected_frame st)
          else LBuffer (current_buffer st))
    else where_ in
  (if negb (EQ (blv_where blv) where_)
      || bool_decide (valcell blv = defcell blv)
   then
     unload_binding sym;;
     st ← get_state;
     let symbol := LSym sym in
     match where_alist st (frame_local blv) where_ with
     | None => emacs_abort "set_internal: where"
     | Some alist =>
         let tem1 := assq_no_quit st symbol alist in
         modify_blv sym (set_blv_where where_);;
         modify_blv sym (set_blv_found true);;
         tem1 ←
           match tem1 with
           | Some c => ret c
           | None =>
               if bindflag || negb (local_if_set blv)
                  || let_shadows_buffer_binding_p st sym
               then
                 modify_blv sym (set_blv_found false);;
                 ret (defcell blv)
               else
                 match where_ with
                 | LBuffer b =>
                     c ← Fcons_cell symbol (cell_cdr st (defcell blv));
                     modify (λ st,
                       bset_local_var_alist b
                         (c :: local_var_alist (BUFFER st b)) st);;
                     ret c
                 | _ => emacs_abort "set_internal: local_if_set frame"
                 end
           end;
         modify_blv sym (set_blv_valcell tem1)
     end
   else ret tt);;
  set_blv_value sym newval;;
  st ← get_state;
  match fwd (SYMBOL_BLV st sym) with
  | Some f =>
      if EQ newval Qunbound
      then modify_blv sym (set_blv_fwd None)
      else store_symval_forwarding f newval
             (Some (match where_ with
                    | LBuffer b => b
                    | _ => current_buffer st
                    end))
  | None => ret tt
  end.

(** The [SYMBOL_FORWARDED] case of [set_internal]. *)
Definition set_internal_forwarded (sym : sym_t) (innercontents : Lisp_Fwd)
    (newval where_ : Lisp_Object) (bindflag : bool) : M unit :=
  st ← get_state;
  let buf := match where_ with LBuffer b => b | _ => current_buffer st end in
  (match innercontents with
   | Lisp_Fwd_Buffer_Obj offset _ =>
       let idx := PER_BUFFER_IDX st offset in
       if bool_decide (0 < idx)%Z && negb bindflag
          && negb (let_shadows_buffer_binding_p st sym)
       then modify (SET_BUFFER buf
                      (SET_PER_BUFFER_VALUE_P idx true (BUFFER st buf)))
       else ret tt
   | _ => ret tt
   end);;
  if EQ newval Qunbound
  then modify (SET_SYMBOL_VAL sym newval)
  else store_symval_forwarding innercontents newval (Some buf).

Definition set_internal (symbol newval where_ : Lisp_Object)
    (bindflag : bool) : M unit :=
  sym ← CHECK_SYMBOL symbol;
  st ← get_state;
  if SYMBOL_CONSTANT_P st symbol
  then
    if negb (Fkeywordp st symbol)
    then xsignal1 Qsetting_constant symbol
    else
      v ← Fsymbol_value symbol;
      if negb (EQ newval v) then xsignal1 Qsetting_constant symbol
      else ret tt
  else
    sym ← chase_alias sym;
    st ← get_state;
    match SYMBOL_REDIRECT st sym with
    | SYMBOL_VARALIAS _ => emacs_abort "alias after indirect_variable"
    | SYMBOL_PLAINVAL _ => modify (SET_SYMBOL_VAL sym newval)
    | SYMBOL_LOCALIZED _ => set_internal_localized sym newval where_ bindflag
    | SYMBOL_FORWARDED f =>
        set_internal_forwarded sym f newval where_ bindflag
    end.

Definition Fset (symbol newval : Lisp_Object) : M Lisp_Object :=
  set_internal symbol newval Qnil false;; ret newval.

(** ** Default values *)

Definition default_value (symbol : Lisp_Object) : M Lisp_Object :=
  sym ← CHECK_SYMBOL symbol;
  sym ← chase_alias sym;
  st ← get_state;
  match SYMBOL_REDIRECT st sym with
  | SYMBOL_VARALIAS _ => emacs_abort "alias after indirect_variable"
  | SYMBOL_PLAINVAL v => ret v
  | SYMBOL_LOCALIZED blv =>
      match fwd blv with
      | Some f =>
          if bool_decide (valcell blv = defcell blv)
          then ret (do_symval_forwarding st f)
          else ret (cell_cdr st (defcell blv))
      | None => ret (cell_cdr st (defcell blv))
      end
  | SYMBOL_FORWARDED valcontents =>
      match valcontents with
      | Lisp_Fwd_Buffer_Obj offset _ =>
          if bool_decide (PER_BUFFER_IDX st offset ≠ 0)%Z
          then ret (per_buffer_default st offset)
          else ret (do_symval_forwarding st valcontents)
      | _ => ret (do_symval_forwarding st valcontents)
      end
  end.

Definition Fdefault_value (symbol : Lisp_Object) : M Lisp_Object :=
  value ← default_value symbol;
  if EQ value Qunbound then xsignal1 Qvoid_variable symbol else ret value.

Definition Fset_default (symbol value : Lisp_Object) : M Lisp_Object :=
  sym ← CHECK_SYMBOL symbol;
  st ← get_state;
  if SYMBOL_CONSTANT_P st symbol
  then
    if negb (Fkeywordp st symbol)
    then xsignal1 Qsetting_constant symbol
    else
      v ← Fdefault_value symbol;
      if negb (EQ value v) then xsignal1 Qsetting_constant symbol
      else ret value
  else
    sym ← chase_alias sym;
    st ← get_state;
    match SYMBOL_REDIRECT st sym with
    | SYMBOL_VARALIAS _ => emacs_abort "alias after indirect_variable"
    | SYMBOL_PLAINVAL _ => Fset symbol value
    | SYMBOL_LOCALIZED blv =>
        modify (XSETCDR_cell (defcell blv) value);;
        match fwd blv with
        | Some f =>
            if bool_decide (defcell blv = valcell blv)
            then store_symval_forwarding f value None;; ret value
            else ret value
        | None => ret value
        end
    | SYMBOL_FORWARDED valcontents =>
        match valcontents with
        | Lisp_Fwd_Buffer_Obj offset _ =>
            let idx := PER_BUFFER_IDX st offset in
            modify (set_per_buffer_default offset value);;
            (if bool_decide (0 < idx)%Z
             then modify (propagate_default false idx offset value)
             else ret tt);;
            ret value
        | _ => Fset symbol value
        end
    end.

(** ** Making variables local *)

(** [make_blv]: the new record, and the fresh cons that is both its default
    cell and its current cell.  [valcontents] is the old value of a plain
    symbol or the forward of a forwarded one. *)
Definition make_blv (sym : sym_t) (valcontents : Lisp_Object + Lisp_Fwd)
    : M Lisp_Buffer_Local_Value :=
  st ← get_state;
  tem ← Fcons_cell (LSym sym)
          (match valcontents with
           | inr f => do_symval_forwarding st f
           | inl v => v
           end);
  ret (mk_blv false false false
         (match valcontents with inr f => Some f | inl _ => None end)
         Qnil tem tem).

Definition let_shadows_global_binding_p (st : state) (symbol : Lisp_Object)
    : bool :=
  existsb (λ p, EQ (specpdl_symbol p) symbol) (specpdl st).

Definition Fmake_variable_buffer_local (variable : Lisp_Object)
    : M Lisp_Object :=
  sym ← CHECK_SYMBOL variable;
  sym ← chase_alias sym;
  st ← get_state;
  let finish (blv : option Lisp_Buffer_Local_Value)
      (valcontents : Lisp_Object + Lisp_Fwd) : M Lisp_Object :=
    if constant (SYMBOL st sym)
    then error "Symbol %s may not be buffer-local"
    else
      (match blv with
       | Some _ => ret tt
       | None =>
           blv ← make_blv sym valcontents;
           modify (SET_SYMBOL_REDIRECT sym (SYMBOL_LOCALIZED blv))
       end);;
      modify_blv sym (set_blv_local_if_set true);;
      ret variable in
  match SYMBOL_REDIRECT st sym with
  | SYMBOL_VARALIAS _ => emacs_abort "alias after indirect_variable"
  | SYMBOL_PLAINVAL v =>
      finish None (inl (if EQ v Qunbound then Qnil else v))
  | SYMBOL_LOCALIZED blv =>
      if frame_local blv then error "Symbol %s may not be buffer-local"
      else finish (Some blv) (inl Qnil)
  | SYMBOL_FORWARDED f =>
      if KBOARD_OBJFWDP f then error "Symbol %s may not be buffer-local"
      else if BUFFER_OBJFWDP f then ret variable
      else finish None (inr f)
  end.

Definition Fboundp (symbol : Lisp_Object) : M Lisp_Object :=
  sym ← CHECK_SYMBOL symbol;
  sym ← chase_alias sym;
  st ← get_state;
  match SYMBOL_REDIRECT st sym with
  | SYMBOL_VARALIAS _ => emacs_abort "alias after indirect_variable"
  | SYMBOL_PLAINVAL v => ret (if EQ v Qunbound then Qnil else Qt)
  | SYMBOL_LOCALIZED blv =>
      match fwd blv with
      | Some _ => ret Qt
      | None =>
          swap_in_symval_forwarding sym;;
          st ← get_state;
          ret (if EQ (blv_value st (SYMBOL_BLV st sym)) Qunbound
               then Qnil else Qt)
      end
  | SYMBOL_FORWARDED _ => ret Qt
  end.

Definition Fmake_local_variable (variable : Lisp_Object) : M Lisp_Object :=
  sym ← CHECK_SYMBOL variable;
  sym ← chase_alias sym;
  st ← get_state;
  let finish (blv : option Lisp_Buffer_Local_Value)
      (valcontents : Lisp_Object + Lisp_Fwd) : M Lisp_Object :=
    if constant (SYMBOL st sym)
    then error "Symbol %s may not be buffer-local"
    else if match blv with
            | Some blv => local_if_set blv
            | None => match valcontents with
                      | inr f => BUFFER_OBJFWDP f
                      | inl _ => false
                      end
            end
    then
      tem ← Fboundp variable;
      v ← (if EQ tem Qt then Fsymbol_value variable else ret Qunbound);
      Fset variable v;;
      ret variable
    else
      (match blv with
       | Some _ => ret tt
       | None =>
           blv ← make_blv sym valcontents;
           modify (SET_SYMBOL_REDIRECT sym (SYMBOL_LOCALIZED blv))
       end);;
      let variable := LSym sym in
      st ← get_state;
      (match assq_no_quit st variable
               (local_var_alist (BUFFER st (current_buffer st))) with
       | Some _ => ret tt
       | None =>
           find_symbol_value variable;;
           st ← get_state;
           c ← Fcons_cell variable
                 (cell_cdr st (defcell (SYMBOL_BLV st sym)));
           modify (λ st,
             bset_local_var_alist (current_buffer st)
               (c :: local_var_alist (BUFFER st (current_buffer st))) st);;
           st ← get_state;
           (if EQ (LBuffer (current_buffer st))
                 (blv_where (SYMBOL_BLV st sym))
            then modify_blv sym (set_blv_where Qnil) else ret tt);;
           modify_blv sym (set_blv_found false)
       end);;
      st ← get_state;
      (match fwd (SYMBOL_BLV st sym) with
       | Some _ => swap_in_symval_forwarding sym
       | None => ret tt
       end);;
      ret variable in
  match SYMBOL_REDIRECT st sym with
  | SYMBOL_VARALIAS _ => emacs_abort "alias after indirect_variable"
  | SYMBOL_PLAINVAL v => finish None (inl v)
  | SYMBOL_LOCALIZED blv =>
      if frame_local blv then error "Symbol %s may not be buffer-local"
      else finish (Some blv) (inl Qnil)
  | SYMBOL_FORWARDED f =>
      if KBOARD_OBJFWDP f then error "Symbol %s may not be buffer-local"
      else finish None (inr f)
  end.

Definition Fkill_local_variable (variable : Lisp_Object) : M Lisp_Object :=
  sym ← CHECK_SYMBOL variable;
  sym ← chase_alias sym;
  st ← get_state;
  match SYMBOL_REDIRECT st sym with
  | SYMBOL_VARALIAS _ => emacs_abort "alias after indirect_variable"
  | SYMBOL_PLAINVAL _ => ret variable
  | SYMBOL_FORWARDED valcontents =>
      match valcontents with
      | Lisp_Fwd_Buffer_Obj offset _ =>
          let idx := PER_BUFFER_IDX st offset in
          if bool_decide (0 < idx)%Z
          then
            modify (λ st,
              let b := current_buffer st in
              SET_BUFFER b
                (set_per_buffer_value offset (per_buffer_default st offset)
                   (SET_PER_BUFFER_VALUE_P idx false (BUFFER st b))) st);;
            ret variable
          else ret variable
      | _ => ret variable
      end
  | SYMBOL_LOCALIZED blv =>
      if frame_local blv then ret variable
      else
        let variable := LSym sym in
        (match assq_no_quit st variable
                 (local_var_alist (BUFFER st (current_buffer st))) with
         | Some tem =>
             modify (λ st,
               bset_local_var_alist (current_buffer st)
                 (Fdelq tem (local_var_alist (BUFFER st (current_buffer st))))
                 st)
         | None => ret tt
         end);;
        st ← get_state;
        (if EQ (LBuffer (current_buffer st)) (blv_where (SYMBOL_BLV st sym))
         then
           modify_blv sym (set_blv_where Qnil);;
           modify_blv sym (set_blv_found false);;
           find_symbol_value variable;;
           ret tt
         else ret tt);;
        ret variable
  end.

Definition Fmake_variable_frame_local (variable : Lisp_Object)
    : M Lisp_Object :=
  sym ← CHECK_SYMBOL variable;
  sym ← chase_alias sym;
  st ← get_state;
  let finish (valcontents : Lisp_Object + Lisp_Fwd) : M Lisp_Object :=
    if constant (SYMBOL st sym)
    then error "Symbol %s may not be frame-local"
    else
      blv ← make_blv sym valcontents;
      modify (SET_SYMBOL_REDIRECT sym
                (SYMBOL_LOCALIZED (set_blv_frame_local true blv)));;
      ret variable in
  match SYMBOL_REDIRECT st sym with
  | SYMBOL_VARALIAS _ => emacs_abort "alias after indirect_variable"
  | SYMBOL_PLAINVAL v => finish (inl (if EQ v Qunbound then Qnil else v))
  | SYMBOL_LOCALIZED blv =>
      if frame_local blv then ret variable
      else error "Symbol %s may not be frame-local"
  | SYMBOL_FORWARDED f =>
      if KBOARD_OBJFWDP f || BUFFER_OBJFWDP f
      then error "Symbol %s may not be frame-local"
      else finish (inr f)
  end.

Definition Flocal_variable_p (variable buffer : Lisp_Object)
    : M Lisp_Object :=
  st ← get_state;
  buf ← (if NILP buffer then ret (current_buffer st) else CHECK_BUFFER buffer);
  sym ← CHECK_SYMBOL variable;
  sym ← chase_alias sym;
  st ← get_state;
  match SYMBOL_REDIRECT st sym with
  | SYMBOL_VARALIAS _ => emacs_abort "alias after indirect_variable"
  | SYMBOL_PLAINVAL _ => ret Qnil
  | SYMBOL_LOCALIZED blv =>
      if EQ (blv_where blv) (LBuffer buf)
      then ret (if found blv then Qt else Qnil)
      else
        ret (if existsb (λ elt, EQ (LSym sym) (cell_car st elt))
                  (local_var_alist (BUFFER st buf))
             then Qt else Qnil)
  | SYMBOL_FORWARDED valcontents =>
      match valcontents with
      | Lisp_Fwd_Buffer_Obj offset _ =>
          let idx := PER_BUFFER_IDX st offset in
          ret (if bool_decide (idx = -1)%Z
                  || PER_BUFFER_VALUE_P (BUFFER st buf) idx
               then Qt else Qnil)
      | _ => ret Qnil
      end
  end.

(** ** The binding stack ([eval.c]) *)

(** A 64-bit build. *)
Definition PTRDIFF_MAX : Z := (2 ^ 63 - 1)%Z.

(** Modelled from the spec: [xpalloc] is defined in [alloc.c], which is not
    among the sources at hand; of the growth of the binding stack the
    specification only asks that it keeps the entries and stays under the
    ceiling.  The number of items after [xpalloc (pa, &n, nitems_incr_min,
    nitems_max, item_size)] on an array that is not tiny: half as much
    again, at least [nitems_incr_min] more, never beyond [nitems_max]. *)
Definition xpalloc_nitems (n nitems_incr_min nitems_max : Z) : Z :=
  (n + Z.max nitems_incr_min (Z.min (n / 2) (nitems_max - n)))%Z.

(** [grow_specpdl].  The caller has initialised the entry at [specpdl_ptr];
    [entry] is that entry, and [specpdl_ptr++] makes it part of the stack.
    Writing the entry needs [specpdl_ptr] inside the vector. *)
Definition grow_specpdl (entry : specbinding) : M unit :=
  st ← get_state;
  if bool_decide (specpdl_size st ≤ SPECPDL_INDEX st)%Z
  then emacs_abort "specpdl_ptr beyond the end of specpdl"
  else
    modify (λ st, set_specpdl (entry :: specpdl st) st);;
    st ← get_state;
    if bool_decide (SPECPDL_INDEX st = specpdl_size st)
    then
      let max_size := Z.min (max_specpdl_size st) (PTRDIFF_MAX - 1000) in
      let pdlvecsize := (specpdl_size st + 1)%Z in
      max_size ←
        (if bool_decide (max_size ≤ specpdl_size st)%Z
         then
           max_size ←
             (if bool_decide (max_specpdl_size st < 400)%Z
              then modify (set_intvar a_max_specpdl_size 400);; ret 400%Z
              else ret max_size);
           if bool_decide (max_size ≤ specpdl_size st)%Z
           then signal_error
                  "Variable binding depth exceeds max-specpdl-size" Qnil
           else ret max_size
         else ret max_size);
      modify (set_intvar a_specpdl_size
                (xpalloc_nitems pdlvecsize 1 (max_size + 1) - 1))
    else ret tt.

(** [scm_dynwind_unwind_handler (f, data, flags)]. *)
Definition scm_dynwind_unwind_handler (f : unwinder) (explicit : bool)
    : M unit :=
  modify (λ st, set_dynstack (W_unwinder f explicit :: dynstack st) st).

(** [specbind] up to the point where an error, if any, has been raised with
    [xsignal]: the search for its handler is [Fsignal]'s, see [specbind]
    below. *)
Definition specbind_1 (symbol value : Lisp_Object) : M unit :=
  sym ← CHECK_SYMBOL symbol;
  sym ← chase_alias sym;
  let symbol := LSym sym in
  st ← get_state;
  (match SYMBOL_REDIRECT st sym with
   | SYMBOL_VARALIAS _ => emacs_abort "alias after indirect_variable"
   | SYMBOL_PLAINVAL v =>
       grow_specpdl (mk_specbinding SPECPDL_LET symbol v Qnil);;
       if negb (constant (SYMBOL st sym))
       then modify (SET_SYMBOL_VAL sym value)
       else set_internal symbol value Qnil true
   | SYMBOL_LOCALIZED _ | SYMBOL_FORWARDED _ =>
       (match SYMBOL_REDIRECT st sym with
        | SYMBOL_LOCALIZED blv =>
            if frame_local blv
            then error "Frame-local vars cannot be let-bound"
            else ret tt
        | _ => ret tt
        end);;
       ovalue ← find_symbol_value symbol;
       st ← get_state;
       let entry k :=
         mk_specbinding k symbol ovalue (Fcurrent_buffer st) in
       match SYMBOL_REDIRECT st sym with
       | SYMBOL_LOCALIZED blv =>
           grow_specpdl
             (entry (if found blv then SPECPDL_LET_LOCAL
                     else SPECPDL_LET_DEFAULT));;
           set_internal symbol value Qnil true
       | SYMBOL_FORWARDED f =>
           if BUFFER_OBJFWDP f
           then
             l ← Flocal_variable_p symbol Qnil;
             if NILP l
             then
               grow_specpdl (entry SPECPDL_LET_DEFAULT);;
               Fset_default symbol value;;
               ret tt
             else
               grow_specpdl (entry SPECPDL_LET_LOCAL);;
               set_internal symbol value Qnil true
           else
             grow_specpdl (entry SPECPDL_LET);;
             set_internal symbol value Qnil true
       | _ => emacs_abort "specbind: redirect changed"
       end
   end);;
  scm_dynwind_unwind_handler U_unbind_once true.

(** [unbind_once]: [specpdl_ptr--] first, then the work. *)
Definition unbind_once : M unit :=
  st ← get_state;
  match specpdl st with
  | [] => emacs_abort "unbind_once: specpdl_ptr below specpdl"
  | this :: rest =>
      modify (set_specpdl rest);;
      modify (λ st, set_trace (trace st ++ [Ev_unbind this]) st);;
      (let restore_default :=
         Fset_default (specpdl_symbol this) (specpdl_old_value this);;
         ret tt in
       match kind this with
       | SPECPDL_LET =>
           match specpdl_symbol this with
           | LSym sym =>
               match SYMBOL_REDIRECT st sym with
               | SYMBOL_PLAINVAL _ =>
                   modify (SET_SYMBOL_VAL sym (specpdl_old_value this))
               | _ => restore_default
               end
           | _ => emacs_abort "unbind_once: XSYMBOL"
           end
       | SPECPDL_LET_DEFAULT => restore_default
       | SPECPDL_LET_LOCAL =>
           let symbol := specpdl_symbol this in
           let where_ := specpdl_where this in
           let old_value := specpdl_old_value this in
           l ← Flocal_variable_p symbol where_;
           if negb (NILP l)
           then set_internal symbol old_value where_ true
           else ret tt
       end)
  end.

(** [restore_stack_limits]. *)
Definition restore_stack_limits (data : Lisp_Object) : M unit :=
  match XCAR data, XCDR data with
  | LInt old_max, LInt old_depth =>
      modify (set_intvar a_max_specpdl_size old_max);;
      modify (set_intvar a_max_lisp_eval_depth old_depth)
  | _, _ => emacs_abort "restore_stack_limits: XINT"
  end.

(** Calling the function of an unwind handler with its data. *)
Definition run_unwinder (f : unwinder) : M unit :=
  match f with
  | U_unbind_once => unbind_once
  | U_set_handlerlist data => modify (set_handlerlist data)
  | U_restore_handler c =>
      modify (set_intvar a_interrupt_input_blocked
                (h_interrupt_input_blocked c))
  | U_restore_stack_limits data => restore_stack_limits data
  | U_protect c =>
      modify (λ st, set_trace (trace st ++ [Ev_cleanup (cl_id c)]) st);;
      match cl_signal c with
      | Some (e, d) => xsignal e d
      | None => ret tt
      end
  end.

(** ** Handlers and signals ([eval.c]) *)

(** [Fget (symbol, propname)] for a symbol. *)
Fixpoint Fplist_get (plist prop : Lisp_Object) : Lisp_Object :=
  match plist with
  | LCons _ p (LCons _ v rest) => if EQ p prop then v else Fplist_get rest prop
  | _ => Qnil
  end.

Definition Fget (st : state) (sym : sym_t) (propname : Lisp_Object)
    : Lisp_Object :=
  Fplist_get (plist (SYMBOL st sym)) propname.

Definition find_handler_clause (handlers conditions : Lisp_Object)
    : Lisp_Object :=
  if EQ handlers Qt then Qt
  else if EQ handlers Qerror then Qt
  else
    if existsb (λ handler, negb (NILP (Fmemq handler conditions)))
         (list_elements handlers)
    then handlers else Qnil.

(** The [for] loop of [Fsignal]: the first condition-case handler, from the
    innermost outwards, with a clause for the conditions; [h] and [clause]
    as the loop leaves them. *)
Fixpoint signal_find_handler (hl : list handler) (conditions : Lisp_Object)
    : option (handler * Lisp_Object) :=
  match hl with
  | [] => None
  | h :: next =>
      match h_type h with
      | CONDITION_CASE =>
          let clause := find_handler_clause (tag_or_ch h) conditions in
          if negb (NILP clause) then Some (h, clause)
          else signal_find_handler next conditions
      | CATCHER => signal_find_handler next conditions
      end
  end.

(** The loop of [Fthrow]: the innermost catcher for the tag. *)
Fixpoint throw_find_catch (hl : list handler) (tag : Lisp_Object)
    : option handler :=
  match hl with
  | [] => None
  | c :: next =>
      match h_type c with
      | CATCHER =>
          if EQ (tag_or_ch c) tag then Some c else throw_find_catch next tag
      | CONDITION_CASE => throw_find_catch next tag
      end
  end.

Definition wants_debugger (list conditions : Lisp_Object) : bool :=
  if NILP list then false
  else if negb (CONSP list) then true
  else
    existsb (λ this, existsb (λ x, EQ x this) (list_elements list))
      (list_elements conditions).

(** [skip_debugger]; an entry of [debug-ignored-errors] that is a string is
    a regexp for the regexp engine, which is not part of this development:
    [None] then. *)
Fixpoint skip_debugger_loop (tail : list Lisp_Object)
    (conditions : Lisp_Object) : option bool :=
  match tail with
  | [] => Some false
  | LStr _ _ :: _ => None
  | x :: rest =>
      if existsb (λ c, EQ x c) (list_elements conditions) then Some true
      else skip_debugger_loop rest conditions
  end.

Definition skip_debugger (st : state) (conditions : Lisp_Object)
    : option bool :=
  skip_debugger_loop (list_elements (objvar st a_Vdebug_ignored_errors))
    conditions.

(** [maybe_call_debugger]: [false] when the debugger is not called; the
    debugger itself is Lisp code outside this development. *)
Definition maybe_call_debugger (conditions sig data : Lisp_Object)
    : M bool :=
  st ← get_state;
  if negb (bool_decide (0 < interrupt_input_blocked st)%Z)
     && NILP (objvar st a_Vinhibit_debugger)
     && (if EQ sig Qquit then boolvar st a_debug_on_quit
         else wants_debugger (objvar st a_Vdebug_on_error) conditions)
  then
    match skip_debugger st conditions with
    | None => outside "fast_string_match"
    | Some true => ret false
    | Some false =>
        if bool_decide (intvar st a_when_entered_debugger
                        < intvar st a_num_nonmacro_input_events)%Z
        then outside "call_debugger"
        else ret false
    end
  else ret false.

(** [handlerlist_sentinel], made by [init_eval]: a catcher for [Qunbound]
    that has no prompt. *)
Definition handlerlist_sentinel : list handler :=
  [mk_handler CATCHER Qunbound Qnil Qnil 0 0 0].

(** What [Fsignal] decides before anything is unwound. *)
Inductive signal_decision : Type :=
| Unwind_to_catch (h : handler) (value : Lisp_Object)
| Signal_fatal (data : Lisp_Object)
| Signal_no_return.

(** [Fsignal] for an error symbol that is a symbol, up to the call of
    [unwind_to_catch].  Without a handler and with handlers other than the
    sentinel around, [Fsignal] throws to [top-level]; when no catch for
    [top-level] exists that throw signals [no-catch], and [no_catch] tells
    that this is the signal at hand: if it finds no handler either, the two
    functions call each other without end. *)
Definition Fsignal_decide (no_catch : bool) (error_symbol : Lisp_Object)
    (real_error_symbol : sym_t) (data : Lisp_Object) : M signal_decision :=
  st ← get_state;
  (if negb (NILP (objvar st a_Vsignal_hook_function))
      && negb (NILP error_symbol)
   then
     when (bool_decide (max_lisp_eval_depth st < lisp_eval_depth st + 20)%Z)
       (modify (set_intvar a_max_lisp_eval_depth (lisp_eval_depth st + 20)));;
     when (bool_decide (max_specpdl_size st < SPECPDL_INDEX st + 40)%Z)
       (modify (set_intvar a_max_specpdl_size (SPECPDL_INDEX st + 40)));;
     outside "signal-hook-function"
   else ret tt);;
  let conditions := Fget st real_error_symbol Qerror_conditions in
  let found := signal_find_handler (handlerlist st) conditions in
  (if negb (NILP error_symbol)
      && (negb (NILP (objvar st a_Vdebug_on_signal))
          || match found with
             | None => true
             | Some (h, clause) =>
                 (CONSP clause && negb (NILP (Fmemq Qdebug clause)))
                 || EQ (tag_or_ch h) Qerror
             end)
   then
     maybe_call_debugger conditions error_symbol data;; ret tt
   else ret tt);;
  match found with
  | Some (h, _) =>
      unwind_data ←
        (if NILP error_symbol then ret data else Fcons error_symbol data);
      ret (Unwind_to_catch h unwind_data)
  | None =>
      if bool_decide (handlerlist st = handlerlist_sentinel)
      then
        data ←
          (if NILP error_symbol then ret data else Fcons error_symbol data);
        ret (Signal_fatal data)
      else
        match throw_find_catch (handlerlist st) Qtop_level with
        | Some c => ret (Unwind_to_catch c Qt)
        | None =>
            if no_catch then ret Signal_no_return
            else
              d ← list2 Qtop_level Qt;
              st ← get_state;
              let conditions := Fget st Sno_catch Qerror_conditions in
              match signal_find_handler (handlerlist st) conditions with
              | Some (h, clause) =>
                  (if negb (NILP (objvar st a_Vdebug_on_signal))
                      || (CONSP clause && negb (NILP (Fmemq Qdebug clause)))
                      || EQ (tag_or_ch h) Qerror
                   then maybe_call_debugger conditions Qno_catch d;; ret tt
                   else ret tt);;
                  unwind_data ← Fcons Qno_catch d;
                  ret (Unwind_to_catch h unwind_data)
              | None =>
                  maybe_call_debugger conditions Qno_catch d;;
                  ret Signal_no_return
              end
        end
  end.

(** [Fsignal (error_symbol, data)] up to the call of [unwind_to_catch].
    With the error symbol [nil] the real one is [Fcar (data)], which signals
    [wrong-type-argument] with [listp] for data that are no list; [Fget]
    checks that the error symbol is a symbol, and signals
    [wrong-type-argument] otherwise. *)
Definition Fsignal_1 (error_symbol data : Lisp_Object) : M signal_decision :=
  if NILP error_symbol && negb (CONSP data) && negb (NILP data)
  then
    d ← list2 Qlistp data;
    Fsignal_decide false Qwrong_type_argument Swrong_type_argument d
  else
    let real_error_symbol :=
      if NILP error_symbol then XCAR data else error_symbol in
    match real_error_symbol with
    | LSym s =>
        Fsignal_decide (bool_decide (s = Sno_catch)) error_symbol s data
    | _ =>
        d ← list2 Qsymbolp real_error_symbol;
        Fsignal_decide false Qwrong_type_argument Swrong_type_argument d
    end.

(** ** The wind stack of the Scheme runtime *)

Definition has_prompt (tag : addr) (ws : list wind_entry) : bool :=
  existsb (λ e, match e with
                | W_prompt q => bool_decide (q = tag)
                | _ => false
                end) ws.

(** The unwinding of [abort-to-prompt]: the entries above the prompt are
    taken off the wind stack one by one, newest first, and each unwind
    handler is called once it is off.  A handler that signals starts
    [Fsignal], whose throw goes on from the wind stack as it then is. *)
Fixpoint unwind_to {A} (ws : list wind_entry) (tag : addr)
    (args : Lisp_Object) (st : state) : outcome A * state :=
  match ws with
  | [] => (Aborted "Abort to unknown prompt", set_dynstack [] st)
  | W_frame :: rest => unwind_to rest tag args st
  | W_prompt q :: rest =>
      if bool_decide (q = tag) then (Abort tag args, set_dynstack rest st)
      else unwind_to rest tag args st
  | W_unwinder f _ :: rest =>
      match run_unwinder f (set_dynstack rest st) with
      | (Normal _, st') => unwind_to rest tag args st'
      | (Signal e d, st') =>
          match Fsignal_1 e d st' with
          | (Normal (Unwind_to_catch h value), st'') =>
              if has_prompt (ptag h) rest
              then unwind_to rest (ptag h) value st''
              else (Aborted "Abort to unknown prompt", st'')
          | (Normal (Signal_fatal data), st'') => (Fatal data, st'')
          | (Normal Signal_no_return, st'') =>
              (Aborted "Fsignal and Fthrow call each other without end",
               st'')
          | (Signal e' d', st'') => (Signal e' d', st'')
          | (Abort t v, st'') => (Abort t v, st'')
          | (Fatal d', st'') => (Fatal d', st'')
          | (Aborted w, st'') => (Aborted w, st'')
          | (Outside w, st'') => (Outside w, st'')
          end
      | (Abort t v, st') => (Abort t v, st')
      | (Fatal d, st') => (Fatal d, st')
      | (Aborted w, st') => (Aborted w, st')
      | (Outside w, st') => (Outside w, st')
      end
  end.

(** [abort_to_prompt (tag, arglst)]: the prompt is looked up first. *)
Definition abort_to_prompt {A} (tag : addr) (args : Lisp_Object) : M A :=
  λ st,
    if has_prompt tag (dynstack st)
    then unwind_to (dynstack st) tag args st
    else (Aborted "Abort to unknown prompt", st).

Definition unwind_to_catch {A} (catch : handler) (value : Lisp_Object)
    : M A :=
  abort_to_prompt (ptag catch) value.

Definition Fsignal {A} (error_symbol data : Lisp_Object) : M A :=
  λ st,
    match Fsignal_1 error_symbol data st with
    | (Normal (Unwind_to_catch h value), st') => unwind_to_catch h value st'
    | (Normal (Signal_fatal data), st') => (Fatal data, st')
    | (Normal Signal_no_return, st') =>
        (Aborted "Fsignal and Fthrow call each other without end", st')
    | (Signal e' d', st') => (Signal e' d', st')
    | (Abort t v, st') => (Abort t v, st')
    | (Fatal d', st') => (Fatal d', st')
    | (Aborted w, st') => (Aborted w, st')
    | (Outside w, st') => (Outside w, st')
    end.

(** A call of [xsignal] inside [m] is a call of [Fsignal]. *)
Definition with_signals {A} (m : M A) : M A :=
  λ st,
    match m st with
    | (Signal e d, st') => Fsignal e d st'
    | r => r
    end.

Definition Fthrow {A} (tag value : Lisp_Object) : M A :=
  st ← get_state;
  match (if negb (NILP tag) then throw_find_catch (handlerlist st) tag
         else None) with
  | Some c => unwind_to_catch c value
  | None => with_signals (xsignal2 Qno_catch tag value)
  end.

Definition dynwind_begin : M unit :=
  modify (λ st, set_dynstack (W_frame :: dynstack st) st).

(** [scm_dynwind_end]: the entries down to the frame marker are taken off;
    the unwind handlers registered with [SCM_F_WIND_EXPLICITLY] are
    called. *)
Fixpoint dynwind_end_loop (ws : list wind_entry) (st : state)
    : outcome unit * state :=
  match ws with
  | [] => (Aborted "scm_dynwind_end: no frame", set_dynstack [] st)
  | W_frame :: rest => (Normal tt, set_dynstack rest st)
  | W_prompt _ :: rest =>
      (Aborted "scm_dynwind_end: prompt", set_dynstack rest st)
  | W_unwinder f explicit :: rest =>
      if explicit
      then
        match run_unwinder f (set_dynstack rest st) with
        | (Normal _, st') => dynwind_end_loop rest st'
        | (Signal e d, st') => Fsignal e d st'
        | r => r
        end
      else dynwind_end_loop rest st
  end.

Definition dynwind_end : M unit := λ st, dynwind_end_loop (dynstack st) st.

Definition specbind (symbol value : Lisp_Object) : M unit :=
  with_signals (specbind_1 symbol value).


(** ** Prompts, [catch] and [condition-case] *)

Definition make_prompt_tag : M addr := fresh.

(** [make_catch_handler] and [make_condition_handler] return the new handler
    [c]; [c->next], the handler list at that moment, is returned with it. *)
Definition make_handler (type : handlertype) (tag : Lisp_Object)
    : M (handler * list handler) :=
  st ← get_state;
  p ← make_prompt_tag;
  ret (mk_handler type tag Qnil Qnil (lisp_eval_depth st)
         (interrupt_input_blocked st) p,
       handlerlist st).

Definition make_catch_handler (tag : Lisp_Object)
    : M (handler * list handler) :=
  make_handler CATCHER tag.

Definition make_condition_handler (tag : Lisp_Object)
    : M (handler * list handler) :=
  make_handler CONDITION_CASE tag.

(** [call_with_prompt (tag, thunk, handler)] of the Scheme runtime: the
    prompt is on the wind stack while the thunk runs; an abort to the
    prompt that comes out of the thunk calls the handler with the values of
    the abort. *)
Definition call_with_prompt (tag : addr) (thunk : M Lisp_Object)
    (handler : Lisp_Object → M Lisp_Object) : M Lisp_Object :=
  λ st,
    match thunk (set_dynstack (W_prompt tag :: dynstack st) st) with
    | (Normal v, st') => (Normal v, set_dynstack (tail (dynstack st')) st')
    | (Abort t args, st') =>
        if bool_decide (t = tag) then handler args st'
        else (Abort t args, st')
    | r => r
    end.

(** [icc_thunk]: [c] becomes the innermost handler while the body runs. *)
Definition icc_thunk (c : handler * list handler) (body : M Lisp_Object)
    : M Lisp_Object :=
  dynwind_begin;;
  scm_dynwind_unwind_handler (U_restore_handler (fst c)) false;;
  st ← get_state;
  scm_dynwind_unwind_handler (U_set_handlerlist (handlerlist st)) true;;
  modify (set_handlerlist (fst c :: snd c));;
  tem ← body;
  dynwind_end;;
  ret tem.

Definition icc_handler (f : Lisp_Object → M Lisp_Object) (v : Lisp_Object)
    : M Lisp_Object :=
  f v.

Definition internal_catch (tag : Lisp_Object)
    (func : Lisp_Object → M Lisp_Object) (arg : Lisp_Object)
    : M Lisp_Object :=
  c ← make_catch_handler tag;
  call_with_prompt (ptag (fst c)) (icc_thunk c (func arg)) (icc_handler ret).

Definition internal_condition_case_1 (bfun : Lisp_Object → M Lisp_Object)
    (arg handlers : Lisp_Object) (hfun : Lisp_Object → M Lisp_Object)
    : M Lisp_Object :=
  c ← make_condition_handler handlers;
  call_with_prompt (ptag (fst c)) (icc_thunk c (bfun arg)) (icc_handler hfun).

(** The argument-binding loop of [funcall_lambda], with every error still
    pending.  [args] is [arg_vector], of length [nargs]; the loop state is
    [i], [optional], [rest] and [lexenv]; it returns what is left of the
    formals, [i] and [lexenv]. *)
Fixpoint funcall_lambda_loop (fun_ : Lisp_Object) (args : list Lisp_Object)
    (syms_left : Lisp_Object) (i : nat) (optional rest : bool)
    (lexenv : Lisp_Object) : M (Lisp_Object * nat * Lisp_Object) :=
  match syms_left with
  | LCons _ next syms_left' =>
      if negb (SYMBOLP next) then xsignal1 Qinvalid_function fun_
      else if EQ next Qand_rest
      then funcall_lambda_loop fun_ args syms_left' i optional true lexenv
      else if EQ next Qand_optional
      then funcall_lambda_loop fun_ args syms_left' i true rest lexenv
      else
        ai ←
          (if rest
           then a ← Flist (drop i args); ret (a, length args)
           else
             match args !! i with
             | Some a => ret (a, S i)
             | None =>
                 if negb optional
                 then xsignal2 Qwrong_number_of_arguments fun_
                        (LInt (Z.of_nat (length args)))
                 else ret (Qnil, i)
             end);
        lexenv' ←
          (if negb (NILP lexenv) && SYMBOLP next
           then b ← Fcons next (fst ai); Fcons b lexenv
           else specbind_1 next (fst ai);; ret lexenv);
        funcall_lambda_loop fun_ args syms_left' (snd ai) optional rest
          lexenv'
  | _ => ret (syms_left, i, lexenv)
  end.

(** [funcall_lambda] from its start to the call of [Fprogn]: the function
    is taken apart, the formals are bound, the lexical environment is
    installed.  It returns the body. *)
Definition funcall_lambda_bind (fun_ : Lisp_Object)
    (args : list Lisp_Object) : M Lisp_Object :=
  dynwind_begin;;
  fl ←
    (if CONSP fun_
     then
       (if EQ (XCAR fun_) Qclosure
        then
          let fun' := XCDR fun_ in
          if CONSP fun' then ret (fun', XCAR fun')
          else wrong_type_argument Qlistp fun'
        else ret (fun_, Qnil))
     else emacs_abort "funcall_lambda: not a cons");
  let fun_ := fst fl in
  syms_left ←
    (if CONSP (XCDR fun_) then ret (XCAR (XCDR fun_))
     else xsignal1 Qinvalid_function fun_);
  r ← funcall_lambda_loop fun_ args syms_left 0 false false (snd fl);
  let '(syms_left, i, lexenv) := r in
  (if negb (NILP syms_left) then xsignal1 Qinvalid_function fun_
   else if bool_decide (i < length args)
   then xsignal2 Qwrong_number_of_arguments fun_
          (LInt (Z.of_nat (length args)))
   else ret tt);;
  st ← get_state;
  when (negb (EQ lexenv (objvar st a_Vinternal_interpreter_environment)))
    (specbind_1 Qinternal_interpreter_environment lexenv);;
  ret (XCDR (XCDR fun_)).

Section evaluator.
  (** The evaluator proper ([eval_sub] calls [eval-elisp] of the Scheme
      side) is not part of [eval.c]. *)
Context (eval_sub : Lisp_Object → M Lisp_Object).

Fixpoint Fprogn_loop (body val : Lisp_Object) : M Lisp_Object :=
    match body with
    | LCons _ form rest => v ← eval_sub form; Fprogn_loop rest v
    | _ => ret val
    end.

Definition Fprogn (body : Lisp_Object) : M Lisp_Object :=
    Fprogn_loop body Qnil.

Definition icc_lisp_handler (h : handler) (val : Lisp_Object)
      : M Lisp_Object :=
    let var := h_var h in
    dynwind_begin;;
    when (negb (NILP var)) (specbind var val);;
    tem ← Fprogn (h_body h);
    dynwind_end;;
    ret tem.

Fixpoint ilcc1 (var bodyform handlers : Lisp_Object) : M Lisp_Object :=
    match handlers with
    | LCons _ clause handlers' =>
        let condition := XCAR clause in
        let body := XCDR clause in
        condition ←
          (if negb (CONSP condition) then Fcons condition Qnil
           else ret condition);
        c ← make_condition_handler condition;
        let c := (mk_handler (h_type (fst c)) (tag_or_ch (fst c)) var body
                    (h_lisp_eval_depth (fst c))
                    (h_interrupt_input_blocked (fst c)) (ptag (fst c)),
                  snd c) in
        call_with_prompt (ptag (fst c))
          (icc_thunk c (ilcc1 var bodyform handlers'))
          (icc_lisp_handler (fst c))
    | _ => eval_sub bodyform
    end.

Definition internal_lisp_condition_case (var bodyform handlers : Lisp_Object)
      : M Lisp_Object :=
    with_signals (CHECK_SYMBOL var);;
    (if forallb
          (λ tem, NILP tem
                  || (CONSP tem
                      && (SYMBOLP (XCAR tem) || CONSP (XCAR tem))))
          (list_elements handlers)
     then ret tt
     else with_signals (error "Invalid condition handler: %s"));;
    rev ← Freverse handlers;
    ilcc1 var bodyform rev.

Definition funcall_lambda (fun_ : Lisp_Object) (args : list Lisp_Object)
      : M Lisp_Object :=
    body ← with_signals (funcall_lambda_bind fun_ args);
    val ← Fprogn body;
    dynwind_end;;
    ret val.

End evaluator.

(** ** A start state *)

(** A list object whose conses take the addresses from [a] on. *)
Fixpoint list_at (a : addr) (l : list Lisp_Object) : Lisp_Object :=
  match l with
  | [] => Qnil
  | x :: l' => LCons a x (list_at (S a) l')
  end.

(** An error symbol: its [error-conditions] are the given condition names. *)
Definition error_symbol_at (a : addr) (conditions : list sym_t)
    : Lisp_Symbol :=
  mk_symbol (SYMBOL_PLAINVAL Qunbound) false false false
    (LCons a Qerror_conditions
       (LCons (S a) (list_at (S (S a)) (LSym <$> conditions)) Qnil)).

Definition constant_symbol (s : sym_t) : Lisp_Symbol :=
  mk_symbol (SYMBOL_PLAINVAL (LSym s)) true true false Qnil.

(** The state after [init_eval_once] and [init_eval], with [nil] and [t],
    the standard error symbols, one live buffer and one frame. *)
Definition init_state : state :=
  mk_state
    (list_to_map
       [ (Snil, constant_symbol Snil);
         (St, constant_symbol St);
         (Serror, error_symbol_at 100 [Serror]);
         (Squit, error_symbol_at 110 [Squit]);
         (Sno_catch, error_symbol_at 120 [Sno_catch; Serror]);
         (Ssetting_constant, error_symbol_at 130 [Ssetting_constant; Serror]);
         (Scyclic_variable_indirection,
          error_symbol_at 140 [Scyclic_variable_indirection; Serror]);
         (Swrong_type_argument,
          error_symbol_at 150 [Swrong_type_argument; Serror]);
         (Swrong_number_of_arguments,
          error_symbol_at 160 [Swrong_number_of_arguments; Serror]);
         (Sinvalid_function, error_symbol_at 170 [Sinvalid_function; Serror]);
         (Svoid_variable, error_symbol_at 180 [Svoid_variable; Serror]);
         (Sarith_error, error_symbol_at 190 [Sarith_error; Serror]);
         (Sinternal_interpreter_environment,
          mk_symbol
            (SYMBOL_FORWARDED
               (Lisp_Fwd_Obj (Objvar a_Vinternal_interpreter_environment)))
            false true false Qnil) ])
    ∅ 1000
    {[ 0 := mk_buffer true [] ∅ ∅ ]} ∅ ∅ 0
    {[ 0 := empty_frame ]} 0
    ∅
    (list_to_map
       [ (a_max_specpdl_size, 10000%Z);
         (a_max_lisp_eval_depth, 10000%Z);
         (a_specpdl_size, 50%Z);
         (a_lisp_eval_depth, 0%Z);
         (a_when_entered_debugger, (-1)%Z) ])
    ∅ ∅
    [] handlerlist_sentinel [] [].

(** Symbols for examples; they are void in [init_state]. *)
Definition SA : sym_t := 50.
Definition SB : sym_t := 51.
Definition SC : sym_t := 52.
Definition Stag : sym_t := 53.

(** ** States and programs of the tests *)

(** [A] has the value 0. *)
Definition st_A0 : state := SET_SYMBOL_VAL SA (LInt 0) init_state.

(** [A] has been made frame-local. *)
Definition st_frame_local : state :=
  snd (Fmake_variable_frame_local (LSym SA) st_A0).

(** A per-buffer variable [B] at slot 8 with flag index 3, default 1; the
    buffer 0 follows the default, the buffer 1 has its own value 5. *)
Definition st_per_buffer : state :=
  set_buffer_local_flags {[ 8%Z := 3%Z ]}
    (set_buffer_defaults {[ 8%Z := LInt 1 ]}
       (set_buffers
          (<[ 1 := mk_buffer true [] {[ 3%Z := true ]} {[ 8%Z := LInt 5 ]} ]>
             (<[ 0 := mk_buffer true [] ∅ {[ 8%Z := LInt 1 ]} ]> ∅))
          (SET_SYMBOL_REDIRECT SB
             (SYMBOL_FORWARDED (Lisp_Fwd_Buffer_Obj 8 Qnil)) init_state))).


(** [n] nested bindings of [b], to the values [n], [n - 1], ..., 1. *)
Fixpoint bind_many (b : sym_t) (n : nat) : M unit :=
  match n with
  | 0 => ret tt
  | S n' => specbind (LSym b) (LInt (Z.of_nat n));; bind_many b n'
  end.

(** The depth test: [A] is bound to 1; inside, under a handler for
    [error], [B] is bound [n] times in one wind frame; then the frame of
    [A] is left. *)
Definition depth_test (n : nat) : M Lisp_Object :=
  dynwind_begin;;
  specbind (LSym SA) (LInt 1);;
  handlers ← list1 Qerror;
  r ← internal_condition_case_1
        (λ _, dynwind_begin;; bind_many SB n;; dynwind_end;; ret Qnil)
        Qnil handlers ret;
  dynwind_end;;
  ret r.

(** [A] and [B] are 0 and [max-specpdl-size] is 400. *)
Definition st_depth : state :=
  set_intvar a_max_specpdl_size 400
    (SET_SYMBOL_VAL SB (LInt 0) st_A0).

(** ** More states of the tests *)



(** A binding stack of 400 entries with 399 in use, at a ceiling of 400. *)
Definition st_full : state :=
  set_intvar a_specpdl_size 400
    (set_specpdl
       (replicate 399 (mk_specbinding SPECPDL_LET (LSym SB) Qnil Qnil))
       st_depth).



(** A throw to the tag [nil] inside a catch for [nil], under a handler for
    conditions. *)
Definition throw_nil_test (value handlers : Lisp_Object) : M Lisp_Object :=
  internal_condition_case_1
    (λ _, internal_catch Qnil (λ _, Fthrow Qnil value) Qnil)
    Qnil handlers ret.


(** [a] is bound in a wind frame; inside, under a condition handler, [b] is
    bound in a frame of its own; then the frame of [a] is left. *)
Definition overflow_test (a b : sym_t) (v1 w1 handlers : Lisp_Object)
    : M Lisp_Object :=
  dynwind_begin;;
  specbind (LSym a) v1;;
  r ← internal_condition_case_1
        (λ _, dynwind_begin;; specbind (LSym b) w1;; dynwind_end;; ret Qnil)
        Qnil handlers ret;
  dynwind_end;;
  ret r.

(** A binding stack of 400 entries with 398 in use, at a ceiling of 400. *)
Definition st_almost_full : state :=
  set_intvar a_specpdl_size 400
    (set_specpdl
       (replicate 398 (mk_specbinding SPECPDL_LET (LSym SB) Qnil Qnil))
       st_depth).

(** An evaluator for the tests: the form 0 signals [arith-error]; any other
    integer [n] is recorded in the trace and is its own value. *)
Definition eval_sub_test (form : Lisp_Object) : M Lisp_Object :=
  match form with
  | LInt 0 => Fsignal Qarith_error Qnil
  | LInt n =>
      λ s, (Normal (LInt n),
            set_trace (trace s ++ [Ev_cleanup (Z.to_nat n)]) s)
  | _ => ret Qnil
  end.

(** [SC] is an alias of [SB], which is an alias of [SA], whose value is 0. *)
Definition st_alias : state :=
  SET_SYMBOL_REDIRECT SC (SYMBOL_VARALIAS SB)
    (SET_SYMBOL_REDIRECT SB (SYMBOL_VARALIAS SA) st_A0).

(** [B] is forwarded to the C integer variable 20, whose value is 3. *)
Definition st_int_fwd : state :=
  set_intvar 20 3
    (SET_SYMBOL_REDIRECT SB (SYMBOL_FORWARDED (Lisp_Fwd_Int 20)) init_state).

(** [:k] is a keyword: a constant whose value is itself. *)
Definition Skey : sym_t := 60.
Definition st_keyword : state :=
  SET_SYMBOL Skey
    (mk_symbol (SYMBOL_PLAINVAL (LSym Skey)) true true true Qnil) init_state.

(** [st_per_buffer] with a type predicate on the slot of [B]. *)
Definition st_per_buffer_int : state :=
  SET_SYMBOL_REDIRECT SB
    (SYMBOL_FORWARDED (Lisp_Fwd_Buffer_Obj 8 Qintegerp)) st_per_buffer.

(** [st_per_buffer] with the buffer 1, where [B] is local, current. *)
Definition st_per_buffer_1 : state := set_current_buffer 1 st_per_buffer.

(** [A], with the value 0, has been made local in the buffer 0. *)
Definition st_local : state :=
  snd (Fmake_local_variable (LSym SA) st_A0).
Definition blv_local : Lisp_Buffer_Local_Value := SYMBOL_BLV st_local SA.

(** The same with the buffer 1 current, where [A] has no binding. *)
Definition st_local_1 : state := set_current_buffer 1 st_local.

(** The binding cons that holds the value of a buffer-local variable in the
    current buffer: the buffer's own binding if it has one, the default
    cell otherwise. *)
Definition blv_cell (st : state) (s : sym_t) : addr :=
  default (defcell (SYMBOL_BLV st s))
    (assq_no_quit st (LSym s)
       (local_var_alist (BUFFER st (current_buffer st)))).

(** The invariant of a buffer-local variable that forwards to no C
    variable.  [found] tells whether the loaded binding is a buffer's own;
    the default cell is in no buffer's alist; the loaded binding is the one
    of the buffer in [where], and it is the default cell when [where] is
    [nil]; binding conses are allocated. *)
Record blv_ok (st : state) (s : sym_t) (blv : Lisp_Buffer_Local_Value)
    : Prop := mk_blv_ok {
  ok_redirect : SYMBOL_REDIRECT st s = SYMBOL_LOCALIZED blv;
  ok_buffer_local : frame_local blv = false;
  ok_no_fwd : fwd blv = None;
  ok_found : found blv = negb (bool_decide (valcell blv = defcell blv));
  ok_defcell : ∀ b, defcell blv ∉ local_var_alist (BUFFER st b);
  ok_where :
    (blv_where blv = Qnil ∧ valcell blv = defcell blv)
    ∨ (∃ b, blv_where blv = LBuffer b
            ∧ valcell blv
              = default (defcell blv)
                  (assq_no_quit st (LSym s) (local_var_alist (BUFFER st b))));
  ok_allocated :
    defcell blv < next_addr st
    ∧ ∀ b c, c ∈ local_var_alist (BUFFER st b) → c < next_addr st }.

(** The record [swap_in_symval_forwarding] leaves when it loads the binding
    of the current buffer. *)
Definition blv_loaded (st : state) (s : sym_t)
    (blv : Lisp_Buffer_Local_Value) : Lisp_Buffer_Local_Value :=
  let tem1 := assq_no_quit st (LSym s)
                (local_var_alist (BUFFER st (current_buffer st))) in
  mk_blv (local_if_set blv) (frame_local blv) (bool_decide (is_Some tem1))
    (fwd blv) (LBuffer (current_buffer st)) (defcell blv)
    (default (defcell blv) tem1).

(** [x] is made of conses whose cars are [l], followed by [tail]. *)
Fixpoint lisp_prefix (l : list Lisp_Object) (tail x : Lisp_Object) : Prop :=
  match l with
  | [] => x = tail
  | a :: l' => ∃ k d, x = LCons k a d ∧ lisp_prefix l' tail d
  end.

(** The bindings of a lexical environment, innermost first. *)
Definition env_pairs (lexenv : Lisp_Object)
    : list (Lisp_Object * Lisp_Object) :=
  (λ c, (XCAR c, XCDR c)) <$> list_elements lexenv.

(** A parameter that is not one of the markers of a lambda list. *)
Definition plain_parameter (s : sym_t) : Prop :=
  s ≠ Sand_rest ∧ s ≠ Sand_optional.

(** The value an optional parameter gets: the argument, or [nil]. *)
Definition optional_arg (args : list Lisp_Object) (i : nat) : Lisp_Object :=
  default Qnil (args !! i).

(** A lambda list: the required parameters, the optional ones after
    [&optional], the parameter for the other arguments after [&rest]. *)
Definition lambda_list (req opt : list sym_t) (rest : option sym_t)
    : list Lisp_Object :=
  (LSym <$> req)
  ++ match opt with [] => [] | _ => Qand_optional :: (LSym <$> opt) end
  ++ match rest with Some r => [Qand_rest; LSym r] | None => [] end.

(** The closure [(closure (t) (a &optional b &rest c))]. *)
Definition closure_env_test : Lisp_Object := list_at 300 [Qt].
Definition closure_formals_test : Lisp_Object :=
  list_at 310 [LSym SA; Qand_optional; LSym SB; Qand_rest; LSym SC].
Definition closure_test : Lisp_Object :=
  LCons 320 Qclosure
    (LCons 321 closure_env_test (LCons 322 closure_formals_test Qnil)).

(** The record of a buffer-local variable once the binding of the buffer
    [b] is loaded. *)
Definition blv_at (st : state) (s : sym_t) (b : buffer_t)
    (blv : Lisp_Buffer_Local_Value) : Lisp_Buffer_Local_Value :=
  let tem1 := assq_no_quit st (LSym s) (local_var_alist (BUFFER st b)) in
  mk_blv (local_if_set blv) false (bool_decide (is_Some tem1)) None
    (LBuffer b) (defcell blv) (default (defcell blv) tem1).

(** A let-binding of a variable around a read of it. *)
Definition let_value_test (symbol value : Lisp_Object) : M Lisp_Object :=
  dynwind_begin;;
  specbind symbol value;;
  r ← find_symbol_value symbol;
  dynwind_end;;
  ret r.

(** [A], local in the buffer 0, let-bound there to 7. *)
Definition st_let_local : state := snd (specbind (LSym SA) (LInt 7) st_local).

(** A variable is made local to the current buffer inside a let-binding
    of it. *)
Definition let_make_local_test (symbol value : Lisp_Object) : M unit :=
  dynwind_begin;;
  specbind symbol value;;
  Fmake_local_variable symbol;;
  dynwind_end.

(** The state in which the body of [internal_catch] or of
    [internal_condition_case_1] starts: the new handler is the innermost
    one; above the prompt, a wind frame holds the two unwind handlers of
    [icc_thunk]. *)
Definition icc_entry_state (type : handlertype) (tag : Lisp_Object)
    (st : state) : state :=
  let c := mk_handler type tag Qnil Qnil (lisp_eval_depth st)
             (interrupt_input_blocked st) (next_addr st) in
  set_handlerlist (c :: handlerlist st)
    (set_dynstack
       (W_unwinder (U_set_handlerlist (handlerlist st)) true
        :: W_unwinder (U_restore_handler c) false
        :: W_frame :: W_prompt (next_addr st) :: dynstack st)
       (set_next_addr (S (next_addr st)) st)).

(** [st_per_buffer] with the per-buffer variable [B] marked constant, as
    [buffer.c] marks [enable-multibyte-characters]. *)
Definition st_per_buffer_constant : state :=
  SET_SYMBOL SB
    (mk_symbol (SYMBOL_FORWARDED (Lisp_Fwd_Buffer_Obj 8 Qnil)) true false
       false Qnil)
    st_per_buffer.
(** * Stepping through monadic code *)

Lemma bind_unfold {A B} (m : M A) (k : A → M B) (st : state) :
  (m ≫= k) st = bind m k st.
Proof. reflexivity. Qed.

Lemma bind_Normal {A B} (m : M A) (k : A → M B) (st st' : state) (a : A) :
  m st = (Normal a, st') → (m ≫= k) st = k a st'.
Proof. intros H. rewrite bind_unfold. unfold bind. by rewrite H. Qed.

Lemma bind_Signal {A B} (m : M A) (k : A → M B) (st st' : state) e d :
  m st = (Signal e d, st') → (m ≫= k) st = (Signal e d, st').
Proof. intros H. rewrite bind_unfold. unfold bind. by rewrite H. Qed.

Lemma bind_Abort {A B} (m : M A) (k : A → M B) (st st' : state) t v :
  m st = (Abort t v, st') → (m ≫= k) st = (Abort t v, st').
Proof. intros H. rewrite bind_unfold. unfold bind. by rewrite H. Qed.

Lemma bind_ret {A B} (a : A) (k : A → M B) (st : state) :
  (ret a ≫= k) st = k a st.
Proof. reflexivity. Qed.

Lemma bind_get_state {B} (k : state → M B) (st : state) :
  (get_state ≫= k) st = k st st.
Proof. reflexivity. Qed.

Lemma bind_modify {B} (f : state → state) (k : unit → M B) (st : state) :
  (modify f ≫= k) st = k tt (f st).
Proof. reflexivity. Qed.

Lemma bind_assoc {A B C} (m : M A) (k : A → M B) (k' : B → M C) st :
  ((m ≫= k) ≫= k') st = (m ≫= λ a, k a ≫= k') st.
Proof.
  rewrite !bind_unfold. unfold bind. rewrite !bind_unfold. unfold bind.
  destruct (m st) as [[] ?]; done.
Qed.

(** One step of a computation whose head is a known primitive. *)
Ltac mstep :=
  first
    [ rewrite bind_get_state
    | rewrite bind_modify
    | rewrite bind_ret
    | rewrite bind_assoc ].

Ltac msteps := repeat mstep; cbv beta.

(** ** Naming states

    A state that a step has built is named and only the values of its
    fields are kept: later steps then reason from field equations, and no
    proof compares two nested state expressions. *)

Ltac state_cbn t :=
  eval cbn [symbols cells next_addr buffers buffer_defaults
            buffer_local_flags current_buffer frames selected_frame kboards
            intvars boolvars objvars specpdl handlerlist dynstack trace
            set_symbols set_cells set_next_addr set_buffers
            set_buffer_defaults set_buffer_local_flags set_current_buffer
            set_frames set_selected_frame set_kboards set_intvars
            set_boolvars set_objvars set_specpdl set_handlerlist
            set_dynstack set_trace
            SET_SYMBOL SET_SYMBOL_REDIRECT SET_SYMBOL_VAL SET_BUFFER
            SYMBOL BUFFER set_intvar XSETCDR_cell set_per_buffer_default
            bset_local_var_alist] in t.

Ltac state_cbn_in H :=
  unfold SYMBOL_REDIRECT, SYMBOL, BUFFER in H;
  cbn [symbols cells next_addr buffers buffer_defaults
       buffer_local_flags current_buffer frames selected_frame kboards
       intvars boolvars objvars specpdl handlerlist dynstack trace
       set_symbols set_cells set_next_addr set_buffers
       set_buffer_defaults set_buffer_local_flags set_current_buffer
       set_frames set_selected_frame set_kboards set_intvars
       set_boolvars set_objvars set_specpdl set_handlerlist
       set_dynstack set_trace
       SET_SYMBOL SET_SYMBOL_REDIRECT SET_SYMBOL_VAL SET_BUFFER
       SYMBOL BUFFER set_intvar XSETCDR_cell set_per_buffer_default
       bset_local_var_alist] in H.

Ltac fields_in H :=
  repeat match type of H with
         | context [?p ?s] =>
             match goal with
             | E : p s = _ |- _ =>
                 tryif constr_eq E H then fail else rewrite E in H
             end
         end.

Ltac note_field s b proj H :=
  let v := state_cbn (proj b) in
  assert (proj s = v) as H by reflexivity;
  state_cbn_in H;
  fields_in H;
  repeat first [ rewrite lookup_insert_eq in H
               | rewrite lookup_insert_ne in H by congruence ];
  cbn [default from_option id] in H.

(** The named state becomes a variable of the proof term itself: the field
    equations are all that is known of it from here on. *)
Ltac abstract_state s :=
  repeat match goal with
         | H : context [s] |- _ => revert H
         end;
  let s' := fresh in
  generalize s; intro s'; clear s; rename s' into s; intros.

Tactic Notation "name_state" constr(b) "as" ident(s) :=
  set (s := b) in *;
  let H := fresh "Esym_" s in note_field s b symbols H;
  let H := fresh "Ecells_" s in note_field s b cells H;
  let H := fresh "Enext_" s in note_field s b next_addr H;
  let H := fresh "Ebufs_" s in note_field s b buffers H;
  let H := fresh "Ebdef_" s in note_field s b buffer_defaults H;
  let H := fresh "Ebflags_" s in note_field s b buffer_local_flags H;
  let H := fresh "Ecur_" s in note_field s b current_buffer H;
  let H := fresh "Eframes_" s in note_field s b frames H;
  let H := fresh "Eself_" s in note_field s b selected_frame H;
  let H := fresh "Ekb_" s in note_field s b kboards H;
  let H := fresh "Eint_" s in note_field s b intvars H;
  let H := fresh "Ebool_" s in note_field s b boolvars H;
  let H := fresh "Eobj_" s in note_field s b objvars H;
  let H := fresh "Epdl_" s in note_field s b specpdl H;
  let H := fresh "Ehl_" s in note_field s b handlerlist H;
  let H := fresh "Edyn_" s in note_field s b dynstack H;
  let H := fresh "Etr_" s in note_field s b trace H;
  abstract_state s.

(** The state the computation in the goal runs on. *)
Tactic Notation "name_run" ident(s) :=
  lazymatch goal with
  | |- context [(_ ≫= _) ?b] => name_state b as s
  | |- context [@eq (outcome _ * state) (_ ?b) _] => name_state b as s
  end.

Ltac fields :=
  repeat match goal with
         | E : ?p ?s = _ |- context [?p ?s] => rewrite E
         end.

Lemma SYMBOL_fields st st' s :
  symbols st' = symbols st → SYMBOL st' s = SYMBOL st s.
Proof. unfold SYMBOL. by intros ->. Qed.

Lemma SYMBOL_insert st' (m : gmap sym_t Lisp_Symbol) s x :
  symbols st' = <[s := x]> m → SYMBOL st' s = x.
Proof. unfold SYMBOL. intros ->. by rewrite lookup_insert_eq. Qed.

Lemma SYMBOL_insert_ne st' st s s' x :
  symbols st' = <[s := x]> (symbols st) → s ≠ s' →
  SYMBOL st' s' = SYMBOL st s'.
Proof. unfold SYMBOL. intros -> ?. by rewrite lookup_insert_ne. Qed.

Lemma intvar_fields st st' a :
  intvars st' = intvars st → intvar st' a = intvar st a.
Proof. unfold intvar. by intros ->. Qed.

Ltac state_cbn_goal :=
  unfold SYMBOL_REDIRECT, SYMBOL, BUFFER;
  cbn [symbols cells next_addr buffers buffer_defaults
       buffer_local_flags current_buffer frames selected_frame kboards
       intvars boolvars objvars specpdl handlerlist dynstack trace
       set_symbols set_cells set_next_addr set_buffers
       set_buffer_defaults set_buffer_local_flags set_current_buffer
       set_frames set_selected_frame set_kboards set_intvars
       set_boolvars set_objvars set_specpdl set_handlerlist
       set_dynstack set_trace
       SET_SYMBOL SET_SYMBOL_REDIRECT SET_SYMBOL_VAL SET_BUFFER
       set_intvar XSETCDR_cell set_per_buffer_default
       bset_local_var_alist].

Ltac sym_fields :=
  unfold SYMBOL_REDIRECT, SYMBOL in *;
  state_cbn_goal;
  fields;
  repeat first [ rewrite lookup_insert_eq
               | rewrite lookup_insert_ne by congruence ];
  cbn [default from_option id set_redirect redirect constant
       declared_special keyword plist].

Ltac room :=
  unfold SPECPDL_INDEX, specpdl_size in *;
  repeat erewrite intvar_fields by eassumption;
  fields; cbn [length]; lia.

(** * Alias chains end or are found cyclic *)

Section alias_chains.
Context (st : state).

Lemma alias_chain_add n m s :
    alias_chain st (n + m) s = alias_chain st n s ≫= alias_chain st m.
  Proof.
    revert s; induction n as [|n IH]; intros s; simpl; [done|].
    destruct (SYMBOL_ALIAS st s); simpl; [apply IH|done].
  Qed.

Lemma alias_chain_S n s :
    alias_chain st (S n) s = alias_chain st n s ≫= SYMBOL_ALIAS st.
  Proof.
    replace (S n) with (n + 1) by lia. rewrite alias_chain_add.
    destruct (alias_chain st n s) as [t|]; simpl; [|done].
    by destruct (SYMBOL_ALIAS st t).
  Qed.

Lemma alias_chain_prefix n m s :
    m ≤ n → is_Some (alias_chain st n s) → is_Some (alias_chain st m s).
  Proof.
    intros Hle [t Ht]. replace n with (m + (n - m)) in Ht by lia.
    rewrite alias_chain_add in Ht.
    destruct (alias_chain st m s); [eauto|done].
  Qed.

  (** Two equal points of a chain stay equal when both move on. *)
Lemma alias_chain_shift a b n s :
    alias_chain st a s = alias_chain st b s →
    alias_chain st (a + n) s = alias_chain st (b + n) s.
  Proof. intros H. by rewrite !alias_chain_add, H. Qed.

Lemma alias_chain_period i p t s :
    alias_chain st i s = alias_chain st (i + p) s →
    ∀ m, i ≤ m → alias_chain st (m + t * p) s = alias_chain st m s.
  Proof.
    intros Hp. induction t as [|t IH]; intros m Hm.
    - by replace (m + 0 * p) with m by lia.
    - replace (m + S t * p) with (i + p + ((m - i) + t * p))
        by (simpl; lia).
      rewrite <- (alias_chain_shift _ _ _ _ Hp).
      replace (i + (m - i + t * p)) with (m + t * p) by lia. by apply IH.
  Qed.

  (** A chain that repeats itself is defined at every length. *)
Lemma alias_chain_cyclic a b s :
    a < b → is_Some (alias_chain st b s) →
    alias_chain st a s = alias_chain st b s →
    ∀ n, is_Some (alias_chain st n s).
  Proof.
    intros Hab Hb Heq n. induction (lt_wf n) as [n _ IH].
    destruct (decide (n ≤ b)) as [Hle|Hgt].
    - by apply (alias_chain_prefix b).
    - replace n with (b + (n - b)) by lia.
      rewrite <- (alias_chain_shift _ _ _ _ Heq). apply IH. lia.
  Qed.

  (** An alias is an entry of the symbol table. *)
Lemma SYMBOL_ALIAS_in_table s a :
    SYMBOL_ALIAS st s = Some a → s ∈ (map_to_list (symbols st)).*1.
  Proof.
    unfold SYMBOL_ALIAS, SYMBOL_REDIRECT, SYMBOL. intros H.
    destruct (symbols st !! s) as [r|] eqn:Hs; simpl in H; [|done].
    apply list_elem_of_fmap. exists (s, r). split; [done|].
    by apply elem_of_map_to_list.
  Qed.

  (** The pigeonhole step: a chain longer than the table meets itself, and
      then the hare meets the tortoise within the first [size] rounds. *)
Lemma alias_chain_meets s :
    is_Some (alias_chain st (S (size (symbols st))) s) →
    ∃ m, 1 ≤ m ≤ size (symbols st)
         ∧ alias_chain st (2 * m) s = alias_chain st m s.
  Proof.
    set (N := size (symbols st)). intros Hdef.
    assert (∀ j, j ≤ N → ∃ x, alias_chain st j s = Some x
                               ∧ is_Some (SYMBOL_ALIAS st x)) as Hpt.
    { intros j Hj.
      destruct (alias_chain_prefix (S N) (S j) s ltac:(lia) Hdef) as [y Hy].
      rewrite alias_chain_S in Hy.
      destruct (alias_chain st j s) as [x|]; [|done]. eauto. }
    set (g := λ j, default s (alias_chain st j s)).
    set (l := g <$> seq 0 (S N)).
    assert (∀ j, j ≤ N → l !! j = Some (g j)) as Hl.
    { intros j Hj. unfold l. rewrite list_lookup_fmap.
      rewrite lookup_seq_lt by lia. done. }
    destruct (list_pigeonhole l (map_to_list (symbols st)).*1)
      as (i1 & i2 & x & Hlt & H1 & H2).
    - intros y [j Hj]%list_elem_of_lookup_1.
      assert (j ≤ N) as HjN.
      { apply lookup_lt_Some in Hj. unfold l in Hj.
        rewrite length_fmap, length_seq in Hj. lia. }
      rewrite Hl in Hj by done. injection Hj as <-.
      destruct (Hpt j HjN) as (x & Hx & [a Ha]).
      unfold g. rewrite Hx. simpl. by eapply SYMBOL_ALIAS_in_table.
    - unfold l. rewrite !length_fmap, length_seq, length_map_to_list.
      fold N. lia.
    - assert (i2 ≤ N) as Hi2.
      { apply lookup_lt_Some in H2. unfold l in H2.
        rewrite length_fmap, length_seq in H2. lia. }
      rewrite Hl in H1, H2 by lia.
      assert (alias_chain st i1 s = alias_chain st i2 s) as Heq.
      { destruct (Hpt i1 ltac:(lia)) as (x1 & Hx1 & _).
        destruct (Hpt i2 ltac:(lia)) as (x2 & Hx2 & _).
        unfold g in H1, H2. rewrite Hx1 in H1. rewrite Hx2 in H2.
        simpl in *. congruence. }
      set (p := i2 - i1).
      exists (p * S (i1 / p)). 
      assert (0 < p) as Hp by (unfold p; lia).
      pose proof (Nat.Div0.mul_div_le i1 p) as Hd1.
      pose proof (Nat.mul_succ_div_gt i1 p ltac:(lia)) as Hd2.
      split; [unfold p in *; nia|].
      replace (2 * (p * S (i1 / p)))
        with (p * S (i1 / p) + S (i1 / p) * p) by lia.
      apply (alias_chain_period i1); [|lia].
      rewrite Heq. f_equal. unfold p. lia.
  Qed.

  (** The loop after [k] rounds: the tortoise is [k] links down the chain,
      the hare [2 * k], and they have not met. *)
Lemma indirect_variable_loop_result symbol fuel :
    ∀ k hare tortoise,
      alias_chain st k symbol = Some tortoise →
      alias_chain st (2 * k) symbol = Some hare →
      (∀ j, 1 ≤ j ≤ k →
            alias_chain st (2 * j) symbol ≠ alias_chain st j symbol) →
      S (size (symbols st)) ≤ k + fuel →
      chain_result st symbol
        (indirect_variable_loop fuel symbol hare tortoise st).
  Proof.
    induction fuel as [|fuel IH]; intros k hare tortoise Ht Hh Hne Hfuel.
    - exfalso.
      destruct (alias_chain_meets symbol) as (m & Hm & Heq).
      + apply (alias_chain_prefix (2 * k)); [lia|by rewrite Hh].
      + apply (Hne m); [lia|done].
    - simpl.
      destruct (SYMBOL_ALIAS st hare) as [hare1|] eqn:H1.
      2:{ left. exists hare, (2 * k). done. }
      assert (alias_chain st (S (2 * k)) symbol = Some hare1) as Hh1.
      { rewrite alias_chain_S, Hh. done. }
      destruct (SYMBOL_ALIAS st hare1) as [hare2|] eqn:H2.
      2:{ left. exists hare1, (S (2 * k)). done. }
      assert (alias_chain st (2 * S k) symbol = Some hare2) as Hh2.
      { replace (2 * S k) with (S (S (2 * k))) by lia.
        rewrite alias_chain_S, Hh1. done. }
      destruct (SYMBOL_ALIAS st tortoise) as [tortoise1|] eqn:H3.
      2:{ exfalso.
          destruct (alias_chain_prefix (2 * S k) (S k) symbol) as [x Hx];
            [lia|by rewrite Hh2|].
          rewrite alias_chain_S, Ht in Hx. simpl in Hx. congruence. }
      assert (alias_chain st (S k) symbol = Some tortoise1) as Ht1.
      { rewrite alias_chain_S, Ht. done. }
      case_bool_decide as Hmeet.
      + right. eexists _, _. split; [reflexivity|]. split; [done|].
        apply (alias_chain_cyclic (S k) (2 * S k)); [lia|by rewrite Hh2|].
        congruence.
      + apply (IH (S k)); [done|done| |lia].
        intros j Hj. destruct (decide (j = S k)) as [->|].
        * congruence.
        * apply Hne. lia.
  Qed.

End alias_chains.

(** C5.  For every symbol, following the alias links with
    [indirect_variable] either ends at a symbol that is not an alias, reached
    after finitely many links, or raises [cyclic-variable-indirection] with
    the original symbol as its datum, and then the chain indeed has no end:
    the tortoise-and-hare loop never runs on forever. *)
Theorem indirect_variable_terminates (st : state) (symbol : sym_t) :
  (∃ target n,
      indirect_variable symbol st = (Normal target, st)
      ∧ alias_chain st n symbol = Some target
      ∧ SYMBOL_ALIAS st target = None)
  ∨ (∃ d st',
        indirect_variable symbol st
        = (Signal Qcyclic_variable_indirection d, st')
        ∧ list_elements d = [LSym symbol]
        ∧ ∀ n, is_Some (alias_chain st n symbol)).
Proof.
  apply (indirect_variable_loop_result st symbol _ 0); simpl;
    first [done | intros; lia].
Qed.

(** * Frame-local variables cannot be let-bound *)

(** C10.  [specbind] on a symbol whose buffer-local value record is
    frame-local (reached directly or through aliases) raises the error
    "Frame-local vars cannot be let-bound" in a state that differs from the
    state before only by the two heap objects of the error datum: no entry
    has been pushed on the binding stack, no unwind handler registered, no
    value changed; [specbind] then is [Fsignal] on that state. *)
Theorem specbind_frame_local (st : state) (s0 sym : sym_t)
    (value : Lisp_Object) (blv : Lisp_Buffer_Local_Value) :
  chase_alias s0 st = (Normal sym, st) →
  SYMBOL_REDIRECT st sym = SYMBOL_LOCALIZED blv →
  frame_local blv = true →
  let n := next_addr st in
  let d := LCons (S n) (LStr n "Frame-local vars cannot be let-bound") Qnil in
  let st' := set_next_addr (S (S n)) st in
  specbind_1 (LSym s0) value st = (Signal Qerror d, st')
  ∧ specbind (LSym s0) value st = Fsignal Qerror d st'
  ∧ specpdl st' = specpdl st
  ∧ dynstack st' = dynstack st
  ∧ symbols st' = symbols st
  ∧ cells st' = cells st
  ∧ buffers st' = buffers st.
Proof.
  intros Hchase Hloc Hfl n d st'.
  assert (specbind_1 (LSym s0) value st = (Signal Qerror d, st')) as H1.
  { unfold specbind_1. simpl CHECK_SYMBOL. msteps.
    rewrite (bind_Normal _ _ _ _ _ Hchase). msteps.
    rewrite Hloc. msteps. rewrite Hfl.
    erewrite bind_Signal; [|reflexivity]. reflexivity. }
  split; [exact H1|]. split; [|done].
  unfold specbind, with_signals. by rewrite H1.
Qed.

Lemma specbind_frame_local_witness :
  chase_alias SA st_frame_local = (Normal SA, st_frame_local)
  ∧ SYMBOL_REDIRECT st_frame_local SA
    = SYMBOL_LOCALIZED (mk_blv false true false None Qnil 1000 1000)
  ∧ specbind_1 (LSym SA) (LInt 1) st_frame_local
    = (Signal Qerror
         (LCons 1002 (LStr 1001 "Frame-local vars cannot be let-bound") Qnil),
       set_next_addr 1003 st_frame_local)
  ∧ specpdl (set_next_addr 1003 st_frame_local) = specpdl st_frame_local.
Proof.
  split; [vm_compute; reflexivity|]. split; [vm_compute; reflexivity|].
  pose proof (specbind_frame_local st_frame_local SA SA (LInt 1)
                (mk_blv false true false None Qnil 1000 1000)) as H.
  destruct H as (H1 & _ & H3 & _);
    [vm_compute; reflexivity | vm_compute; reflexivity | reflexivity |].
  split; [exact H1 | exact H3].
Defined.

(** * Setting the default of a per-buffer variable *)

(** C7, as amended.  [Fset_default] on a variable that is not constant
    and is forwarded to a per-buffer slot (with flag index that is -1 or
    positive, as every variable made by [DEFVAR_PER_BUFFER] has) stores
    the new default and returns it; a
    buffer for which [Flocal_variable_p] answers [nil] has the new value in
    its slot afterwards, a buffer for which it answers [t] is left as it
    was. *)
Theorem Fset_default_per_buffer (st : state) (sym : sym_t) (offset : Z)
    (predicate value : Lisp_Object) :
  SYMBOL_REDIRECT st sym
  = SYMBOL_FORWARDED (Lisp_Fwd_Buffer_Obj offset predicate) →
  constant (SYMBOL st sym) = false →
  (PER_BUFFER_IDX st offset = -1 ∨ 0 < PER_BUFFER_IDX st offset)%Z →
  ∃ st',
    Fset_default (LSym sym) value st = (Normal value, st')
    ∧ per_buffer_default st' offset = value
    ∧ ∀ (b : buffer_t) (buf : buffer),
        buffers st !! b = Some buf →
        (Flocal_variable_p (LSym sym) (LBuffer b) st = (Normal Qnil, st)
         ∧ per_buffer_value (BUFFER st' b) offset = value)
        ∨ (Flocal_variable_p (LSym sym) (LBuffer b) st = (Normal Qt, st)
           ∧ BUFFER st' b = buf).
Proof.
  intros Hfwd Hconst Hidx.
  assert (chase_alias sym st = (Normal sym, st)) as Hchase.
  { unfold chase_alias. by rewrite Hfwd. }
  assert (∀ b, Flocal_variable_p (LSym sym) (LBuffer b) st
               = (Normal (if bool_decide (PER_BUFFER_IDX st offset = -1)%Z
                             || PER_BUFFER_VALUE_P (BUFFER st b)
                                  (PER_BUFFER_IDX st offset)
                          then Qt else Qnil), st)) as Hlocal.
  { intros b. unfold Flocal_variable_p. msteps. simpl.
    msteps. rewrite (bind_Normal _ _ _ _ _ Hchase). msteps.
    by rewrite Hfwd. }
  unfold Fset_default. simpl CHECK_SYMBOL. msteps.
  unfold SYMBOL_CONSTANT_P. rewrite Hconst.
  rewrite (bind_Normal _ _ _ _ _ Hchase). msteps. rewrite Hfwd. msteps.
  set (idx := PER_BUFFER_IDX st offset) in *.
  destruct (bool_decide (0 < idx)%Z) eqn:Hpos.
  - apply bool_decide_eq_true in Hpos.
    eexists. split; [reflexivity|]. simpl. split.
    { unfold per_buffer_default. simpl. by rewrite lookup_insert_eq. }
    intros b buf Hb. rewrite Hlocal.
    rewrite bool_decide_eq_false_2 by lia. simpl.
    unfold BUFFER. simpl. rewrite lookup_fmap, Hb. simpl.
    destruct (PER_BUFFER_VALUE_P buf idx); simpl; [by right|left].
    split; [done|]. unfold per_buffer_value. simpl.
    by rewrite lookup_insert_eq.
  - apply bool_decide_eq_false in Hpos.
    eexists. split; [reflexivity|]. simpl. split.
    { unfold per_buffer_default. simpl. by rewrite lookup_insert_eq. }
    intros b buf Hb. rewrite Hlocal. right.
    assert (idx = -1)%Z as -> by lia.
    split; [done|]. unfold BUFFER. simpl. by rewrite Hb.
Qed.


Lemma Fset_default_per_buffer_witness :
  SYMBOL_REDIRECT st_per_buffer SB
  = SYMBOL_FORWARDED (Lisp_Fwd_Buffer_Obj 8 Qnil)
  ∧ (PER_BUFFER_IDX st_per_buffer 8 = -1 ∨ 0 < PER_BUFFER_IDX st_per_buffer 8)%Z
  ∧ ∃ st',
      Fset_default (LSym SB) (LInt 10) st_per_buffer = (Normal (LInt 10), st')
      ∧ per_buffer_default st' 8 = LInt 10
      ∧ per_buffer_value (BUFFER st' 0) 8 = LInt 10
      ∧ per_buffer_value (BUFFER st' 1) 8 = LInt 5.
Proof.
  split; [vm_compute; reflexivity|].
  split; [right; vm_compute; reflexivity|].
  destruct (Fset_default_per_buffer st_per_buffer SB 8 Qnil (LInt 10))
    as (st' & Hrun & Hdef & Hbufs);
    [vm_compute; reflexivity | vm_compute; reflexivity
     | right; vm_compute; reflexivity |].
  exists st'. split; [exact Hrun|]. split; [exact Hdef|].
  assert (st' = snd (Fset_default (LSym SB) (LInt 10) st_per_buffer)) as ->
    by (by rewrite Hrun).
  split; vm_compute; reflexivity.
Defined.

(** C7 as the claim states it, for every per-buffer variable, fails: on a
    per-buffer variable that is constant [Fset_default] signals
    [setting-constant] before it looks at the forward; the default keeps
    its value 1, and the buffer 0, which is live and has no value of its
    own, keeps 1 in its slot, where the claim has 10 in both. *)
Lemma Fset_default_per_buffer_constant_counterexample :
  SYMBOL_REDIRECT st_per_buffer_constant SB
  = SYMBOL_FORWARDED (Lisp_Fwd_Buffer_Obj 8 Qnil)
  ∧ live (BUFFER st_per_buffer_constant 0) = true
  ∧ Flocal_variable_p (LSym SB) (LBuffer 0) st_per_buffer_constant
    = (Normal Qnil, st_per_buffer_constant)
  ∧ ∃ st',
      Fset_default (LSym SB) (LInt 10) st_per_buffer_constant
      = (Signal Qsetting_constant (LCons 1000 (LSym SB) Qnil), st')
      ∧ per_buffer_default st' 8 = LInt 1
      ∧ per_buffer_value (BUFFER st' 0) 8 = LInt 1
      ∧ per_buffer_default st' 8 ≠ LInt 10
      ∧ per_buffer_value (BUFFER st' 0) 8 ≠ LInt 10.
Proof.
  split; [vm_compute; reflexivity|]. split; [vm_compute; reflexivity|].
  split; [vm_compute; reflexivity|].
  exists (set_next_addr 1001 st_per_buffer_constant).
  split; [vm_compute; reflexivity|]. split; [vm_compute; reflexivity|].
  split; [vm_compute; reflexivity|]. split; vm_compute; discriminate.
Qed.
(** * Binding and unbinding plain variables *)

Lemma SYMBOL_SET_SYMBOL_eq st s x : SYMBOL (SET_SYMBOL s x st) s = x.
Proof. unfold SYMBOL, SET_SYMBOL. simpl. by rewrite lookup_insert_eq. Qed.

Lemma SYMBOL_SET_SYMBOL_ne st s s' x :
  s ≠ s' → SYMBOL (SET_SYMBOL s x st) s' = SYMBOL st s'.
Proof.
  intros. unfold SYMBOL, SET_SYMBOL. simpl. by rewrite lookup_insert_ne.
Qed.

Lemma SYMBOL_REDIRECT_SET_SYMBOL_VAL_eq st s v :
  SYMBOL_REDIRECT (SET_SYMBOL_VAL s v st) s = SYMBOL_PLAINVAL v.
Proof.
  unfold SYMBOL_REDIRECT, SET_SYMBOL_VAL, SET_SYMBOL_REDIRECT.
  by rewrite SYMBOL_SET_SYMBOL_eq.
Qed.

Lemma constant_SET_SYMBOL_VAL st s s' v :
  constant (SYMBOL (SET_SYMBOL_VAL s v st) s') = constant (SYMBOL st s').
Proof.
  unfold SET_SYMBOL_VAL, SET_SYMBOL_REDIRECT.
  destruct (decide (s = s')) as [->|Hne].
  - by rewrite SYMBOL_SET_SYMBOL_eq.
  - by rewrite SYMBOL_SET_SYMBOL_ne.
Qed.

Lemma chase_alias_plain st s v :
  SYMBOL_REDIRECT st s = SYMBOL_PLAINVAL v →
  chase_alias s st = (Normal s, st).
Proof. intros H. unfold chase_alias. by rewrite H. Qed.

(** [grow_specpdl] when the entry fits and the vector need not grow. *)
Lemma grow_specpdl_room st entry :
  (SPECPDL_INDEX st + 1 < specpdl_size st)%Z →
  grow_specpdl entry st = (Normal tt, set_specpdl (entry :: specpdl st) st).
Proof.
  intros Hroom. unfold grow_specpdl. msteps.
  rewrite bool_decide_eq_false_2 by lia. msteps.
  rewrite bool_decide_eq_false_2; [done|].
  unfold SPECPDL_INDEX, specpdl_size in *. simpl. 
  change (intvar (set_specpdl (entry :: specpdl st) st) a_specpdl_size)
    with (intvar st a_specpdl_size). lia.
Qed.

(** [specbind] of a plain variable that is not constant. *)
Lemma specbind_1_plain st s v value :
  SYMBOL_REDIRECT st s = SYMBOL_PLAINVAL v →
  constant (SYMBOL st s) = false →
  (SPECPDL_INDEX st + 1 < specpdl_size st)%Z →
  specbind_1 (LSym s) value st
  = (Normal tt,
     set_dynstack (W_unwinder U_unbind_once true :: dynstack st)
       (SET_SYMBOL_VAL s value
          (set_specpdl
             (mk_specbinding SPECPDL_LET (LSym s) v Qnil :: specpdl st) st))).
Proof.
  intros Hplain Hconst Hroom. unfold specbind_1. simpl CHECK_SYMBOL. msteps.
  rewrite (bind_Normal _ _ _ _ _ (chase_alias_plain _ _ _ Hplain)). msteps.
  rewrite Hplain. msteps.
  rewrite (bind_Normal _ _ _ _ _ (grow_specpdl_room _ _ Hroom)).
  rewrite Hconst. simpl negb. cbv iota. msteps. reflexivity.
Qed.

Lemma specbind_plain st s v value :
  SYMBOL_REDIRECT st s = SYMBOL_PLAINVAL v →
  constant (SYMBOL st s) = false →
  (SPECPDL_INDEX st + 1 < specpdl_size st)%Z →
  specbind (LSym s) value st
  = (Normal tt,
     set_dynstack (W_unwinder U_unbind_once true :: dynstack st)
       (SET_SYMBOL_VAL s value
          (set_specpdl
             (mk_specbinding SPECPDL_LET (LSym s) v Qnil :: specpdl st) st))).
Proof.
  intros. unfold specbind, with_signals. by erewrite specbind_1_plain.
Qed.

(** [unbind_once] on a [SPECPDL_LET] entry of a variable that is plain. *)
Lemma unbind_once_plain st s old w v rest :
  specpdl st = mk_specbinding SPECPDL_LET (LSym s) old w :: rest →
  SYMBOL_REDIRECT st s = SYMBOL_PLAINVAL v →
  unbind_once st
  = (Normal tt,
     SET_SYMBOL_VAL s old
       (set_trace
          (trace st ++ [Ev_unbind (mk_specbinding SPECPDL_LET (LSym s) old w)])
          (set_specpdl rest st))).
Proof.
  intros Hpdl Hplain. unfold unbind_once. msteps. rewrite Hpdl. msteps.
  simpl. rewrite Hplain. reflexivity.
Qed.

(** * Unwinding runs in reverse order of registration *)

Lemma dynwind_end_loop_Normal f rest st st' :
  run_unwinder f (set_dynstack rest st) = (Normal tt, st') →
  dynwind_end_loop (W_unwinder f true :: rest) st = dynwind_end_loop rest st'.
Proof. intros H. simpl. by rewrite H. Qed.




(** * The binding stack at its limits *)


Lemma intvar_set_intvar_eq st a v : intvar (set_intvar a v st) a = v.
Proof. unfold intvar, set_intvar. simpl. by rewrite lookup_insert_eq. Qed.




(** [grow_specpdl] at the ceiling: the entry has become part of the stack
    when the error is raised. *)
Lemma grow_specpdl_overflow st entry :
  (SPECPDL_INDEX st + 1 = specpdl_size st)%Z →
  (400 ≤ max_specpdl_size st ≤ specpdl_size st)%Z →
  ∃ d,
    grow_specpdl entry st
    = (Signal Qerror d,
       set_next_addr (S (S (next_addr st)))
         (set_specpdl (entry :: specpdl st) st)).
Proof.
  intros Hfull Hmax. unfold grow_specpdl. msteps.
  rewrite bool_decide_eq_false_2 by lia. msteps.
  set (st1 := set_specpdl (entry :: specpdl st) st).
  assert (SPECPDL_INDEX st1 = SPECPDL_INDEX st + 1)%Z as Hidx.
  { unfold SPECPDL_INDEX, st1. simpl. lia. }
  assert (specpdl_size st1 = specpdl_size st) as Hsz by reflexivity.
  assert (max_specpdl_size st1 = max_specpdl_size st) as Hmax1 by reflexivity.
  rewrite bool_decide_eq_true_2 by lia.
  pose proof (Z.le_min_l (max_specpdl_size st1) (PTRDIFF_MAX - 1000)).
  rewrite bool_decide_eq_true_2 by lia.
  rewrite (bool_decide_eq_false_2 (max_specpdl_size st1 < 400)%Z) by lia.
  msteps.
  rewrite bool_decide_eq_true_2 by lia.
  eexists. reflexivity.
Qed.

(** X3. When the binding stack is full and cannot grow ([max-specpdl-size]
    is at least 400 and not above the size of the vector), [specbind] of a
    plain variable raises the error of [grow_specpdl] with the new entry on
    the binding stack, the value of the variable unchanged and no unwind
    handler registered for the entry: [specpdl_ptr] is at the end of the
    vector, and nothing on the wind stack will take the entry off. *)
Theorem specbind_overflow_leaves_entry (st : state) (s : sym_t)
    (v value : Lisp_Object) :
  SYMBOL_REDIRECT st s = SYMBOL_PLAINVAL v →
  (SPECPDL_INDEX st + 1 = specpdl_size st)%Z →
  (400 ≤ max_specpdl_size st ≤ specpdl_size st)%Z →
  ∃ d st',
    specbind_1 (LSym s) value st = (Signal Qerror d, st')
    ∧ specpdl st' = mk_specbinding SPECPDL_LET (LSym s) v Qnil :: specpdl st
    ∧ dynstack st' = dynstack st
    ∧ SYMBOL_REDIRECT st' s = SYMBOL_PLAINVAL v
    ∧ SPECPDL_INDEX st' = specpdl_size st'.
Proof.
  intros Hplain Hfull Hmax. unfold specbind_1. simpl CHECK_SYMBOL. msteps.
  rewrite (bind_Normal _ _ _ _ _ (chase_alias_plain _ _ _ Hplain)). msteps.
  rewrite Hplain.
  destruct (grow_specpdl_overflow st
              (mk_specbinding SPECPDL_LET (LSym s) v Qnil) Hfull Hmax)
    as [d Hgrow].
  rewrite !bind_assoc.
  rewrite (bind_Signal _ _ _ _ _ _ Hgrow).
  eexists _, _. split; [reflexivity|].
  split; [reflexivity|]. split; [reflexivity|].
  split; [exact Hplain|].
  unfold SPECPDL_INDEX, specpdl_size in *. cbn [specpdl set_next_addr set_specpdl length].
  change (intvar _ a_specpdl_size) with (intvar st a_specpdl_size). lia.
Qed.

Lemma specbind_overflow_leaves_entry_witness :
  ∃ d st',
    specbind_1 (LSym SA) (LInt 1) st_full = (Signal Qerror d, st')
    ∧ specpdl st'
      = mk_specbinding SPECPDL_LET (LSym SA) (LInt 0) Qnil :: specpdl st_full
    ∧ dynstack st' = dynstack st_full
    ∧ SYMBOL_REDIRECT st' SA = SYMBOL_PLAINVAL (LInt 0)
    ∧ SPECPDL_INDEX st' = specpdl_size st'.
Proof.
  apply (specbind_overflow_leaves_entry st_full SA (LInt 0) (LInt 1));
    vm_compute; first [reflexivity | split; discriminate].
Defined.

(** X4. [specbind] of a constant that is not a keyword ([nil], [t]) signals
    [setting-constant] with the symbol as datum, after it has pushed the
    entry on the binding stack and before it registers the unwind handler:
    the entry stays on the stack. *)
Theorem specbind_constant_leaves_entry (st : state) (s : sym_t)
    (v value : Lisp_Object) :
  SYMBOL_REDIRECT st s = SYMBOL_PLAINVAL v →
  constant (SYMBOL st s) = true →
  keyword (SYMBOL st s) = false →
  (SPECPDL_INDEX st + 1 < specpdl_size st)%Z →
  ∃ st',
    specbind_1 (LSym s) value st
    = (Signal Qsetting_constant (LCons (next_addr st) (LSym s) Qnil), st')
    ∧ specpdl st' = mk_specbinding SPECPDL_LET (LSym s) v Qnil :: specpdl st
    ∧ dynstack st' = dynstack st
    ∧ symbols st' = symbols st.
Proof.
  intros Hplain Hconst Hkey Hroom. unfold specbind_1. simpl CHECK_SYMBOL.
  msteps.
  rewrite (bind_Normal _ _ _ _ _ (chase_alias_plain _ _ _ Hplain)). msteps.
  rewrite Hplain. rewrite !bind_assoc.
  rewrite (bind_Normal _ _ _ _ _ (grow_specpdl_room _ _ Hroom)).
  rewrite Hconst. simpl negb. cbv iota.
  unfold set_internal. simpl CHECK_SYMBOL. msteps.
  unfold SYMBOL_CONSTANT_P, Fkeywordp.
  change (SYMBOL (set_specpdl _ st) s) with (SYMBOL st s).
  rewrite Hconst, Hkey. simpl negb. cbv iota.
  eexists. split; [reflexivity|]. done.
Qed.

Lemma specbind_constant_leaves_entry_witness :
  ∃ st',
    specbind_1 Qnil (LInt 5) init_state
    = (Signal Qsetting_constant (LCons 1000 Qnil Qnil), st')
    ∧ specpdl st' = [mk_specbinding SPECPDL_LET Qnil Qnil Qnil]
    ∧ dynstack st' = []
    ∧ symbols st' = symbols init_state.
Proof.
  apply (specbind_constant_leaves_entry init_state Snil Qnil (LInt 5));
    vm_compute; reflexivity.
Defined.
(** * Catch and throw *)

Lemma EQ_refl x : EQ x x = true.
Proof. destruct x; simpl; try done; by apply bool_decide_eq_true_2. Qed.

Lemma bind_fresh {B} (k : addr → M B) (st : state) :
  (fresh ≫= k) st = k (next_addr st) (set_next_addr (S (next_addr st)) st).
Proof. reflexivity. Qed.

Lemma call_with_prompt_Abort tag thunk handler st args st' :
  thunk (set_dynstack (W_prompt tag :: dynstack st) st) = (Abort tag args, st') →
  call_with_prompt tag thunk handler st = handler args st'.
Proof.
  intros H. unfold call_with_prompt. rewrite H.
  by rewrite bool_decide_eq_true_2.
Qed.

Lemma call_with_prompt_Normal tag thunk handler st v st' :
  thunk (set_dynstack (W_prompt tag :: dynstack st) st) = (Normal v, st') →
  call_with_prompt tag thunk handler st
  = (Normal v, set_dynstack (tail (dynstack st')) st').
Proof. intros H. unfold call_with_prompt. by rewrite H. Qed.


Lemma unwind_to_Normal {A} f e rest tag args st st' :
  run_unwinder f (set_dynstack rest st) = (Normal tt, st') →
  @unwind_to A (W_unwinder f e :: rest) tag args st
  = unwind_to rest tag args st'.
Proof. intros H. simpl. by rewrite H. Qed.

Lemma unwind_to_frame {A} rest tag args st :
  @unwind_to A (W_frame :: rest) tag args st = unwind_to rest tag args st.
Proof. reflexivity. Qed.

Lemma unwind_to_prompt {A} rest tag args st :
  @unwind_to A (W_prompt tag :: rest) tag args st
  = (Abort tag args, set_dynstack rest st).
Proof. simpl. by rewrite bool_decide_eq_true_2. Qed.

Ltac name_unwind s :=
  lazymatch goal with
  | |- context [unwind_to _ _ _ ?b] => name_state b as s
  end.



Lemma Fget_fields st st' s p :
  symbols st' = symbols st → Fget st' s p = Fget st s p.
Proof. unfold Fget, SYMBOL. by intros ->. Qed.

Lemma objvar_fields st st' a :
  objvars st' = objvars st → objvar st' a = objvar st a.
Proof. unfold objvar. by intros ->. Qed.

(** [Fsignal] up to the unwinding, when a condition-case handler takes the
    signal and the debugger has no say. *)
Lemma Fsignal_1_handled st s data h clause :
  s ≠ Snil →
  NILP (objvar st a_Vsignal_hook_function) = true →
  NILP (objvar st a_Vdebug_on_signal) = true →
  signal_find_handler (handlerlist st) (Fget st s Qerror_conditions)
  = Some (h, clause) →
  CONSP clause && negb (NILP (Fmemq Qdebug clause)) = false →
  EQ (tag_or_ch h) Qerror = false →
  Fsignal_1 (LSym s) data st
  = (Normal (Unwind_to_catch h (LCons (next_addr st) (LSym s) data)),
     set_next_addr (S (next_addr st)) st).
Proof.
  intros Hs Hhook Hdebug Hfind Hclause Herr.
  assert (NILP (LSym s) = false) as Hnil.
  { unfold NILP. simpl. by apply bool_decide_eq_false_2; congruence. }
  unfold Fsignal_1. rewrite Hnil. cbn [andb]. cbv iota.
  unfold Fsignal_decide. msteps.
  rewrite Hhook. cbn [negb andb]. msteps.
  rewrite Hfind, Hdebug, Hnil, Hclause, Herr. cbn [negb andb orb].
  msteps. unfold Fcons. msteps. reflexivity.
Qed.

Lemma Fsignal_handled {A} st s data h clause :
  s ≠ Snil →
  NILP (objvar st a_Vsignal_hook_function) = true →
  NILP (objvar st a_Vdebug_on_signal) = true →
  signal_find_handler (handlerlist st) (Fget st s Qerror_conditions)
  = Some (h, clause) →
  CONSP clause && negb (NILP (Fmemq Qdebug clause)) = false →
  EQ (tag_or_ch h) Qerror = false →
  @Fsignal A (LSym s) data st
  = unwind_to_catch h (LCons (next_addr st) (LSym s) data)
      (set_next_addr (S (next_addr st)) st).
Proof.
  intros. unfold Fsignal. by erewrite Fsignal_1_handled.
Qed.

Lemma Fthrow_no_catch {A} st tag value :
  (if negb (NILP tag) then throw_find_catch (handlerlist st) tag else None)
  = None →
  @Fthrow A tag value st
  = Fsignal Qno_catch
      (LCons (S (next_addr st)) tag (LCons (next_addr st) value Qnil))
      (set_next_addr (S (S (next_addr st))) st).
Proof.
  intros H. unfold Fthrow. msteps. rewrite H.
  unfold with_signals, xsignal2, list2, Fcons. msteps. reflexivity.
Qed.

Lemma unwind_to_catch_eq {A} c value st ws :
  dynstack st = ws →
  has_prompt (ptag c) ws = true →
  @unwind_to_catch A c value st = unwind_to ws (ptag c) value st.
Proof.
  intros Hws Hp. unfold unwind_to_catch, abort_to_prompt.
  by rewrite Hws, Hp.
Qed.

Lemma unwind_to_prompt_ne {A} q rest tag args st :
  q ≠ tag →
  @unwind_to A (W_prompt q :: rest) tag args st = unwind_to rest tag args st.
Proof. intros. simpl. by rewrite bool_decide_eq_false_2. Qed.

(** X6. [Fthrow] with the tag [nil] is not caught by a catch, not even by
    one whose tag is [nil]: it signals [no-catch] with the tag and the
    value, which a condition handler for that signal receives as
    [(no-catch nil VALUE)]; the handler list and the wind stack are then as
    before.  The signal hook and [debug-on-signal] are off and the clause
    does not ask for the debugger. *)
Theorem throw_nil_is_no_catch (st : state) (value handlers : Lisp_Object) :
  NILP (objvar st a_Vsignal_hook_function) = true →
  NILP (objvar st a_Vdebug_on_signal) = true →
  NILP (find_handler_clause handlers (Fget st Sno_catch Qerror_conditions))
  = false →
  Fmemq Qdebug
    (find_handler_clause handlers (Fget st Sno_catch Qerror_conditions))
  = Qnil →
  EQ handlers Qerror = false →
  ∃ a1 a2 a3 st',
    throw_nil_test value handlers st
    = (Normal (LCons a1 Qno_catch (LCons a2 Qnil (LCons a3 value Qnil))), st')
    ∧ handlerlist st' = handlerlist st
    ∧ dynstack st' = dynstack st.
Proof.
  intros Hhook Hdebug Hclause Hnodebug Herr.
  unfold throw_nil_test, internal_condition_case_1, make_condition_handler,
    make_handler, make_prompt_tag.
  msteps. rewrite bind_fresh. msteps. cbn [fst snd ptag].
  set (p := next_addr st).
  set (c := mk_handler CONDITION_CASE handlers Qnil Qnil (lisp_eval_depth st)
              (interrupt_input_blocked st) p).
  unfold call_with_prompt at 1. unfold icc_thunk at 1.
  unfold dynwind_begin, scm_dynwind_unwind_handler.
  msteps. cbn [fst snd].
  name_run s1.
  rewrite bind_unfold. unfold bind at 1.
  unfold internal_catch, make_catch_handler, make_handler, make_prompt_tag.
  msteps. rewrite bind_fresh. msteps. cbn [fst snd ptag].
  rewrite Enext_s1.
  set (c' := mk_handler CATCHER Qnil Qnil Qnil (lisp_eval_depth s1)
              (interrupt_input_blocked s1) (S p)).
  unfold call_with_prompt at 1. unfold icc_thunk at 1.
  unfold dynwind_begin, scm_dynwind_unwind_handler.
  msteps. cbn [fst snd].
  name_run s2.
  rewrite bind_unfold. unfold bind at 1.
  rewrite Fthrow_no_catch by done.
  name_state (set_next_addr (S (S (next_addr s2))) s2) as s3.
  erewrite (Fsignal_handled s3 Sno_catch _ c).
  2:{ done. }
  2:{ by rewrite (objvar_fields st s3). }
  2:{ by rewrite (objvar_fields st s3). }
  2:{ rewrite Ehl_s3. rewrite (Fget_fields st s3) by done.
      cbn [signal_find_handler h_type c c' tag_or_ch].
      rewrite Hclause. cbn [negb]. reflexivity. }
  2:{ rewrite Hnodebug. by rewrite andb_false_r. }
  2:{ done. }
  name_state (set_next_addr (S (next_addr s3)) s3) as s4.
  erewrite (unwind_to_catch_eq c _ s4); [|exact Edyn_s4|].
  2:{ cbn [ptag c]. unfold has_prompt. cbn [existsb].
      rewrite (bool_decide_eq_true_2 (p = p)) by done.
      cbn [orb]. by rewrite ?orb_true_r. }
  cbn [ptag c].
  erewrite unwind_to_Normal; [|reflexivity].
  name_unwind s5.
  erewrite unwind_to_Normal; [|reflexivity].
  name_unwind s6.
  rewrite unwind_to_frame, unwind_to_prompt_ne by lia.
  erewrite unwind_to_Normal; [|reflexivity].
  name_unwind s7.
  erewrite unwind_to_Normal; [|reflexivity].
  name_unwind s8.
  rewrite unwind_to_frame, unwind_to_prompt.
  rewrite (bool_decide_eq_false_2 (p = S p)) by lia.
  rewrite bool_decide_eq_true_2 by done.
  unfold icc_handler.
  eexists _, _, _, _. split; [reflexivity|].
  cbn [handlerlist dynstack set_dynstack]. done.
Qed.

Lemma throw_nil_is_no_catch_witness :
  ∃ a1 a2 a3 st',
    throw_nil_test (LInt 42) (LCons 2000 Qno_catch Qnil) init_state
    = (Normal (LCons a1 Qno_catch (LCons a2 Qnil (LCons a3 (LInt 42) Qnil))),
       st')
    ∧ handlerlist st' = handlerlist init_state
    ∧ dynstack st' = dynstack init_state.
Proof.
  apply (throw_nil_is_no_catch init_state (LInt 42)
           (LCons 2000 Qno_catch Qnil)); vm_compute; reflexivity.
Defined.
(** * Unwinding past a cleanup that signals *)




(** * A binding-depth error that is caught *)

Ltac name_end s :=
  lazymatch goal with
  | |- context [dynwind_end_loop _ ?b] => name_state b as s
  end.

Lemma specbind_1_overflow st s v value :
  SYMBOL_REDIRECT st s = SYMBOL_PLAINVAL v →
  (SPECPDL_INDEX st + 1 = specpdl_size st)%Z →
  (400 ≤ max_specpdl_size st ≤ specpdl_size st)%Z →
  ∃ d,
    specbind_1 (LSym s) value st
    = (Signal Qerror d,
       set_next_addr (S (S (next_addr st)))
         (set_specpdl
            (mk_specbinding SPECPDL_LET (LSym s) v Qnil :: specpdl st) st)).
Proof.
  intros Hplain Hfull Hmax. unfold specbind_1. simpl CHECK_SYMBOL. msteps.
  rewrite (bind_Normal _ _ _ _ _ (chase_alias_plain _ _ _ Hplain)). msteps.
  rewrite Hplain.
  destruct (grow_specpdl_overflow st
              (mk_specbinding SPECPDL_LET (LSym s) v Qnil) Hfull Hmax)
    as [d Hgrow].
  rewrite !bind_assoc.
  rewrite (bind_Signal _ _ _ _ _ _ Hgrow). by exists d.
Qed.

Lemma specbind_Signal st symbol value e d st' :
  specbind_1 symbol value st = (Signal e d, st') →
  specbind symbol value st = Fsignal e d st'.
Proof. intros H. unfold specbind, with_signals. by rewrite H. Qed.

(** X8. A binding-depth error that a condition handler catches leaves the
    binding stack one entry too deep: with room for exactly one more entry,
    [a] is bound in a wind frame and, under a handler for [error], [b] is
    bound; that binding raises the depth error, which the handler receives;
    when the frame of [a] is then left, the unwind handler of [a] takes the
    stale entry of [b] off the stack instead of its own: [a] keeps its
    let-bound value and its entry stays on the binding stack. *)
Theorem overflow_leaves_outer_binding (st : state) (a b : sym_t)
    (v0 v1 w0 w1 handlers : Lisp_Object) :
  a ≠ b →
  SYMBOL_REDIRECT st a = SYMBOL_PLAINVAL v0 →
  SYMBOL_REDIRECT st b = SYMBOL_PLAINVAL w0 →
  constant (SYMBOL st a) = false →
  (SPECPDL_INDEX st + 2 = specpdl_size st)%Z →
  (400 ≤ max_specpdl_size st ≤ specpdl_size st)%Z →
  NILP (objvar st a_Vsignal_hook_function) = true →
  NILP (objvar st a_Vdebug_on_signal) = true →
  NILP (find_handler_clause handlers (Fget st Serror Qerror_conditions))
  = false →
  Fmemq Qdebug
    (find_handler_clause handlers (Fget st Serror Qerror_conditions))
  = Qnil →
  EQ handlers Qerror = false →
  ∃ a1 d st',
    overflow_test a b v1 w1 handlers st = (Normal (LCons a1 Qerror d), st')
    ∧ SYMBOL_REDIRECT st' a = SYMBOL_PLAINVAL v1
    ∧ SYMBOL_REDIRECT st' b = SYMBOL_PLAINVAL w0
    ∧ specpdl st' = mk_specbinding SPECPDL_LET (LSym a) v0 Qnil :: specpdl st
    ∧ dynstack st' = dynstack st
    ∧ handlerlist st' = handlerlist st.
Proof.
  intros Hab Ha Hb Hca Hroom Hmax Hhook Hdebug Hclause Hnodebug Herr.
  unfold overflow_test, dynwind_begin. msteps. name_run s1.
  erewrite bind_Normal; [|apply (specbind_plain s1 a v0 v1)].
  2:{ sym_fields. done. } 2:{ sym_fields. done. } 2:{ room. }
  name_run s2.
  rewrite bind_unfold. unfold bind at 1.
  unfold internal_condition_case_1, make_condition_handler, make_handler,
    make_prompt_tag.
  msteps. rewrite bind_fresh. msteps. cbn [fst snd ptag].
  set (p := next_addr s2).
  set (c := mk_handler CONDITION_CASE handlers Qnil Qnil (lisp_eval_depth s2)
              (interrupt_input_blocked s2) p).
  unfold call_with_prompt at 1. unfold icc_thunk at 1.
  unfold dynwind_begin, scm_dynwind_unwind_handler.
  msteps. cbn [fst snd].
  name_run s3.
  rewrite bind_unfold. unfold bind at 1.
  destruct (specbind_1_overflow s3 b w0 w1) as [d Hover].
  { sym_fields. done. }
  { room. }
  { unfold max_specpdl_size, specpdl_size in *.
    rewrite !(intvar_fields st s3) by done. lia. }
  rewrite (specbind_Signal _ _ _ _ _ _ Hover).
  name_state (set_next_addr (S (S (next_addr s3)))
       (set_specpdl
          ({|
             kind := SPECPDL_LET;
             symbol := LSym b;
             old_value := w0;
             let_where := Qnil
           |} :: specpdl s3)
          s3)) as s4.
  erewrite (Fsignal_handled s4 Serror _ c).
  2:{ done. }
  2:{ by rewrite (objvar_fields st s4). }
  2:{ by rewrite (objvar_fields st s4). }
  2:{ rewrite Ehl_s4.
      replace (Fget s4 Serror Qerror_conditions)
        with (Fget st Serror Qerror_conditions).
      2:{ unfold Fget. f_equal. sym_fields.
          destruct (decide (Serror = a)) as [Hea|Hea];
            try rewrite Hea;
            repeat first [ rewrite lookup_insert_eq
                         | rewrite lookup_insert_ne by congruence ];
            done. }
      cbn [signal_find_handler h_type c tag_or_ch].
      rewrite Hclause. cbn [negb]. reflexivity. }
  2:{ rewrite Hnodebug. by rewrite andb_false_r. }
  2:{ done. }
  name_state (set_next_addr (S (next_addr s4)) s4) as s5.
  erewrite (unwind_to_catch_eq c _ s5); [|exact Edyn_s5|].
  2:{ cbn [ptag c]. unfold has_prompt. cbn [existsb].
      rewrite (bool_decide_eq_true_2 (p = p)) by done.
      cbn [orb]. by rewrite ?orb_true_r. }
  cbn [ptag c].
  rewrite unwind_to_frame.
  erewrite unwind_to_Normal; [|reflexivity].
  name_unwind s6.
  erewrite unwind_to_Normal; [|reflexivity].
  name_unwind s7.
  rewrite unwind_to_frame, unwind_to_prompt.
  rewrite bool_decide_eq_true_2 by done.
  unfold icc_handler. cbn [ret].
  name_run s8.
  rewrite bind_unfold. unfold bind at 1. unfold dynwind_end.
  rewrite Edyn_s8.
  erewrite dynwind_end_loop_Normal.
  2:{ apply (unbind_once_plain _ b w0 Qnil w0).
      - simpl. exact Epdl_s8.
      - sym_fields. done. }
  name_end s9. cbn [dynwind_end_loop].
  eexists _, _, _. split; [reflexivity|].
  cbn [handlerlist dynstack specpdl set_dynstack].
  split; [sym_fields; done|]. split; [sym_fields; done|]. done.
Qed.

Lemma overflow_leaves_outer_binding_witness :
  ∃ a1 d st',
    overflow_test SA SC (LInt 1) (LInt 2) (LCons 2000 Qerror Qnil) st_almost_full
    = (Normal (LCons a1 Qerror d), st')
    ∧ SYMBOL_REDIRECT st' SA = SYMBOL_PLAINVAL (LInt 1)
    ∧ SYMBOL_REDIRECT st' SC = SYMBOL_PLAINVAL Qunbound
    ∧ specpdl st'
      = mk_specbinding SPECPDL_LET (LSym SA) (LInt 0) Qnil
        :: specpdl st_almost_full
    ∧ dynstack st' = dynstack st_almost_full
    ∧ handlerlist st' = handlerlist st_almost_full.
Proof.
  apply (overflow_leaves_outer_binding st_almost_full SA SC (LInt 0) (LInt 1)
           Qunbound (LInt 2) (LCons 2000 Qerror Qnil));
    vm_compute; first [reflexivity | discriminate | split; discriminate].
Defined.
(** * Condition-case: which clause handles a signal *)

Lemma bind_Fcons {B} car cdr (k : Lisp_Object → M B) (st : state) :
  (Fcons car cdr ≫= k) st
  = k (LCons (next_addr st) car cdr) (set_next_addr (S (next_addr st)) st).
Proof. reflexivity. Qed.

Lemma find_handler_clause_list1 k c conditions :
  find_handler_clause (LCons k (LSym c) Qnil) conditions
  = if NILP (Fmemq (LSym c) conditions) then Qnil
    else LCons k (LSym c) Qnil.
Proof.
  unfold find_handler_clause. cbn [EQ list_elements existsb].
  by destruct (NILP (Fmemq (LSym c) conditions)).
Qed.

Ltac prompt_here :=
  unfold has_prompt; cbn [existsb ptag];
  repeat first
    [ rewrite orb_false_l
    | rewrite (bool_decide_eq_true_2 _ eq_refl); reflexivity
    | rewrite bool_decide_eq_false_2 by lia ].

Lemma dynwind_end_eq st ws :
  dynstack st = ws → dynwind_end st = dynwind_end_loop ws st.
Proof. intros <-. reflexivity. Qed.

Lemma dynwind_end_frame st rest :
  dynstack st = W_frame :: rest →
  dynwind_end st = (Normal tt, set_dynstack rest st).
Proof. intros H. by rewrite (dynwind_end_eq _ _ H). Qed.

Lemma set_handlerlist_same st hl :
  handlerlist st = hl → set_handlerlist hl st = st.
Proof. intros <-. by destruct st. Qed.

Section condition_case.
Context (eval_sub : Lisp_Object → M Lisp_Object).

Lemma ilcc1_cons var bodyform k k' c body handlers' :
  ilcc1 eval_sub var bodyform (LCons k (LCons k' (LSym c) body) handlers')
  = (condition ← Fcons (LSym c) Qnil;
     c ← make_condition_handler condition;
     let c := (mk_handler (h_type (fst c)) (tag_or_ch (fst c)) var body
                 (h_lisp_eval_depth (fst c))
                 (h_interrupt_input_blocked (fst c)) (ptag (fst c)),
               snd c) in
     call_with_prompt (ptag (fst c))
       (icc_thunk c (ilcc1 eval_sub var bodyform handlers'))
       (icc_lisp_handler eval_sub (fst c))).
Proof. reflexivity. Qed.

(** X9. [internal_lisp_condition_case] without a variable, with two
    clauses whose conditions are symbols, around a body form that signals,
    when the body of each clause returns normally and leaves the handler
    list and the wind stack as it found them: the first clause, in the
    order of the list, whose condition name is among the error conditions
    of the signal handles it.  The body of that clause, and no other, runs,
    from a state [s] that has the symbols, conses, buffers, binding stack
    and trace of the start, and the form returns its value; the final
    state is the one the body left, with the handler list and the wind
    stack as before the form.  So the first clause wins when both match,
    and the second one takes what the first one does not match.  While
    the body of the first clause runs, the handler of the second clause is
    still on the handler list; the body of the second clause runs with the
    handler list of the start.  The signal hook and [debug-on-signal] are
    off and no clause names [debug]. *)
Theorem condition_case_first_clause_wins (st : state)
    (bodyform d body1 body2 : Lisp_Object) (e c1 c2 : sym_t)
    (k1 k2 k3 k4 : addr) :
  (∀ s, eval_sub bodyform s = Fsignal (LSym e) d s) →
  (∀ s, ∃ r s', Fprogn eval_sub body1 s = (Normal r, s')
                ∧ handlerlist s' = handlerlist s
                ∧ dynstack s' = dynstack s) →
  (∀ s, ∃ r s', Fprogn eval_sub body2 s = (Normal r, s')
                ∧ handlerlist s' = handlerlist s
                ∧ dynstack s' = dynstack s) →
  e ≠ Snil → c1 ≠ Sdebug → c2 ≠ Sdebug →
  NILP (objvar st a_Vsignal_hook_function) = true →
  NILP (objvar st a_Vdebug_on_signal) = true →
  NILP (Fmemq (LSym c1) (Fget st e Qerror_conditions)) = false
  ∨ NILP (Fmemq (LSym c2) (Fget st e Qerror_conditions)) = false →
  ∃ s r s' st',
    internal_lisp_condition_case eval_sub Qnil bodyform
      (LCons k1 (LCons k2 (LSym c1) body1)
         (LCons k3 (LCons k4 (LSym c2) body2) Qnil)) st
    = (Normal r, st')
    ∧ Fprogn eval_sub
        (if NILP (Fmemq (LSym c1) (Fget st e Qerror_conditions))
         then body2 else body1) s
      = (Normal r, s')
    ∧ symbols s = symbols st
    ∧ cells s = cells st
    ∧ buffers s = buffers st
    ∧ specpdl s = specpdl st
    ∧ trace s = trace st
    ∧ (if NILP (Fmemq (LSym c1) (Fget st e Qerror_conditions))
       then handlerlist s = handlerlist st
       else ∃ h, handlerlist s = h :: handlerlist st
                 ∧ h_type h = CONDITION_CASE
                 ∧ list_elements (tag_or_ch h) = [LSym c2])
    ∧ st' = set_dynstack (dynstack st) (set_handlerlist (handlerlist st) s')
    ∧ handlerlist st' = handlerlist st
    ∧ dynstack st' = dynstack st.
Proof.
  intros Hsig Hbody1 Hbody2 He Hc1 Hc2 Hhook Hdebug Hmatch.
  unfold internal_lisp_condition_case.
  cbn [CHECK_SYMBOL].
  rewrite bind_unfold. unfold bind at 1.
  change (with_signals (mret Snil) st) with (Normal Snil, st). cbv iota beta.
  cbn [list_elements forallb NILP EQ CONSP SYMBOLP XCAR orb andb].
  msteps. unfold Freverse. cbn [Freverse_onto]. msteps.
  set (p0 := next_addr st).
  rewrite bind_Fcons. fold p0. msteps.
  rewrite bind_Fcons. cbn [mret M_ret next_addr set_next_addr]. msteps.
  rewrite ilcc1_cons. rewrite bind_Fcons.
  unfold make_condition_handler, make_handler, make_prompt_tag.
  msteps. rewrite bind_fresh. msteps. cbn [fst snd ptag h_type tag_or_ch
    h_lisp_eval_depth h_interrupt_input_blocked next_addr set_next_addr
    handlerlist].
  match goal with
  | |- context [call_with_prompt _ (icc_thunk (?h, _) _)] => set (h2 := h)
  end.
  unfold call_with_prompt at 1. unfold icc_thunk at 1.
  unfold dynwind_begin, scm_dynwind_unwind_handler.
  msteps. cbn [fst snd].
  name_run s1.
  rewrite bind_unfold. unfold bind at 1.
  rewrite ilcc1_cons. rewrite bind_Fcons.
  unfold make_condition_handler, make_handler, make_prompt_tag.
  msteps. rewrite bind_fresh. msteps. cbn [fst snd ptag h_type tag_or_ch
    h_lisp_eval_depth h_interrupt_input_blocked next_addr set_next_addr
    handlerlist].
  rewrite Enext_s1, Ehl_s1.
  match goal with
  | |- context [call_with_prompt _ (icc_thunk (?h, _) _)] => set (h1 := h)
  end.
  unfold call_with_prompt at 1. unfold icc_thunk at 1.
  unfold dynwind_begin, scm_dynwind_unwind_handler.
  msteps. cbn [fst snd].
  name_run s2.
  rewrite bind_unfold. unfold bind at 1.
  change (ilcc1 eval_sub Qnil bodyform Qnil) with (eval_sub bodyform).
  rewrite Hsig.
  assert (Fget s2 e Qerror_conditions = Fget st e Qerror_conditions) as Hget
    by (by apply Fget_fields).
  assert (∀ k c, c ≠ Sdebug →
            CONSP (LCons k (LSym c) Qnil)
            && negb (NILP (Fmemq Qdebug (LCons k (LSym c) Qnil))) = false)
    as Hnodebug.
  { intros k c Hc. cbn [CONSP Fmemq EQ andb].
    rewrite bool_decide_eq_false_2 by done. done. }
  destruct (NILP (Fmemq (LSym c1) (Fget st e Qerror_conditions))) eqn:Hm1.
  - (* the second clause takes the signal *)
    destruct Hmatch as [?|Hm2]; [done|].
    erewrite (Fsignal_handled s2 e d h2).
    2:{ done. }
    2:{ by rewrite (objvar_fields st s2). }
    2:{ by rewrite (objvar_fields st s2). }
    2:{ rewrite Ehl_s2, Hget.
        cbn [signal_find_handler h_type h1 h2 tag_or_ch].
        rewrite !find_handler_clause_list1, Hm1, Hm2. cbn [negb NILP EQ].
        reflexivity. }
    2:{ by apply Hnodebug. }
    2:{ done. }
    name_state (set_next_addr (S (next_addr s2)) s2) as s3.
    erewrite (unwind_to_catch_eq h2 _ s3); [|exact Edyn_s3|].
    2:{ unfold h2. prompt_here. }
    change (ptag h2) with (S (S (S p0))).
    erewrite unwind_to_Normal; [|reflexivity].
    name_unwind s4.
    erewrite unwind_to_Normal; [|reflexivity].
    name_unwind s5.
    rewrite unwind_to_frame, unwind_to_prompt_ne by lia.
    erewrite unwind_to_Normal; [|reflexivity].
    name_unwind s6.
    erewrite unwind_to_Normal; [|reflexivity].
    name_unwind s7.
    rewrite unwind_to_frame, unwind_to_prompt.
    rewrite (bool_decide_eq_false_2 (S (S (S p0)) = S (S (S (S (S p0))))))
      by lia.
    rewrite bool_decide_eq_true_2 by done.
    unfold icc_lisp_handler, dynwind_begin.
    change (h_body h2) with body2. change (h_var h2) with Qnil.
    cbn [NILP EQ negb when]. change (bool_decide (Snil = Snil)) with true. cbn [negb when].
    msteps.
    lazymatch goal with
    | |- context [(Fprogn eval_sub body2 ≫= _) ?b] => name_state b as s8
    end.
    destruct (Hbody2 s8) as (r & s' & Hrun & Hhl & Hdyn).
    rewrite (bind_Normal _ _ _ _ _ Hrun).
    assert (dynstack s' = W_frame :: dynstack st) as Hdyn'
      by (by rewrite Hdyn).
    rewrite (bind_Normal _ _ _ _ _ (dynwind_end_frame _ _ Hdyn')).
    exists s8, r, s', (set_dynstack (dynstack st) s').
    split; [reflexivity|]. split; [exact Hrun|].
    split; [done|]. split; [done|]. split; [done|]. split; [done|].
    split; [done|]. split; [done|]. split.
    { rewrite set_handlerlist_same by congruence. reflexivity. }
    split; [cbn [handlerlist set_dynstack]; congruence|reflexivity].
  - (* the first clause takes the signal *)
    erewrite (Fsignal_handled s2 e d h1).
    2:{ done. }
    2:{ by rewrite (objvar_fields st s2). }
    2:{ by rewrite (objvar_fields st s2). }
    2:{ rewrite Ehl_s2, Hget.
        cbn [signal_find_handler h_type h1 h2 tag_or_ch].
        rewrite !find_handler_clause_list1, Hm1. cbn [negb NILP EQ].
        reflexivity. }
    2:{ by apply Hnodebug. }
    2:{ done. }
    name_state (set_next_addr (S (next_addr s2)) s2) as s3.
    erewrite (unwind_to_catch_eq h1 _ s3); [|exact Edyn_s3|].
    2:{ unfold h1. prompt_here. }
    change (ptag h1) with (S (S (S (S (S p0))))).
    erewrite unwind_to_Normal; [|reflexivity].
    name_unwind s4.
    erewrite unwind_to_Normal; [|reflexivity].
    name_unwind s5.
    rewrite unwind_to_frame, unwind_to_prompt.
    rewrite bool_decide_eq_true_2 by done.
    unfold icc_lisp_handler, dynwind_begin.
    change (h_body h1) with body1. change (h_var h1) with Qnil.
    cbn [NILP EQ negb when]. change (bool_decide (Snil = Snil)) with true. cbn [negb when].
    msteps.
    lazymatch goal with
    | |- context [(Fprogn eval_sub body1 ≫= _) ?b] => name_state b as s6
    end.
    destruct (Hbody1 s6) as (r & s' & Hrun & Hhl & Hdyn).
    rewrite (bind_Normal _ _ _ _ _ Hrun).
    assert (dynstack s'
            = W_frame
              :: W_unwinder (U_set_handlerlist (handlerlist st)) true
                 :: W_unwinder (U_restore_handler h2) false
                    :: W_frame :: W_prompt (S (S (S p0))) :: dynstack st)
      as Hdyn' by (by rewrite Hdyn).
    rewrite (bind_Normal _ _ _ _ _ (dynwind_end_frame _ _ Hdyn')).
    cbn [ret]. unfold mret, M_ret. cbv beta iota.
    rewrite bind_unfold. unfold bind at 1.
    unfold dynwind_end at 1.
    cbn [dynstack set_dynstack dynwind_end_loop run_unwinder].
    unfold modify. cbv beta iota. cbn [ret]. unfold mret, M_ret.
    cbn [dynstack set_dynstack set_handlerlist tail].
    exists s6, r, s'. eexists. split; [reflexivity|].
    split; [exact Hrun|].
    split; [done|]. split; [done|]. split; [done|]. split; [done|].
    split; [done|]. split; [by exists h2|].
    split; [reflexivity|]. split; reflexivity.
Qed.
End condition_case.

Lemma condition_case_first_clause_wins_witness :
  ∃ st',
    internal_lisp_condition_case eval_sub_test Qnil (LInt 0)
      (LCons 3000 (LCons 3001 Qarith_error (LCons 3002 (LInt 1) Qnil))
         (LCons 3003 (LCons 3004 Qerror (LCons 3005 (LInt 2) Qnil)) Qnil))
      init_state
    = (Normal (LInt 1), st')
    ∧ trace st' = trace init_state ++ [Ev_cleanup 1]
    ∧ handlerlist st' = handlerlist init_state
    ∧ dynstack st' = dynstack init_state.
Proof.
  destruct (condition_case_first_clause_wins eval_sub_test init_state
              (LInt 0) Qnil (LCons 3002 (LInt 1) Qnil)
              (LCons 3005 (LInt 2) Qnil) Sarith_error Sarith_error Serror
              3000 3001 3003 3004)
    as (s & r & s' & st' & Hrun & Hbody & _ & _ & _ & _ & Htr & _ & Hst'
        & Hhl & Hdyn);
    [ intros s; reflexivity
    | intros s; eexists _, _; split; [reflexivity|split; reflexivity]
    | intros s; eexists _, _; split; [reflexivity|split; reflexivity]
    | discriminate | discriminate | discriminate
    | vm_compute; reflexivity | vm_compute; reflexivity
    | left; vm_compute; reflexivity | ].
  assert (NILP (Fmemq (LSym Sarith_error)
                  (Fget init_state Sarith_error Qerror_conditions)) = false)
    as E by (vm_compute; reflexivity).
  rewrite E in Hbody.
  change (Fprogn eval_sub_test (LCons 3002 (LInt 1) Qnil) s)
    with (Normal (LInt 1), set_trace (trace s ++ [Ev_cleanup 1]) s) in Hbody.
  injection Hbody as <- <-.
  exists st'. split; [exact Hrun|]. split; [|split; [exact Hhl|exact Hdyn]].
  rewrite Hst'. cbn [trace set_dynstack set_handlerlist set_trace].
  by rewrite Htr.
Defined.
(** * Reading and writing variables *)

Lemma alias_chain_end_None st n s t m :
  alias_chain st n s = Some t → SYMBOL_ALIAS st t = None →
  n < m → alias_chain st m s = None.
Proof.
  intros Hn Ht Hlt. replace m with (n + S (m - S n)) by lia.
  rewrite alias_chain_add, Hn. simpl. by rewrite Ht.
Qed.

Lemma alias_chain_end_unique st n n' s t t' :
  alias_chain st n s = Some t → SYMBOL_ALIAS st t = None →
  alias_chain st n' s = Some t' → SYMBOL_ALIAS st t' = None →
  t = t'.
Proof.
  intros Hn Ht Hn' Ht'.
  destruct (lt_eq_lt_dec n n') as [[Hlt|Heq]|Hgt].
  - rewrite (alias_chain_end_None st n s t n') in Hn'; done.
  - subst. congruence.
  - rewrite (alias_chain_end_None st n' s t' n) in Hn; done.
Qed.

(** X10. When the alias chain of a symbol ends, after any number of links,
    at a symbol that is not an alias, [indirect_variable] returns that
    symbol and changes nothing. *)
Theorem indirect_variable_chain_end (st : state) (s t : sym_t) (n : nat) :
  alias_chain st n s = Some t →
  SYMBOL_ALIAS st t = None →
  indirect_variable s st = (Normal t, st).
Proof.
  intros Hn Ht.
  destruct (indirect_variable_loop_result st s (S (size (symbols st))) 0 s s)
    as [(t' & n' & Hr & Hn' & Ht')|(d & st' & _ & _ & Hcyc)];
    simpl; first [done | intros; lia | idtac].
  - unfold indirect_variable. rewrite Hr.
    by rewrite (alias_chain_end_unique st n n' s t t').
  - destruct (Hcyc (S n)) as [x Hx].
    by rewrite (alias_chain_end_None st n s t (S n)) in Hx by (done || lia).
Qed.

Lemma indirect_variable_chain_end_witness :
  indirect_variable SC st_alias = (Normal SA, st_alias).
Proof.
  apply (indirect_variable_chain_end st_alias SC SA 2);
    vm_compute; reflexivity.
Defined.

Lemma chase_alias_chain_end st s t n :
  alias_chain st n s = Some t → SYMBOL_ALIAS st t = None →
  chase_alias s st = (Normal t, st).
Proof.
  intros Hn Ht. unfold chase_alias.
  destruct (SYMBOL_REDIRECT st s) eqn:Hs;
    try (destruct n as [|n]; simpl in Hn;
         [by injection Hn as <-
         |unfold SYMBOL_ALIAS in Hn; by rewrite Hs in Hn]).
  by apply (indirect_variable_chain_end st s t n).
Qed.

Lemma SYMBOL_ALIAS_SET_SYMBOL_VAL st t old v s :
  SYMBOL_REDIRECT st t = SYMBOL_PLAINVAL old →
  SYMBOL_ALIAS (SET_SYMBOL_VAL t v st) s = SYMBOL_ALIAS st s.
Proof.
  intros Ht. unfold SYMBOL_ALIAS.
  destruct (decide (t = s)) as [->|Hne].
  - by rewrite SYMBOL_REDIRECT_SET_SYMBOL_VAL_eq, Ht.
  - unfold SYMBOL_REDIRECT, SET_SYMBOL_VAL, SET_SYMBOL_REDIRECT.
    by rewrite SYMBOL_SET_SYMBOL_ne.
Qed.

Lemma alias_chain_SET_SYMBOL_VAL st t old v n s :
  SYMBOL_REDIRECT st t = SYMBOL_PLAINVAL old →
  alias_chain (SET_SYMBOL_VAL t v st) n s = alias_chain st n s.
Proof.
  intros Ht. revert s. induction n as [|n IH]; intros s; simpl; [done|].
  rewrite (SYMBOL_ALIAS_SET_SYMBOL_VAL st t old) by done.
  destruct (SYMBOL_ALIAS st s); [apply IH|done].
Qed.

(** X11. [Fset] of a symbol whose alias chain ends at a plain variable
    stores the value in that variable and returns it; read back through the
    alias or through the end of the chain, the value is the one stored.  The
    test for a constant is made on the symbol given, before the chain is
    followed. *)
Theorem Fset_through_alias (st : state) (s t : sym_t) (n : nat)
    (old v : Lisp_Object) :
  alias_chain st n s = Some t →
  SYMBOL_REDIRECT st t = SYMBOL_PLAINVAL old →
  constant (SYMBOL st s) = false →
  Fset (LSym s) v st = (Normal v, SET_SYMBOL_VAL t v st)
  ∧ find_symbol_value (LSym s) (SET_SYMBOL_VAL t v st)
    = (Normal v, SET_SYMBOL_VAL t v st)
  ∧ find_symbol_value (LSym t) (SET_SYMBOL_VAL t v st)
    = (Normal v, SET_SYMBOL_VAL t v st).
Proof.
  intros Hn Ht Hconst.
  assert (SYMBOL_ALIAS st t = None) as Hend
    by (unfold SYMBOL_ALIAS; by rewrite Ht).
  assert (∀ x, SYMBOL_REDIRECT (SET_SYMBOL_VAL t x st) t = SYMBOL_PLAINVAL x)
    as Hnew by (intros; apply SYMBOL_REDIRECT_SET_SYMBOL_VAL_eq).
  assert (∀ s', alias_chain (SET_SYMBOL_VAL t v st) 0 s' = Some s') as H0
    by done.
  split; [|split].
  - unfold Fset, set_internal. simpl CHECK_SYMBOL. msteps.
    unfold SYMBOL_CONSTANT_P. rewrite Hconst. cbv iota. msteps.
    rewrite (bind_Normal _ _ _ _ _ (chase_alias_chain_end _ _ _ _ Hn Hend)).
    msteps. rewrite Ht. msteps. reflexivity.
  - unfold find_symbol_value. simpl CHECK_SYMBOL. msteps.
    erewrite bind_Normal.
    2:{ apply (chase_alias_chain_end _ s t n).
        - by rewrite (alias_chain_SET_SYMBOL_VAL st t old).
        - unfold SYMBOL_ALIAS. by rewrite Hnew. }
    msteps. by rewrite Hnew.
  - unfold find_symbol_value. simpl CHECK_SYMBOL. msteps.
    erewrite bind_Normal.
    2:{ apply (chase_alias_chain_end _ t t 0); [done|].
        unfold SYMBOL_ALIAS. by rewrite Hnew. }
    msteps. by rewrite Hnew.
Qed.

Lemma Fset_through_alias_witness :
  Fset (LSym SC) (LInt 7) st_alias
  = (Normal (LInt 7), SET_SYMBOL_VAL SA (LInt 7) st_alias)
  ∧ find_symbol_value (LSym SC) (SET_SYMBOL_VAL SA (LInt 7) st_alias)
    = (Normal (LInt 7), SET_SYMBOL_VAL SA (LInt 7) st_alias)
  ∧ find_symbol_value (LSym SA) (SET_SYMBOL_VAL SA (LInt 7) st_alias)
    = (Normal (LInt 7), SET_SYMBOL_VAL SA (LInt 7) st_alias).
Proof.
  apply (Fset_through_alias st_alias SC SA 2 (LInt 0) (LInt 7));
    vm_compute; reflexivity.
Defined.

Lemma chase_alias_not_alias st s :
  SYMBOL_ALIAS st s = None → chase_alias s st = (Normal s, st).
Proof. intros H. by apply (chase_alias_chain_end st s s 0). Qed.

Lemma chase_alias_forwarded st s f :
  SYMBOL_REDIRECT st s = SYMBOL_FORWARDED f →
  chase_alias s st = (Normal s, st).
Proof.
  intros H. apply chase_alias_not_alias. unfold SYMBOL_ALIAS. by rewrite H.
Qed.

Lemma Fset_plain st s old v :
  SYMBOL_REDIRECT st s = SYMBOL_PLAINVAL old →
  constant (SYMBOL st s) = false →
  Fset (LSym s) v st = (Normal v, SET_SYMBOL_VAL s v st).
Proof.
  intros Hplain Hconst.
  unfold Fset, set_internal. simpl CHECK_SYMBOL. msteps.
  unfold SYMBOL_CONSTANT_P. rewrite Hconst. cbv iota. msteps.
  rewrite (bind_Normal _ _ _ _ _ (chase_alias_plain _ _ _ Hplain)).
  msteps. rewrite Hplain. reflexivity.
Qed.

Lemma find_symbol_value_plain st s v :
  SYMBOL_REDIRECT st s = SYMBOL_PLAINVAL v →
  find_symbol_value (LSym s) st = (Normal v, st).
Proof.
  intros Hplain. unfold find_symbol_value. simpl CHECK_SYMBOL. msteps.
  rewrite (bind_Normal _ _ _ _ _ (chase_alias_plain _ _ _ Hplain)).
  msteps. by rewrite Hplain.
Qed.

(** X12. [Fset] of a constant whose value is not void: a keyword may be set
    to the value it has, which changes nothing; every other assignment to a
    constant signals [setting-constant] with the symbol as datum and
    changes nothing but the allocation of the datum. *)
Theorem Fset_constant (st : state) (s : sym_t) (val v : Lisp_Object) :
  constant (SYMBOL st s) = true →
  SYMBOL_REDIRECT st s = SYMBOL_PLAINVAL val →
  EQ val Qunbound = false →
  Fset (LSym s) v st
  = if keyword (SYMBOL st s) && EQ v val
    then (Normal v, st)
    else (Signal Qsetting_constant (LCons (next_addr st) (LSym s) Qnil),
          set_next_addr (S (next_addr st)) st).
Proof.
  intros Hconst Hplain Hbound.
  unfold Fset, set_internal. simpl CHECK_SYMBOL. msteps.
  unfold SYMBOL_CONSTANT_P, Fkeywordp. rewrite Hconst. cbv iota.
  destruct (keyword (SYMBOL st s)); cbn [negb andb]; [|reflexivity].
  msteps. unfold Fsymbol_value, find_symbol_value. simpl CHECK_SYMBOL.
  msteps.
  rewrite (bind_Normal _ _ _ _ _ (chase_alias_plain _ _ _ Hplain)). msteps.
  rewrite Hplain. msteps. rewrite Hbound. msteps.
  destruct (EQ v val); reflexivity.
Qed.

Lemma Fset_constant_witness :
  Fset (LSym Skey) (LSym Skey) st_keyword = (Normal (LSym Skey), st_keyword).
Proof.
  apply (Fset_constant st_keyword Skey (LSym Skey) (LSym Skey));
    vm_compute; reflexivity.
Defined.

Lemma XSETINT_fixnum n : FIXNUMP n → XSETINT n = LInt n.
Proof.
  unfold FIXNUMP, MOST_NEGATIVE_FIXNUM, MOST_POSITIVE_FIXNUM, XSETINT,
    FIXNUM_BITS.
  assert (2 ^ (62 - 1) = 2305843009213693952)%Z as -> by reflexivity.
  assert (2 ^ 62 = 4611686018427387904)%Z as -> by reflexivity.
  intros H. f_equal. rewrite Z.mod_small by lia. lia.
Qed.

(** X13. A variable forwarded to a C integer, not constant, accepts
    integers only.  [Fset] of a Lisp integer, which is a fixnum, stores it
    in the C variable, and the variable then reads as that integer: the
    C value is in the range that [XSETINT] keeps.  [Fset] of any other
    value but the void marker signals [wrong-type-argument] with
    [integerp] and the value, and the C variable and the symbol are
    unchanged. *)
Theorem Fset_int_forward (st : state) (s : sym_t) (iv : nat)
    (v : Lisp_Object) :
  SYMBOL_REDIRECT st s = SYMBOL_FORWARDED (Lisp_Fwd_Int iv) →
  constant (SYMBOL st s) = false →
  EQ v Qunbound = false →
  (∀ n, v = LInt n → FIXNUMP n) →
  match v with
  | LInt n =>
      Fset (LSym s) v st = (Normal v, set_intvar iv n st)
      ∧ find_symbol_value (LSym s) (set_intvar iv n st)
        = (Normal (LInt n), set_intvar iv n st)
  | _ =>
      ∃ d st',
        Fset (LSym s) v st = (Signal Qwrong_type_argument d, st')
        ∧ list_elements d = [Qintegerp; v]
        ∧ intvars st' = intvars st
        ∧ symbols st' = symbols st
  end.
Proof.
  intros Hfwd Hconst Hbound Hfix.
  assert (Fset (LSym s) v st
          = (store_symval_forwarding (Lisp_Fwd_Int iv) v
               (Some (current_buffer st)) ≫= λ _, ret v) st) as HFset.
  { unfold Fset, set_internal. simpl CHECK_SYMBOL. msteps.
    unfold SYMBOL_CONSTANT_P. rewrite Hconst. cbv iota. msteps.
    rewrite (bind_Normal _ _ _ _ _ (chase_alias_forwarded _ _ _ Hfwd)).
    msteps. rewrite Hfwd. unfold set_internal_forwarded. msteps.
    rewrite Hbound. reflexivity. }
  rewrite HFset. clear HFset.
  destruct v; try (eexists _, _; split; [reflexivity|done]).
  split; [reflexivity|].
  unfold find_symbol_value. simpl CHECK_SYMBOL. msteps.
  assert (SYMBOL_REDIRECT (set_intvar iv n st) s
          = SYMBOL_FORWARDED (Lisp_Fwd_Int iv)) as Hfwd' by exact Hfwd.
  rewrite (bind_Normal _ _ _ _ _ (chase_alias_forwarded _ _ _ Hfwd')).
  msteps. rewrite Hfwd'. cbn [do_symval_forwarding].
  rewrite intvar_set_intvar_eq. by rewrite (XSETINT_fixnum n (Hfix n eq_refl)).
Qed.

Lemma Fset_int_forward_witness :
  (Fset (LSym SB) (LInt 5) st_int_fwd
   = (Normal (LInt 5), set_intvar 20 5 st_int_fwd)
   ∧ find_symbol_value (LSym SB) (set_intvar 20 5 st_int_fwd)
     = (Normal (LInt 5), set_intvar 20 5 st_int_fwd))
  ∧ ∃ d st',
      Fset (LSym SB) Qt st_int_fwd = (Signal Qwrong_type_argument d, st')
      ∧ list_elements d = [Qintegerp; Qt]
      ∧ intvars st' = intvars st_int_fwd
      ∧ symbols st' = symbols st_int_fwd.
Proof.
  split.
  - apply (Fset_int_forward st_int_fwd SB 20 (LInt 5));
      [vm_compute; reflexivity | vm_compute; reflexivity
       | vm_compute; reflexivity |].
    intros n [= <-]. vm_compute. split; discriminate.
  - apply (Fset_int_forward st_int_fwd SB 20 Qt);
      [vm_compute; reflexivity | vm_compute; reflexivity
       | vm_compute; reflexivity | discriminate].
Defined.

(** X14. Storing the void marker in a variable that is forwarded to a C
    variable (not a per-buffer slot) ends the forwarding: the symbol becomes
    a plain void variable, a later [Fset] gives it a value of its own, and
    the C variable keeps the value it had. *)
Theorem makunbound_forwarded (st : state) (s : sym_t) (f : Lisp_Fwd)
    (v : Lisp_Object) :
  SYMBOL_REDIRECT st s = SYMBOL_FORWARDED f →
  constant (SYMBOL st s) = false →
  BUFFER_OBJFWDP f = false →
  ∃ st1 st2,
    Fset (LSym s) Qunbound st = (Normal Qunbound, st1)
    ∧ SYMBOL_REDIRECT st1 s = SYMBOL_PLAINVAL Qunbound
    ∧ Fset (LSym s) v st1 = (Normal v, st2)
    ∧ find_symbol_value (LSym s) st2 = (Normal v, st2)
    ∧ do_symval_forwarding st2 f = do_symval_forwarding st f.
Proof.
  intros Hfwd Hconst Hbuf.
  exists (SET_SYMBOL_VAL s Qunbound st),
         (SET_SYMBOL_VAL s v (SET_SYMBOL_VAL s Qunbound st)).
  assert (Fset (LSym s) Qunbound st
          = (Normal Qunbound, SET_SYMBOL_VAL s Qunbound st)) as H1.
  { unfold Fset, set_internal. simpl CHECK_SYMBOL. msteps.
    unfold SYMBOL_CONSTANT_P. rewrite Hconst. cbv iota. msteps.
    rewrite (bind_Normal _ _ _ _ _ (chase_alias_forwarded _ _ _ Hfwd)).
    msteps. rewrite Hfwd. unfold set_internal_forwarded. msteps.
    destruct f; try done; reflexivity. }
  split; [exact H1|].
  split; [apply SYMBOL_REDIRECT_SET_SYMBOL_VAL_eq|].
  split.
  { apply (Fset_plain _ s Qunbound).
    - apply SYMBOL_REDIRECT_SET_SYMBOL_VAL_eq.
    - by rewrite constant_SET_SYMBOL_VAL. }
  split.
  { apply find_symbol_value_plain, SYMBOL_REDIRECT_SET_SYMBOL_VAL_eq. }
  destruct f as [? | ? | [?|?] | ? ? | ?]; try done.
Qed.

Lemma makunbound_forwarded_witness :
  ∃ st1 st2,
    Fset (LSym SB) Qunbound st_int_fwd = (Normal Qunbound, st1)
    ∧ SYMBOL_REDIRECT st1 SB = SYMBOL_PLAINVAL Qunbound
    ∧ Fset (LSym SB) (LInt 9) st1 = (Normal (LInt 9), st2)
    ∧ find_symbol_value (LSym SB) st2 = (Normal (LInt 9), st2)
    ∧ do_symval_forwarding st2 (Lisp_Fwd_Int 20)
      = do_symval_forwarding st_int_fwd (Lisp_Fwd_Int 20).
Proof.
  apply (makunbound_forwarded st_int_fwd SB (Lisp_Fwd_Int 20) (LInt 9));
    vm_compute; reflexivity.
Defined.

Lemma BUFFER_SET_BUFFER_eq st b x : BUFFER (SET_BUFFER b x st) b = x.
Proof. unfold BUFFER, SET_BUFFER. simpl. by rewrite lookup_insert_eq. Qed.

Lemma BUFFER_SET_BUFFER_ne st b b' x :
  b ≠ b' → BUFFER (SET_BUFFER b x st) b' = BUFFER st b'.
Proof.
  intros. unfold BUFFER, SET_BUFFER. simpl. by rewrite lookup_insert_ne.
Qed.

Lemma Flocal_variable_p_per_buffer st s offset pred :
  SYMBOL_REDIRECT st s = SYMBOL_FORWARDED (Lisp_Fwd_Buffer_Obj offset pred) →
  Flocal_variable_p (LSym s) Qnil st
  = (Normal (if bool_decide (PER_BUFFER_IDX st offset = -1)%Z
                || PER_BUFFER_VALUE_P (BUFFER st (current_buffer st))
                     (PER_BUFFER_IDX st offset)
             then Qt else Qnil), st).
Proof.
  intros Hfwd. unfold Flocal_variable_p. msteps.
  change (NILP Qnil) with true. cbv iota. simpl CHECK_SYMBOL. msteps.
  rewrite (bind_Normal _ _ _ _ _ (chase_alias_forwarded _ _ _ Hfwd)).
  msteps. by rewrite Hfwd.
Qed.

Lemma find_symbol_value_forwarded st s f :
  SYMBOL_REDIRECT st s = SYMBOL_FORWARDED f →
  find_symbol_value (LSym s) st = (Normal (do_symval_forwarding st f), st).
Proof.
  intros Hfwd. unfold find_symbol_value. simpl CHECK_SYMBOL. msteps.
  rewrite (bind_Normal _ _ _ _ _ (chase_alias_forwarded _ _ _ Hfwd)).
  msteps. by rewrite Hfwd.
Qed.

(** [set_internal] of a per-buffer variable up to the call of
    [store_symval_forwarding]. *)
Lemma Fset_per_buffer_eq st s offset pred v :
  SYMBOL_REDIRECT st s = SYMBOL_FORWARDED (Lisp_Fwd_Buffer_Obj offset pred) →
  constant (SYMBOL st s) = false →
  (0 < PER_BUFFER_IDX st offset)%Z →
  let_shadows_buffer_binding_p st s = false →
  EQ v Qunbound = false →
  Fset (LSym s) v st
  = (store_symval_forwarding (Lisp_Fwd_Buffer_Obj offset pred) v
       (Some (current_buffer st)) ≫= λ _, ret v)
      (SET_BUFFER (current_buffer st)
         (SET_PER_BUFFER_VALUE_P (PER_BUFFER_IDX st offset) true
            (BUFFER st (current_buffer st))) st).
Proof.
  intros Hfwd Hconst Hidx Hlet Hbound.
  unfold Fset, set_internal. simpl CHECK_SYMBOL. msteps.
  unfold SYMBOL_CONSTANT_P. rewrite Hconst. cbv iota. msteps.
  rewrite (bind_Normal _ _ _ _ _ (chase_alias_forwarded _ _ _ Hfwd)).
  msteps. rewrite Hfwd. unfold set_internal_forwarded. msteps.
  rewrite Hlet, bool_decide_eq_true_2 by done. cbn [negb andb]. msteps.
  by rewrite Hbound.
Qed.

(** X15. [Fset] of a per-buffer variable with a flag index, outside any
    let-binding of it, with a value its type predicate accepts: the variable
    becomes local in the current buffer and has the value there; the other
    buffers and the default value are not touched. *)
Theorem Fset_per_buffer_makes_local (st : state) (s : sym_t) (offset : Z)
    (pred v : Lisp_Object) :
  SYMBOL_REDIRECT st s = SYMBOL_FORWARDED (Lisp_Fwd_Buffer_Obj offset pred) →
  constant (SYMBOL st s) = false →
  (0 < PER_BUFFER_IDX st offset)%Z →
  let_shadows_buffer_binding_p st s = false →
  EQ v Qunbound = false →
  negb (NILP pred) && negb (NILP v) = false
  ∨ call1_predicate pred v = Some true →
  ∃ st',
    Fset (LSym s) v st = (Normal v, st')
    ∧ find_symbol_value (LSym s) st' = (Normal v, st')
    ∧ Flocal_variable_p (LSym s) Qnil st' = (Normal Qt, st')
    ∧ (∀ b, b ≠ current_buffer st → BUFFER st' b = BUFFER st b)
    ∧ per_buffer_default st' offset = per_buffer_default st offset.
Proof.
  intros Hfwd Hconst Hidx Hlet Hbound Hpred.
  rewrite (Fset_per_buffer_eq st s offset pred v) by done.
  set (cur := current_buffer st). set (idx := PER_BUFFER_IDX st offset).
  set (st1 := SET_BUFFER cur
                (SET_PER_BUFFER_VALUE_P idx true (BUFFER st cur)) st).
  set (st2 := SET_BUFFER cur
                (set_per_buffer_value offset v (BUFFER st1 cur)) st1).
  assert ((store_symval_forwarding (Lisp_Fwd_Buffer_Obj offset pred) v
             (Some cur) ≫= λ _, ret v) st1 = (Normal v, st2)) as ->.
  { unfold store_symval_forwarding.
    destruct Hpred as [Hp|Hp]; rewrite Hp; [|destruct (_ && _)];
      msteps; reflexivity. }
  exists st2. split; [done|].
  assert (SYMBOL_REDIRECT st2 s
          = SYMBOL_FORWARDED (Lisp_Fwd_Buffer_Obj offset pred)) as Hfwd2
    by exact Hfwd.
  assert (BUFFER st2 cur
          = set_per_buffer_value offset v
              (SET_PER_BUFFER_VALUE_P idx true (BUFFER st cur))) as Hcur.
  { unfold st2. rewrite BUFFER_SET_BUFFER_eq. unfold st1.
    by rewrite BUFFER_SET_BUFFER_eq. }
  split.
  { rewrite (find_symbol_value_forwarded _ _ _ Hfwd2).
    cbn [do_symval_forwarding]. change (current_buffer st2) with cur.
    rewrite Hcur. unfold per_buffer_value, set_per_buffer_value. simpl.
    by rewrite lookup_insert_eq. }
  split.
  { rewrite (Flocal_variable_p_per_buffer _ _ _ _ Hfwd2).
    change (current_buffer st2) with cur.
    change (PER_BUFFER_IDX st2 offset) with idx.
    rewrite Hcur. unfold PER_BUFFER_VALUE_P. simpl.
    rewrite lookup_insert_eq. simpl. by rewrite orb_true_r. }
  split; [|done].
  intros b Hb. unfold st2, st1. by rewrite !BUFFER_SET_BUFFER_ne.
Qed.

Lemma Fset_per_buffer_makes_local_witness :
  ∃ st',
    Fset (LSym SB) (LInt 9) st_per_buffer = (Normal (LInt 9), st')
    ∧ find_symbol_value (LSym SB) st' = (Normal (LInt 9), st')
    ∧ Flocal_variable_p (LSym SB) Qnil st' = (Normal Qt, st')
    ∧ (∀ b, b ≠ current_buffer st_per_buffer →
            BUFFER st' b = BUFFER st_per_buffer b)
    ∧ per_buffer_default st' 8 = per_buffer_default st_per_buffer 8.
Proof.
  apply (Fset_per_buffer_makes_local st_per_buffer SB 8 Qnil (LInt 9));
    first [ left; reflexivity | vm_compute; reflexivity ].
Defined.

(** X16. [Fset] of a per-buffer variable that is not constant and has a
    positive flag index, outside any let-binding of it in the current
    buffer, with a value, neither [nil] nor the void marker, that its type
    predicate rejects: it signals [wrong-type-argument] with the predicate
    and the value, and the variable keeps its value; but the flag that
    makes it local in the current buffer has been set before the test, so
    the variable is local there from now on. *)
Theorem Fset_per_buffer_rejected_marks_local (st : state) (s : sym_t)
    (offset : Z) (pred v : Lisp_Object) :
  SYMBOL_REDIRECT st s = SYMBOL_FORWARDED (Lisp_Fwd_Buffer_Obj offset pred) →
  constant (SYMBOL st s) = false →
  (0 < PER_BUFFER_IDX st offset)%Z →
  let_shadows_buffer_binding_p st s = false →
  EQ v Qunbound = false →
  NILP pred = false → NILP v = false →
  call1_predicate pred v = Some false →
  ∃ d st',
    Fset (LSym s) v st = (Signal Qwrong_type_argument d, st')
    ∧ list_elements d = [pred; v]
    ∧ find_symbol_value (LSym s) st'
      = (Normal (per_buffer_value (BUFFER st (current_buffer st)) offset),
         st')
    ∧ Flocal_variable_p (LSym s) Qnil st' = (Normal Qt, st').
Proof.
  intros Hfwd Hconst Hidx Hlet Hbound Hp Hv Hcall.
  rewrite (Fset_per_buffer_eq st s offset pred v) by done.
  set (cur := current_buffer st). set (idx := PER_BUFFER_IDX st offset).
  set (st1 := SET_BUFFER cur
                (SET_PER_BUFFER_VALUE_P idx true (BUFFER st cur)) st).
  unfold store_symval_forwarding. rewrite Hp, Hv, Hcall. cbn [negb andb].
  unfold wrong_type_argument, xsignal2, list2, Fcons. msteps.
  rewrite !bind_fresh. msteps.
  eexists _, _. split; [reflexivity|]. split; [reflexivity|].
  match goal with |- context [find_symbol_value _ ?x] => set (st2 := x) end.
  assert (SYMBOL_REDIRECT st2 s
          = SYMBOL_FORWARDED (Lisp_Fwd_Buffer_Obj offset pred)) as Hfwd2
    by exact Hfwd.
  assert (BUFFER st2 cur = SET_PER_BUFFER_VALUE_P idx true (BUFFER st cur))
    as Hcur.
  { change (BUFFER st2 cur) with (BUFFER st1 cur). unfold st1.
    by rewrite BUFFER_SET_BUFFER_eq. }
  split.
  { rewrite (find_symbol_value_forwarded _ _ _ Hfwd2).
    cbn [do_symval_forwarding]. change (current_buffer st2) with cur.
    by rewrite Hcur. }
  rewrite (Flocal_variable_p_per_buffer _ _ _ _ Hfwd2).
  change (current_buffer st2) with cur.
  change (PER_BUFFER_IDX st2 offset) with idx.
  rewrite Hcur. unfold PER_BUFFER_VALUE_P. simpl.
  rewrite lookup_insert_eq. simpl. by rewrite orb_true_r.
Qed.

Lemma Fset_per_buffer_rejected_marks_local_witness :
  ∃ d st',
    Fset (LSym SB) Qt st_per_buffer_int = (Signal Qwrong_type_argument d, st')
    ∧ list_elements d = [Qintegerp; Qt]
    ∧ find_symbol_value (LSym SB) st'
      = (Normal
           (per_buffer_value
              (BUFFER st_per_buffer_int (current_buffer st_per_buffer_int))
              8),
         st')
    ∧ Flocal_variable_p (LSym SB) Qnil st' = (Normal Qt, st').
Proof.
  apply (Fset_per_buffer_rejected_marks_local st_per_buffer_int SB 8
           Qintegerp Qt); vm_compute; reflexivity.
Defined.

(** X17. [Fkill_local_variable] of a per-buffer variable with a flag
    index: the variable is no longer local in the current buffer and its
    value there is the default value; the other buffers and the default are
    not touched. *)
Theorem Fkill_local_variable_per_buffer (st : state) (s : sym_t)
    (offset : Z) (pred : Lisp_Object) :
  SYMBOL_REDIRECT st s = SYMBOL_FORWARDED (Lisp_Fwd_Buffer_Obj offset pred) →
  (0 < PER_BUFFER_IDX st offset)%Z →
  ∃ st',
    Fkill_local_variable (LSym s) st = (Normal (LSym s), st')
    ∧ find_symbol_value (LSym s) st'
      = (Normal (per_buffer_default st offset), st')
    ∧ Flocal_variable_p (LSym s) Qnil st' = (Normal Qnil, st')
    ∧ (∀ b, b ≠ current_buffer st → BUFFER st' b = BUFFER st b)
    ∧ per_buffer_default st' offset = per_buffer_default st offset.
Proof.
  intros Hfwd Hidx.
  unfold Fkill_local_variable. simpl CHECK_SYMBOL. msteps.
  rewrite (bind_Normal _ _ _ _ _ (chase_alias_forwarded _ _ _ Hfwd)).
  msteps. rewrite Hfwd. rewrite bool_decide_eq_true_2 by done. msteps.
  set (cur := current_buffer st). set (idx := PER_BUFFER_IDX st offset).
  eexists. split; [reflexivity|].
  match goal with |- context [find_symbol_value _ ?x] => set (st2 := x) end.
  assert (SYMBOL_REDIRECT st2 s
          = SYMBOL_FORWARDED (Lisp_Fwd_Buffer_Obj offset pred)) as Hfwd2
    by exact Hfwd.
  assert (BUFFER st2 cur
          = set_per_buffer_value offset (per_buffer_default st offset)
              (SET_PER_BUFFER_VALUE_P idx false (BUFFER st cur))) as Hcur.
  { unfold st2. by rewrite BUFFER_SET_BUFFER_eq. }
  split.
  { rewrite (find_symbol_value_forwarded _ _ _ Hfwd2).
    cbn [do_symval_forwarding]. change (current_buffer st2) with cur.
    rewrite Hcur. unfold per_buffer_value, set_per_buffer_value. simpl.
    by rewrite lookup_insert_eq. }
  split.
  { rewrite (Flocal_variable_p_per_buffer _ _ _ _ Hfwd2).
    change (current_buffer st2) with cur.
    change (PER_BUFFER_IDX st2 offset) with idx.
    rewrite Hcur. unfold PER_BUFFER_VALUE_P. simpl.
    rewrite lookup_insert_eq. simpl.
    rewrite bool_decide_eq_false_2 by (unfold idx; lia). done. }
  split; [|done].
  intros b Hb. unfold st2. by rewrite BUFFER_SET_BUFFER_ne.
Qed.

Lemma Fkill_local_variable_per_buffer_witness :
  ∃ st',
    Fkill_local_variable (LSym SB) st_per_buffer_1 = (Normal (LSym SB), st')
    ∧ find_symbol_value (LSym SB) st'
      = (Normal (per_buffer_default st_per_buffer_1 8), st')
    ∧ Flocal_variable_p (LSym SB) Qnil st' = (Normal Qnil, st')
    ∧ (∀ b, b ≠ current_buffer st_per_buffer_1 →
            BUFFER st' b = BUFFER st_per_buffer_1 b)
    ∧ per_buffer_default st' 8 = per_buffer_default st_per_buffer_1 8.
Proof.
  apply (Fkill_local_variable_per_buffer st_per_buffer_1 SB 8 Qnil);
    vm_compute; reflexivity.
Defined.
(** * Buffer-local values *)

Lemma SYMBOL_REDIRECT_SET_eq st s r :
  SYMBOL_REDIRECT (SET_SYMBOL_REDIRECT s r st) s = r.
Proof.
  unfold SYMBOL_REDIRECT, SET_SYMBOL_REDIRECT.
  by rewrite SYMBOL_SET_SYMBOL_eq.
Qed.

Lemma SYMBOL_REDIRECT_SET_ne st s s' r :
  s ≠ s' →
  SYMBOL_REDIRECT (SET_SYMBOL_REDIRECT s r st) s' = SYMBOL_REDIRECT st s'.
Proof.
  intros. unfold SYMBOL_REDIRECT, SET_SYMBOL_REDIRECT.
  by rewrite SYMBOL_SET_SYMBOL_ne.
Qed.

Lemma SET_SYMBOL_REDIRECT_twice st s r1 r2 :
  SET_SYMBOL_REDIRECT s r2 (SET_SYMBOL_REDIRECT s r1 st)
  = SET_SYMBOL_REDIRECT s r2 st.
Proof.
  unfold SET_SYMBOL_REDIRECT, SET_SYMBOL, SYMBOL. cbn.
  rewrite lookup_insert_eq, insert_insert_eq. reflexivity.
Qed.

Lemma SYMBOL_BLV_eq st s blv :
  SYMBOL_REDIRECT st s = SYMBOL_LOCALIZED blv → SYMBOL_BLV st s = blv.
Proof. intros H. unfold SYMBOL_BLV. by rewrite H. Qed.

Lemma modify_blv_run st s blv f :
  SYMBOL_REDIRECT st s = SYMBOL_LOCALIZED blv →
  modify_blv s f st
  = (Normal tt, SET_SYMBOL_REDIRECT s (SYMBOL_LOCALIZED (f blv)) st).
Proof.
  intros H. unfold modify_blv, modify. by rewrite (SYMBOL_BLV_eq _ _ _ H).
Qed.

Lemma chase_alias_localized st s blv :
  SYMBOL_REDIRECT st s = SYMBOL_LOCALIZED blv →
  chase_alias s st = (Normal s, st).
Proof.
  intros H. apply chase_alias_not_alias. unfold SYMBOL_ALIAS. by rewrite H.
Qed.

Lemma swap_in_symval_forwarding_reload st s blv :
  SYMBOL_REDIRECT st s = SYMBOL_LOCALIZED blv →
  frame_local blv = false →
  fwd blv = None →
  EQ (LBuffer (current_buffer st)) (blv_where blv) = false →
  swap_in_symval_forwarding s st
  = (Normal tt,
     SET_SYMBOL_REDIRECT s (SYMBOL_LOCALIZED (blv_loaded st s blv)) st).
Proof.
  intros Hred Hfl Hfwd Hwhere.
  unfold swap_in_symval_forwarding. msteps.
  rewrite (SYMBOL_BLV_eq _ _ _ Hred), Hfl, Hwhere.
  cbn [negb]. rewrite orb_true_r. unfold unload_binding. msteps.
  rewrite (SYMBOL_BLV_eq _ _ _ Hred), Hfwd. msteps.
  erewrite bind_Normal; [|by apply modify_blv_run].
  erewrite bind_Normal;
    [|by apply modify_blv_run, SYMBOL_REDIRECT_SET_eq].
  erewrite bind_Normal;
    [|by apply modify_blv_run, SYMBOL_REDIRECT_SET_eq].
  msteps. rewrite !SET_SYMBOL_REDIRECT_twice.
  rewrite (SYMBOL_BLV_eq _ _ _ (SYMBOL_REDIRECT_SET_eq _ _ _)).
  unfold blv_loaded, set_blv_valcell, set_blv_found, set_blv_where,
    Fcurrent_buffer.
  cbn [local_if_set frame_local found fwd blv_where defcell valcell].
  rewrite Hfwd. reflexivity.
Qed.

Lemma swap_in_symval_forwarding_hit st s blv :
  SYMBOL_REDIRECT st s = SYMBOL_LOCALIZED blv →
  frame_local blv = false →
  blv_where blv = LBuffer (current_buffer st) →
  swap_in_symval_forwarding s st = (Normal tt, st).
Proof.
  intros Hred Hfl Hwhere.
  unfold swap_in_symval_forwarding. msteps.
  rewrite (SYMBOL_BLV_eq _ _ _ Hred), Hfl, Hwhere.
  cbn [NILP EQ negb orb]. by rewrite bool_decide_eq_true_2.
Qed.

(** [blv_ok] looks at the symbol itself only through its redirection. *)
Lemma blv_ok_SET st s blv' :
  frame_local blv' = false →
  fwd blv' = None →
  found blv' = negb (bool_decide (valcell blv' = defcell blv')) →
  (∀ b, defcell blv' ∉ local_var_alist (BUFFER st b)) →
  (blv_where blv' = Qnil ∧ valcell blv' = defcell blv')
  ∨ (∃ b, blv_where blv' = LBuffer b
          ∧ valcell blv'
            = default (defcell blv')
                (assq_no_quit st (LSym s) (local_var_alist (BUFFER st b)))) →
  defcell blv' < next_addr st
  ∧ (∀ b c, c ∈ local_var_alist (BUFFER st b) → c < next_addr st) →
  blv_ok (SET_SYMBOL_REDIRECT s (SYMBOL_LOCALIZED blv') st) s blv'.
Proof.
  intros. constructor; try done. apply SYMBOL_REDIRECT_SET_eq.
Qed.

Lemma assq_no_quit_Some_elem st k l c :
  assq_no_quit st k l = Some c → c ∈ l.
Proof.
  unfold assq_no_quit. intros H. apply find_some in H as [H _].
  by apply list_elem_of_In.
Qed.

Lemma blv_loaded_found st s blv :
  (∀ b, defcell blv ∉ local_var_alist (BUFFER st b)) →
  found (blv_loaded st s blv)
  = negb (bool_decide (valcell (blv_loaded st s blv)
                       = defcell (blv_loaded st s blv))).
Proof.
  intros Hdef. unfold blv_loaded. cbn [found valcell defcell].
  destruct (assq_no_quit st (LSym s) _) as [c|] eqn:Hassq; cbn [default from_option id].
  - rewrite bool_decide_eq_true_2 by eauto.
    rewrite bool_decide_eq_false_2; [done|].
    intros ->. apply assq_no_quit_Some_elem in Hassq.
    by apply (Hdef (current_buffer st)).
  - rewrite bool_decide_eq_false_2 by (by intros [? ?]).
    by rewrite bool_decide_eq_true_2.
Qed.

(** X18. [find_symbol_value] of a buffer-local variable, whatever binding
    was loaded before: it returns the value of the variable in the current
    buffer, which is the value of the buffer's own binding if it has one and
    the default value otherwise; afterwards the binding of the current
    buffer is the loaded one, [found] tells whether it is the buffer's own,
    and the invariant of the variable holds again.  No binding cons and no
    buffer is changed. *)
Theorem find_symbol_value_localized (st : state) (s : sym_t)
    (blv : Lisp_Buffer_Local_Value) :
  blv_ok st s blv →
  ∃ st' blv',
    find_symbol_value (LSym s) st
    = (Normal (cell_cdr st (blv_cell st s)), st')
    ∧ blv_ok st' s blv'
    ∧ blv_where blv' = LBuffer (current_buffer st)
    ∧ valcell blv' = blv_cell st s
    ∧ found blv'
      = bool_decide
          (is_Some (assq_no_quit st (LSym s)
                      (local_var_alist (BUFFER st (current_buffer st)))))
    ∧ cells st' = cells st
    ∧ buffers st' = buffers st
    ∧ current_buffer st' = current_buffer st.
Proof.
  intros [Hred Hfl Hfwd Hfound Hdef Hwhere Halloc].
  unfold find_symbol_value. simpl CHECK_SYMBOL. msteps.
  rewrite (bind_Normal _ _ _ _ _ (chase_alias_localized _ _ _ Hred)).
  msteps. rewrite Hred.
  destruct (EQ (LBuffer (current_buffer st)) (blv_where blv)) eqn:Hhit.
  - (* the binding of the current buffer is loaded *)
    assert (blv_where blv = LBuffer (current_buffer st)) as Hcur.
    { destruct (blv_where blv); try done. simpl in Hhit.
      by apply bool_decide_eq_true_1 in Hhit as <-. }
    rewrite (bind_Normal _ _ _ _ _
               (swap_in_symval_forwarding_hit _ _ _ Hred Hfl Hcur)).
    msteps. rewrite (SYMBOL_BLV_eq _ _ _ Hred), Hfwd.
    assert (valcell blv = blv_cell st s) as Hval.
    { destruct Hwhere as [[Hnil _]|(b & Hb & Hv)]; [congruence|].
      rewrite Hcur in Hb. injection Hb as <-.
      unfold blv_cell. by rewrite (SYMBOL_BLV_eq _ _ _ Hred). }
    exists st, blv. unfold blv_value. rewrite Hval.
    split; [done|]. split; [done|]. split; [done|]. split; [done|].
    split; [|done].
    rewrite Hfound, Hval. unfold blv_cell.
    rewrite (SYMBOL_BLV_eq _ _ _ Hred).
    destruct (assq_no_quit st (LSym s) _) as [c|] eqn:Hassq; cbn [default from_option id].
    + rewrite (bool_decide_eq_true_2 (is_Some _)) by eauto.
      rewrite bool_decide_eq_false_2; [done|].
      intros ->. apply assq_no_quit_Some_elem in Hassq.
      by apply (Hdef (current_buffer st)).
    + rewrite (bool_decide_eq_false_2 (is_Some _)) by (by intros [? ?]).
      by rewrite bool_decide_eq_true_2.
  - (* another binding is loaded: the binding is looked up *)
    rewrite (bind_Normal _ _ _ _ _
               (swap_in_symval_forwarding_reload _ _ _ Hred Hfl Hfwd Hhit)).
    msteps.
    rewrite (SYMBOL_BLV_eq _ _ _ (SYMBOL_REDIRECT_SET_eq _ _ _)).
    assert (fwd (blv_loaded st s blv) = None) as -> by done.
    eexists _, (blv_loaded st s blv). split.
    { unfold blv_value, blv_cell. rewrite (SYMBOL_BLV_eq _ _ _ Hred).
      reflexivity. }
    split.
    { apply blv_ok_SET; try done.
      - by apply blv_loaded_found.
      - right. by exists (current_buffer st). }
    split; [done|]. split.
    { unfold blv_cell. by rewrite (SYMBOL_BLV_eq _ _ _ Hred). }
    done.
Qed.

Lemma find_symbol_value_reload st s blv :
  SYMBOL_REDIRECT st s = SYMBOL_LOCALIZED blv →
  frame_local blv = false →
  fwd blv = None →
  EQ (LBuffer (current_buffer st)) (blv_where blv) = false →
  find_symbol_value (LSym s) st
  = (Normal (cell_cdr st (valcell (blv_loaded st s blv))),
     SET_SYMBOL_REDIRECT s (SYMBOL_LOCALIZED (blv_loaded st s blv)) st).
Proof.
  intros Hred Hfl Hfwd Hmiss.
  unfold find_symbol_value. simpl CHECK_SYMBOL. msteps.
  rewrite (bind_Normal _ _ _ _ _ (chase_alias_localized _ _ _ Hred)).
  msteps. rewrite Hred.
  rewrite (bind_Normal _ _ _ _ _
             (swap_in_symval_forwarding_reload _ _ _ Hred Hfl Hfwd Hmiss)).
  msteps.
  rewrite (SYMBOL_BLV_eq _ _ _ (SYMBOL_REDIRECT_SET_eq _ _ _)).
  assert (fwd (blv_loaded st s blv) = None) as -> by done.
  reflexivity.
Qed.

Lemma bind_Fcons_cell {B} car cdr (k : addr → M B) (st : state) :
  (Fcons_cell car cdr ≫= k) st
  = k (next_addr st)
      (set_cells (<[next_addr st := (car, cdr)]> (cells st))
         (set_next_addr (S (next_addr st)) st)).
Proof. reflexivity. Qed.

Lemma BUFFER_fields st st' b :
  buffers st' = buffers st → BUFFER st' b = BUFFER st b.
Proof. unfold BUFFER. by intros ->. Qed.

Lemma cell_car_insert_ne st st' a x c :
  cells st' = <[a := x]> (cells st) → c ≠ a →
  cell_car st' c = cell_car st c.
Proof. unfold cell_car. intros -> ?. by rewrite lookup_insert_ne. Qed.

Lemma cell_cdr_insert_ne st st' a x c :
  cells st' = <[a := x]> (cells st) → c ≠ a →
  cell_cdr st' c = cell_cdr st c.
Proof. unfold cell_cdr. intros -> ?. by rewrite lookup_insert_ne. Qed.

Lemma cell_car_insert_eq st' m a x :
  cells st' = <[a := x]> m → cell_car st' a = x.1.
Proof. unfold cell_car. intros ->. rewrite lookup_insert_eq. by destruct x. Qed.

Lemma cell_cdr_insert_eq st' m a x :
  cells st' = <[a := x]> m → cell_cdr st' a = x.2.
Proof. unfold cell_cdr. intros ->. rewrite lookup_insert_eq. by destruct x. Qed.

Lemma cell_car_fields st st' c :
  cells st' = cells st → cell_car st' c = cell_car st c.
Proof. unfold cell_car. by intros ->. Qed.

Lemma cell_cdr_fields st st' c :
  cells st' = cells st → cell_cdr st' c = cell_cdr st c.
Proof. unfold cell_cdr. by intros ->. Qed.

Lemma assq_no_quit_ext st st' k l :
  (∀ c, c ∈ l → cell_car st' c = cell_car st c) →
  assq_no_quit st' k l = assq_no_quit st k l.
Proof.
  unfold assq_no_quit. induction l as [|c l IH]; intros H; [done|].
  simpl. rewrite (H c) by left. rewrite IH; [done|].
  intros c' Hc'. apply H. by right.
Qed.

Lemma assq_no_quit_cons_hit st k c l :
  EQ (cell_car st c) k = true → assq_no_quit st k (c :: l) = Some c.
Proof. intros H. unfold assq_no_quit. simpl. by rewrite H. Qed.

Lemma assq_no_quit_cons_miss st k c l :
  EQ (cell_car st c) k = false →
  assq_no_quit st k (c :: l) = assq_no_quit st k l.
Proof. intros H. unfold assq_no_quit. simpl. by rewrite H. Qed.

Lemma blv_loaded_None st s blv :
  assq_no_quit st (LSym s) (local_var_alist (BUFFER st (current_buffer st)))
  = None →
  blv_loaded st s blv
  = mk_blv (local_if_set blv) (frame_local blv) false (fwd blv)
      (LBuffer (current_buffer st)) (defcell blv) (defcell blv).
Proof.
  intros H. unfold blv_loaded. rewrite H. cbn [default from_option].
  rewrite bool_decide_eq_false_2; [done|]. by intros [? ?].
Qed.

Lemma blv_loaded_Some st s blv c :
  assq_no_quit st (LSym s) (local_var_alist (BUFFER st (current_buffer st)))
  = Some c →
  blv_loaded st s blv
  = mk_blv (local_if_set blv) (frame_local blv) true (fwd blv)
      (LBuffer (current_buffer st)) (defcell blv) c.
Proof.
  intros H. unfold blv_loaded. rewrite H. cbn [default from_option id].
  rewrite bool_decide_eq_true_2; [done|]. eauto.
Qed.

Ltac blv_fields :=
  unfold SYMBOL_BLV, SYMBOL_REDIRECT, SYMBOL; fields;
  repeat first [ rewrite lookup_insert_eq
               | rewrite lookup_insert_ne by congruence ];
  cbn [default from_option id set_redirect redirect].

(** The alists after a binding has been consed onto the alist of [cur]. *)
Lemma elem_of_cons_or_ne cur st' st a b c :
  local_var_alist (BUFFER st' cur) = a :: local_var_alist (BUFFER st cur) →
  (∀ b, b ≠ cur → BUFFER st' b = BUFFER st b) →
  c ∈ local_var_alist (BUFFER st' b) →
  c = a ∨ c ∈ local_var_alist (BUFFER st b).
Proof.
  intros Hcur Hother Hc. destruct (decide (b = cur)) as [->|Hne].
  - rewrite Hcur in Hc. by apply elem_of_cons in Hc.
  - right. by rewrite <- (Hother b).
Qed.

(** [Fmake_local_variable] of a plain variable, with what it leaves alone. *)
Lemma Fmake_local_variable_plain_run (st : state) (s : sym_t)
    (v0 : Lisp_Object) :
  SYMBOL_REDIRECT st s = SYMBOL_PLAINVAL v0 →
  constant (SYMBOL st s) = false →
  (∀ b c, c ∈ local_var_alist (BUFFER st b) → c < next_addr st) →
  assq_no_quit st (LSym s) (local_var_alist (BUFFER st (current_buffer st)))
  = None →
  ∃ st' blv,
    Fmake_local_variable (LSym s) st = (Normal (LSym s), st')
    ∧ blv_ok st' s blv
    ∧ local_if_set blv = false
    ∧ cell_cdr st' (blv_cell st' s) = v0
    ∧ cell_cdr st' (defcell blv) = v0
    ∧ is_Some (assq_no_quit st' (LSym s)
                 (local_var_alist (BUFFER st' (current_buffer st'))))
    ∧ current_buffer st' = current_buffer st
    ∧ (∀ b, b ≠ current_buffer st → BUFFER st' b = BUFFER st b)
    ∧ specpdl st' = specpdl st
    ∧ dynstack st' = dynstack st
    ∧ trace st' = trace st
    ∧ constant (SYMBOL st' s) = false
    ∧ ∀ c, c < next_addr st → cells st' !! c = cells st !! c.
Proof.
  intros Hplain Hconst Halloc Hnone.
  unfold Fmake_local_variable. simpl CHECK_SYMBOL. msteps.
  rewrite (bind_Normal _ _ _ _ _ (chase_alias_plain _ _ _ Hplain)).
  msteps. rewrite Hplain, Hconst. cbv iota. msteps.
  unfold make_blv. msteps. rewrite bind_Fcons_cell. msteps.
  set (d := next_addr st).
  set (blv0 := mk_blv false false false None Qnil d d).
  name_run s1.
  assert (∀ b, BUFFER s1 b = BUFFER st b) as Hbuf1
    by (intros; by apply BUFFER_fields).
  assert (assq_no_quit s1 (LSym s)
            (local_var_alist (BUFFER s1 (current_buffer s1))) = None)
    as Hnone1.
  { rewrite Hbuf1, Ecur_s1, <- Hnone. apply assq_no_quit_ext.
    intros c Hc. apply (cell_car_insert_ne st s1 d _ c Ecells_s1).
    apply Halloc in Hc. unfold d. lia. }
  rewrite Hnone1. cbv iota. msteps.
  erewrite bind_Normal.
  2:{ apply (find_symbol_value_reload s1 s blv0); try done.
      sym_fields. done. }
  rewrite (blv_loaded_None _ _ _ Hnone1).
  cbv beta.
  cbn [local_if_set frame_local fwd defcell blv0]. rewrite Ecur_s1.
  set (cur := current_buffer st) in *.
  set (blv1 := mk_blv false false false None (LBuffer cur) d d).
  name_run s2.
  assert (SYMBOL_BLV s2 s = blv1) as Hblv2. { blv_fields. done. }
  assert (cell_cdr s2 d = v0) as Hcdr2.
  { by rewrite (cell_cdr_insert_eq s2 _ d _ Ecells_s2). }
  rewrite !bind_assoc, bind_get_state, Hblv2. cbn [defcell blv1]. rewrite Hcdr2.
  rewrite !bind_assoc, bind_Fcons_cell, Enext_s2. rewrite !bind_assoc, bind_modify. cbv beta.
  name_run s3.
  assert (SYMBOL_BLV s3 s = blv1) as Hblv3 by (blv_fields; done).
  rewrite !bind_assoc, bind_get_state, Hblv3, Ecur_s3. cbn [blv_where blv1].
  rewrite EQ_refl. msteps.
  erewrite bind_Normal.
  2:{ apply (modify_blv_run s3 s blv1). sym_fields. done. }
  erewrite bind_Normal.
  2:{ apply modify_blv_run, SYMBOL_REDIRECT_SET_eq. }
  rewrite SET_SYMBOL_REDIRECT_twice.
  unfold set_blv_found, set_blv_where. cbn [local_if_set frame_local found fwd
    blv_where defcell valcell blv1].
  fold blv0.
  name_run s4.
  assert (SYMBOL_BLV s4 s = blv0) as Hblv4 by (blv_fields; done).
  rewrite bind_get_state, Hblv4. cbn [fwd blv0]. msteps.
  assert (local_var_alist (BUFFER s4 cur)
          = S d :: local_var_alist (BUFFER st cur)) as Halist4.
  { unfold BUFFER. rewrite Ebufs_s4, lookup_insert_eq. done. }
  assert (∀ b, b ≠ cur → BUFFER s4 b = BUFFER st b) as Hother4.
  { intros b Hb. unfold BUFFER. by rewrite Ebufs_s4, lookup_insert_ne. }
  assert (assq_no_quit s4 (LSym s) (local_var_alist (BUFFER s4 cur))
          = Some (S d)) as Hassq4.
  { rewrite Halist4. apply assq_no_quit_cons_hit.
    rewrite (cell_car_insert_eq s4 _ (S d) _ Ecells_s4). cbn [fst].
    by rewrite EQ_refl. }
  exists s4, blv0. split; [done|]. split.
  { constructor; try done.
    - sym_fields. done.
    - cbn [found valcell defcell blv0]. by rewrite bool_decide_eq_true_2.
    - intros b [Hd|Hd]%(elem_of_cons_or_ne cur s4 st (S d)); try done.
      + cbn [defcell blv0] in Hd. lia.
      + apply Halloc in Hd. cbn [defcell blv0] in Hd. unfold d in Hd. lia.
    - by left.
    - split; [cbn [defcell blv0]; lia|].
      intros b c [Hc|Hc]%(elem_of_cons_or_ne cur s4 st (S d)); try done.
      + lia.
      + apply Halloc in Hc. fold d in Hc. lia. }
  split; [done|]. split.
  { unfold blv_cell. rewrite Ecur_s4, Hassq4. cbn [default from_option id].
    by rewrite (cell_cdr_insert_eq s4 _ (S d) _ Ecells_s4). }
  split.
  { cbn [defcell blv0]. unfold cell_cdr. rewrite Ecells_s4.
    rewrite lookup_insert_ne by lia. by rewrite lookup_insert_eq. }
  split; [rewrite Ecur_s4, Hassq4; eauto|]. split; [done|]. split; [done|].
  split; [done|]. split; [done|]. split; [done|]. split.
  { sym_fields. done. }
  intros c Hc. rewrite Ecells_s4.
  rewrite !lookup_insert_ne by (unfold d; lia). done.
Qed.

(** X19. [Fmake_local_variable] of a plain variable that is not constant
    and has no binding in the current buffer yet: the variable becomes
    buffer-local with a binding of its own in the current buffer; its value
    there and its default value are the value it had; the invariant of the
    variable holds, and the other buffers are unchanged. *)
Theorem Fmake_local_variable_plain (st : state) (s : sym_t)
    (v0 : Lisp_Object) :
  SYMBOL_REDIRECT st s = SYMBOL_PLAINVAL v0 →
  constant (SYMBOL st s) = false →
  (∀ b c, c ∈ local_var_alist (BUFFER st b) → c < next_addr st) →
  assq_no_quit st (LSym s) (local_var_alist (BUFFER st (current_buffer st)))
  = None →
  ∃ st' blv,
    Fmake_local_variable (LSym s) st = (Normal (LSym s), st')
    ∧ blv_ok st' s blv
    ∧ local_if_set blv = false
    ∧ cell_cdr st' (blv_cell st' s) = v0
    ∧ cell_cdr st' (defcell blv) = v0
    ∧ is_Some (assq_no_quit st' (LSym s)
                 (local_var_alist (BUFFER st' (current_buffer st'))))
    ∧ current_buffer st' = current_buffer st
    ∧ (∀ b, b ≠ current_buffer st → BUFFER st' b = BUFFER st b).
Proof.
  intros Hplain Hconst Halloc Hnone.
  destruct (Fmake_local_variable_plain_run st s v0 Hplain Hconst Halloc Hnone)
    as (st' & blv & Hrun & Hok & Hlis & Hval & Hdef & Hown & Hcur & Hbuf & _).
  by exists st', blv.
Qed.

Lemma Fset_localized_eq st s blv v :
  SYMBOL_REDIRECT st s = SYMBOL_LOCALIZED blv →
  constant (SYMBOL st s) = false →
  Fset (LSym s) v st
  = (set_internal_localized s v Qnil false ≫= λ _, ret v) st.
Proof.
  intros Hred Hconst.
  unfold Fset, set_internal. simpl CHECK_SYMBOL. msteps.
  unfold SYMBOL_CONSTANT_P. rewrite Hconst. cbv iota. msteps.
  rewrite (bind_Normal _ _ _ _ _ (chase_alias_localized _ _ _ Hred)).
  msteps. by rewrite Hred.
Qed.

Lemma cell_car_XSETCDR_cell st c v c' :
  cell_car (XSETCDR_cell c v st) c' = cell_car st c'.
Proof.
  unfold cell_car, XSETCDR_cell. cbn [cells set_cells].
  destruct (decide (c = c')) as [->|Hne].
  - rewrite lookup_insert_eq. unfold cell_car. done.
  - by rewrite lookup_insert_ne.
Qed.

Lemma cell_cdr_XSETCDR_cell_eq st c v :
  cell_cdr (XSETCDR_cell c v st) c = v.
Proof.
  unfold cell_cdr, XSETCDR_cell. cbn [cells set_cells].
  by rewrite lookup_insert_eq.
Qed.

Lemma cell_cdr_XSETCDR_cell_ne st c v c' :
  c ≠ c' → cell_cdr (XSETCDR_cell c v st) c' = cell_cdr st c'.
Proof.
  intros. unfold cell_cdr, XSETCDR_cell. cbn [cells set_cells].
  by rewrite lookup_insert_ne.
Qed.

(** [blv_ok] after the binding of a buffer has been loaded and values of
    binding conses have changed. *)
Lemma blv_ok_loaded st st' s blv blv' b :
  blv_ok st s blv →
  SYMBOL_REDIRECT st' s = SYMBOL_LOCALIZED blv' →
  buffers st' = buffers st →
  (∀ c, cell_car st' c = cell_car st c) →
  next_addr st' = next_addr st →
  frame_local blv' = false → fwd blv' = None →
  defcell blv' = defcell blv →
  blv_where blv' = LBuffer b →
  valcell blv'
  = default (defcell blv)
      (assq_no_quit st (LSym s) (local_var_alist (BUFFER st b))) →
  found blv'
  = bool_decide
      (is_Some (assq_no_quit st (LSym s) (local_var_alist (BUFFER st b)))) →
  blv_ok st' s blv'.
Proof.
  intros [Hred Hfl Hfwd Hfound Hdef Hwhere Halloc] Hred' Hbufs Hcars Hnext
    Hfl' Hfwd' Hdef' Hwhere' Hval' Hfound'.
  assert (∀ b, BUFFER st' b = BUFFER st b) as Hbuf
    by (intros; by apply BUFFER_fields).
  assert (∀ l, assq_no_quit st' (LSym s) l = assq_no_quit st (LSym s) l)
    as Hassq by (intros; by apply assq_no_quit_ext).
  constructor; try done.
  - rewrite Hfound', Hval', Hdef'.
    destruct (assq_no_quit st (LSym s) _) as [c|] eqn:Hc;
      cbn [default from_option id].
    + rewrite (bool_decide_eq_true_2 (is_Some _)) by eauto.
      rewrite bool_decide_eq_false_2; [done|].
      intros ->. apply assq_no_quit_Some_elem in Hc. by apply (Hdef b).
    + rewrite (bool_decide_eq_false_2 (is_Some _)) by (by intros [? ?]).
      by rewrite bool_decide_eq_true_2.
  - intros b'. rewrite Hdef', Hbuf. apply Hdef.
  - right. exists b. split; [done|]. by rewrite Hdef', Hbuf, Hassq.
  - rewrite Hdef', Hnext. split; [apply Halloc|].
    intros b' c. rewrite Hbuf. apply Halloc.
Qed.

Ltac mnext := cbv beta; rewrite ?bind_assoc.

Lemma set_blv_value_tail st s blv v cur :
  SYMBOL_REDIRECT st s = SYMBOL_LOCALIZED blv →
  fwd blv = None →
  (set_blv_value s v
   ≫= λ _,
        (get_state
         ≫= λ st1,
              match fwd (SYMBOL_BLV st1 s) with
              | Some f =>
                  if EQ v Qunbound
                  then modify_blv s (set_blv_fwd None)
                  else store_symval_forwarding f v (Some cur)
              | None => ret ()
              end)
        ≫= λ _, ret v) st
  = (Normal v, XSETCDR_cell (valcell blv) v st).
Proof.
  intros Hred Hfwd. unfold set_blv_value. msteps.
  rewrite (SYMBOL_BLV_eq _ _ _ Hred).
  change (SYMBOL_BLV (XSETCDR_cell (valcell blv) v st) s)
    with (SYMBOL_BLV st s).
  rewrite (SYMBOL_BLV_eq _ _ _ Hred), Hfwd. reflexivity.
Qed.

Lemma localized_store_facts st s blv' x v :
  let st' := XSETCDR_cell x v
               (SET_SYMBOL_REDIRECT s (SYMBOL_LOCALIZED blv') st) in
  SYMBOL_REDIRECT st' s = SYMBOL_LOCALIZED blv'
  ∧ buffers st' = buffers st
  ∧ (∀ c, cell_car st' c = cell_car st c)
  ∧ next_addr st' = next_addr st
  ∧ current_buffer st' = current_buffer st
  ∧ cell_cdr st' x = v
  ∧ (∀ y, x ≠ y → cell_cdr st' y = cell_cdr st y).
Proof.
  intros st'. split; [apply SYMBOL_REDIRECT_SET_eq|]. split; [done|].
  split; [intros; unfold st'; by rewrite cell_car_XSETCDR_cell|].
  split; [done|]. split; [done|].
  split; [apply cell_cdr_XSETCDR_cell_eq|].
  intros y Hy. unfold st'. by rewrite cell_cdr_XSETCDR_cell_ne.
Qed.

(** X20. [Fset] of a buffer-local variable outside any let-binding of it:
    the variable has the new value in the current buffer afterwards and the
    invariant holds again.  If the buffer has a binding of its own, or the
    variable becomes local when set, the default value is unchanged and the
    buffer has a binding of its own afterwards; otherwise the new value is
    the default value, and the buffer still has no binding. *)
Theorem Fset_localized (st : state) (s : sym_t)
    (blv : Lisp_Buffer_Local_Value) (v : Lisp_Object) :
  blv_ok st s blv →
  constant (SYMBOL st s) = false →
  let_shadows_buffer_binding_p st s = false →
  ∃ st' blv',
    Fset (LSym s) v st = (Normal v, st')
    ∧ blv_ok st' s blv'
    ∧ current_buffer st' = current_buffer st
    ∧ cell_cdr st' (blv_cell st' s) = v
    ∧ defcell blv' = defcell blv
    ∧ (if bool_decide
            (is_Some
               (assq_no_quit st (LSym s)
                  (local_var_alist (BUFFER st (current_buffer st)))))
          || local_if_set blv
       then cell_cdr st' (defcell blv) = cell_cdr st (defcell blv)
            ∧ is_Some
                (assq_no_quit st' (LSym s)
                   (local_var_alist (BUFFER st' (current_buffer st'))))
       else cell_cdr st' (defcell blv) = v
            ∧ assq_no_quit st' (LSym s)
                (local_var_alist (BUFFER st' (current_buffer st')))
              = None).
Proof.
  intros Hok Hconst Hlet.
  pose proof Hok as [Hred Hfl Hfwd Hfound Hdef Hwhere Halloc].
  rewrite (Fset_localized_eq st s blv v Hred Hconst).
  unfold set_internal_localized. msteps.
  rewrite (SYMBOL_BLV_eq _ _ _ Hred), Hfl. change (NILP Qnil) with true.
  cbv iota. set (cur := current_buffer st).
  set (alist := local_var_alist (BUFFER st cur)).
  destruct (negb (EQ (blv_where blv) (LBuffer cur))
            || bool_decide (valcell blv = defcell blv)) eqn:Hreload.
  2:{ (* the binding of the current buffer is loaded, and is its own *)
      apply orb_false_elim in Hreload as [Hw Hv].
      apply negb_false_iff in Hw. apply bool_decide_eq_false_1 in Hv.
      assert (blv_where blv = LBuffer cur) as Hcur.
      { destruct (blv_where blv); try done. simpl in Hw.
        by apply bool_decide_eq_true_1 in Hw as ->. }
      destruct Hwhere as [[Hnil _]|(b & Hb & Hval)]; [congruence|].
      rewrite Hcur in Hb. injection Hb as <-. fold alist in Hval.
      destruct (assq_no_quit st (LSym s) alist) as [c|] eqn:Hassq;
        cbn [default from_option id] in Hval; [|done].
      msteps. unfold set_blv_value. msteps.
      rewrite (SYMBOL_BLV_eq _ _ _ Hred), Hval.
      change (SYMBOL_BLV (XSETCDR_cell c v st) s) with (SYMBOL_BLV st s).
      rewrite (SYMBOL_BLV_eq _ _ _ Hred), Hfwd. msteps.
      exists (XSETCDR_cell c v st), blv.
      split; [done|]. 
      assert (∀ l, assq_no_quit (XSETCDR_cell c v st) (LSym s) l
                   = assq_no_quit st (LSym s) l) as Hassq'.
      { intros. apply assq_no_quit_ext. intros.
        apply cell_car_XSETCDR_cell. }
      split.
      { apply (blv_ok_loaded st _ s blv blv cur); try done.
        - apply cell_car_XSETCDR_cell.
        - fold alist. by rewrite Hassq.
        - fold alist. rewrite Hassq, Hfound.
          rewrite bool_decide_eq_false_2 by done.
          rewrite bool_decide_eq_true_2; eauto. }
      split; [done|]. split.
      { unfold blv_cell.
        change (BUFFER (XSETCDR_cell c v st)) with (BUFFER st).
        change (current_buffer (XSETCDR_cell c v st)) with cur.
        fold alist. rewrite Hassq', Hassq. cbn [default from_option id].
        apply cell_cdr_XSETCDR_cell_eq. }
      split; [done|].
      rewrite (bool_decide_eq_true_2 (is_Some _)) by eauto. cbn [orb].
      split.
      - apply cell_cdr_XSETCDR_cell_ne. intros ->.
        apply assq_no_quit_Some_elem in Hassq. by apply (Hdef cur).
      - change (BUFFER (XSETCDR_cell c v st)) with (BUFFER st).
        change (current_buffer (XSETCDR_cell c v st)) with cur.
        fold alist. rewrite Hassq', Hassq. eauto. }
  unfold unload_binding. msteps.
  rewrite (SYMBOL_BLV_eq _ _ _ Hred), Hfwd. msteps.
  cbn [where_alist]. fold cur alist. rewrite !bind_assoc.
  erewrite bind_Normal; [|by apply modify_blv_run]. mnext.
  erewrite bind_Normal; [|by apply modify_blv_run, SYMBOL_REDIRECT_SET_eq].
  mnext. rewrite SET_SYMBOL_REDIRECT_twice. rewrite Hlet.
  unfold set_blv_found, set_blv_where.
  cbn [local_if_set frame_local found fwd blv_where defcell valcell].
  rewrite Hfl, Hfwd.
  set (blv1 := mk_blv (local_if_set blv) false true None (LBuffer cur)
                 (defcell blv) (valcell blv)).
  destruct (assq_no_quit st (LSym s) alist) as [c|] eqn:Hassq.
  - (* the buffer has a binding of its own *)
    rewrite bind_ret. mnext.
    erewrite bind_Normal; [|by apply modify_blv_run, SYMBOL_REDIRECT_SET_eq].
    mnext. rewrite SET_SYMBOL_REDIRECT_twice.
    unfold set_blv_valcell. 
    cbn [local_if_set frame_local found fwd blv_where defcell valcell blv1].
    erewrite set_blv_value_tail; [|apply SYMBOL_REDIRECT_SET_eq|done].
    cbn [valcell].
    match goal with
    | |- context [XSETCDR_cell c v (SET_SYMBOL_REDIRECT s (SYMBOL_LOCALIZED ?b) st)] =>
        set (blv2 := b);
        destruct (localized_store_facts st s blv2 c v)
          as (Hred' & Hbufs' & Hcars' & Hnext' & Hcur' & Hcdr' & Hcdr_ne');
        set (st' := XSETCDR_cell c v
                      (SET_SYMBOL_REDIRECT s (SYMBOL_LOCALIZED blv2) st)) in *
    end.
    assert (∀ l, assq_no_quit st' (LSym s) l = assq_no_quit st (LSym s) l)
      as Hassq' by (intros; by apply assq_no_quit_ext).
    assert (∀ b, BUFFER st' b = BUFFER st b) as Hbuf'
      by (intros; by apply BUFFER_fields).
    exists st', blv2. split; [done|]. split.
    { apply (blv_ok_loaded st st' s blv blv2 cur); try done.
      - fold alist. by rewrite Hassq.
      - fold alist. rewrite Hassq. cbn [found blv2].
        rewrite bool_decide_eq_true_2; eauto. }
    split; [done|]. split.
    { unfold blv_cell. rewrite Hcur', Hbuf', Hassq'. fold cur alist.
      by rewrite Hassq. }
    split; [done|].
    rewrite (bool_decide_eq_true_2 (is_Some _)) by eauto. cbn [orb].
    split.
    + apply Hcdr_ne'. intros Hc. rewrite Hc in Hassq.
      apply assq_no_quit_Some_elem in Hassq. by apply (Hdef cur).
    + rewrite Hcur', Hbuf', Hassq'. fold cur alist. rewrite Hassq. eauto.
  - (* the buffer has no binding of its own *)
    rewrite (bool_decide_eq_false_2 (is_Some None)) by (by intros [? ?]).
    cbn [orb].
    destruct (local_if_set blv) eqn:Hlis; cbn [negb orb]; cbv iota; mnext.
    + (* the variable becomes local when set: a binding is made *)
      rewrite bind_Fcons_cell. mnext. rewrite bind_modify. mnext.
      rewrite bind_ret. mnext.
      change (next_addr (SET_SYMBOL_REDIRECT s (SYMBOL_LOCALIZED blv1) st))
        with (next_addr st).
      set (d := next_addr st).
      name_run s2.
      erewrite bind_Normal.
      2:{ apply (modify_blv_run s2 s blv1). sym_fields. done. }
      mnext.
      erewrite set_blv_value_tail; [|apply SYMBOL_REDIRECT_SET_eq|done].
      unfold set_blv_valcell.
      cbn [local_if_set frame_local found fwd blv_where defcell valcell blv1].
      match goal with
      | |- context [XSETCDR_cell d v
                      (SET_SYMBOL_REDIRECT s (SYMBOL_LOCALIZED ?b) s2)] =>
          set (blv2 := b);
          destruct (localized_store_facts s2 s blv2 d v)
            as (Hred' & Hbufs' & Hcars' & Hnext' & Hcur' & Hcdr' & Hcdr_ne');
          set (st' := XSETCDR_cell d v
                        (SET_SYMBOL_REDIRECT s (SYMBOL_LOCALIZED blv2) s2))
            in *
      end.
      assert (local_var_alist (BUFFER st' cur) = d :: alist) as Halist'.
      { rewrite (BUFFER_fields s2 st') by done.
        unfold BUFFER. rewrite Ebufs_s2, lookup_insert_eq. done. }
      assert (∀ b, b ≠ cur → BUFFER st' b = BUFFER st b) as Hother'.
      { intros b Hb. rewrite (BUFFER_fields s2 st') by done.
        unfold BUFFER. by rewrite Ebufs_s2, lookup_insert_ne. }
      assert (cell_car st' d = LSym s) as Hcar_d.
      { rewrite Hcars'. by rewrite (cell_car_insert_eq s2 _ d _ Ecells_s2). }
      assert (assq_no_quit st' (LSym s) (local_var_alist (BUFFER st' cur))
              = Some d) as Hassq'.
      { rewrite Halist'. apply assq_no_quit_cons_hit.
        by rewrite Hcar_d, EQ_refl. }
      exists st', blv2. split; [done|]. split.
      { constructor; try done.
        - cbn [found valcell defcell blv2].
          rewrite bool_decide_eq_false_2; [done|].
          destruct Halloc as [Hd _]. fold d in Hd. lia.
        - intros b [Hd|Hd]%(elem_of_cons_or_ne cur st' st d); try done.
          + cbn [defcell blv2] in Hd. destruct Halloc as [Hlt _].
            fold d in Hlt. lia.
          + by apply (Hdef b).
        - right. exists cur. split; [done|]. by rewrite Hassq'.
        - rewrite Hnext', Enext_s2. cbn [defcell blv2].
          destruct Halloc as [Hlt Hcells]. fold d in Hlt, Hcells.
          split; [lia|].
          intros b c' [Hc|Hc]%(elem_of_cons_or_ne cur st' st d); try done.
          + lia.
          + apply Hcells in Hc. lia. }
      split; [by rewrite Hcur', Ecur_s2|]. split.
      { unfold blv_cell. rewrite Hcur', Ecur_s2. fold cur.
        by rewrite Hassq'. }
      split; [done|]. split.
      * rewrite Hcdr_ne' by (destruct Halloc as [Hlt _]; fold d in Hlt; lia).
        apply (cell_cdr_insert_ne st s2 d _ _ Ecells_s2).
        destruct Halloc as [Hlt _]. fold d in Hlt. lia.
      * rewrite Hcur', Ecur_s2. fold cur. rewrite Hassq'. eauto.
    + (* the default value is set *)
      erewrite bind_Normal;
        [|by apply modify_blv_run, SYMBOL_REDIRECT_SET_eq].
      mnext. rewrite SET_SYMBOL_REDIRECT_twice. rewrite bind_ret. mnext.
      erewrite bind_Normal;
        [|by apply modify_blv_run, SYMBOL_REDIRECT_SET_eq].
      mnext. rewrite SET_SYMBOL_REDIRECT_twice.
      erewrite set_blv_value_tail; [|apply SYMBOL_REDIRECT_SET_eq|done].
      unfold set_blv_valcell, set_blv_found.
      cbn [local_if_set frame_local found fwd blv_where defcell valcell blv1].
      match goal with
      | |- context [XSETCDR_cell ?x v
                      (SET_SYMBOL_REDIRECT s (SYMBOL_LOCALIZED ?b) st)] =>
          set (blv2 := b);
          destruct (localized_store_facts st s blv2 x v)
            as (Hred' & Hbufs' & Hcars' & Hnext' & Hcur' & Hcdr' & Hcdr_ne');
          set (st' := XSETCDR_cell x v
                        (SET_SYMBOL_REDIRECT s (SYMBOL_LOCALIZED blv2) st))
            in *
      end.
      assert (∀ l, assq_no_quit st' (LSym s) l = assq_no_quit st (LSym s) l)
        as Hassq' by (intros; by apply assq_no_quit_ext).
      assert (∀ b, BUFFER st' b = BUFFER st b) as Hbuf'
        by (intros; by apply BUFFER_fields).
      exists st', blv2. split; [done|]. split.
      { apply (blv_ok_loaded st st' s blv blv2 cur); try done.
        - fold alist. by rewrite Hassq.
        - fold alist. rewrite Hassq. cbn [found blv2].
          rewrite bool_decide_eq_false_2; [done|]. by intros [? ?]. }
      split; [done|]. split.
      { unfold blv_cell. rewrite Hcur', Hbuf', Hassq'. fold cur alist.
        rewrite Hassq. cbn [default from_option].
        by rewrite (SYMBOL_BLV_eq _ _ _ Hred'). }
      split; [done|]. split; [done|].
      rewrite Hcur', Hbuf', Hassq'. fold cur alist. done.
Qed.

Lemma EQ_sym x y : EQ x y = EQ y x.
Proof.
  destruct x, y; simpl; try done;
    apply bool_decide_ext; split; congruence.
Qed.

Lemma assq_no_quit_None_existsb st k l :
  assq_no_quit st k l = None →
  existsb (λ elt, EQ k (cell_car st elt)) l = false.
Proof.
  unfold assq_no_quit. induction l as [|c l IH]; simpl; [done|].
  rewrite (EQ_sym k). destruct (EQ (cell_car st c) k); [done|]. apply IH.
Qed.

Lemma Flocal_variable_p_localized_None st s blv :
  SYMBOL_REDIRECT st s = SYMBOL_LOCALIZED blv →
  assq_no_quit st (LSym s) (local_var_alist (BUFFER st (current_buffer st)))
  = None →
  found blv = false ∨ blv_where blv ≠ LBuffer (current_buffer st) →
  Flocal_variable_p (LSym s) Qnil st = (Normal Qnil, st).
Proof.
  intros Hred Hnone Hcase. unfold Flocal_variable_p. msteps.
  change (NILP Qnil) with true. cbv iota. simpl CHECK_SYMBOL. msteps.
  rewrite (bind_Normal _ _ _ _ _ (chase_alias_localized _ _ _ Hred)).
  msteps. rewrite Hred.
  destruct (EQ (blv_where blv) (LBuffer (current_buffer st))) eqn:Hw.
  - destruct Hcase as [->|Hne]; [done|]. exfalso. apply Hne.
    destruct (blv_where blv); try done. simpl in Hw.
    by apply bool_decide_eq_true_1 in Hw as ->.
  - by rewrite (assq_no_quit_None_existsb _ _ _ Hnone).
Qed.

(** X21. [Fkill_local_variable] of a buffer-local variable of which the
    current buffer holds one binding at most: afterwards the buffer has no
    binding of the variable, [Flocal_variable_p] gives [nil], the value in
    the buffer is the default value, no binding cons has changed and the
    invariant holds again. *)
Theorem Fkill_local_variable_localized (st : state) (s : sym_t)
    (blv : Lisp_Buffer_Local_Value) :
  blv_ok st s blv →
  (∀ c, assq_no_quit st (LSym s)
          (local_var_alist (BUFFER st (current_buffer st))) = Some c →
        assq_no_quit st (LSym s)
          (Fdelq c (local_var_alist (BUFFER st (current_buffer st))))
        = None) →
  ∃ st' blv',
    Fkill_local_variable (LSym s) st = (Normal (LSym s), st')
    ∧ blv_ok st' s blv'
    ∧ current_buffer st' = current_buffer st
    ∧ defcell blv' = defcell blv
    ∧ cells st' = cells st
    ∧ assq_no_quit st' (LSym s)
        (local_var_alist (BUFFER st' (current_buffer st')))
      = None
    ∧ cell_cdr st' (blv_cell st' s) = cell_cdr st (defcell blv)
    ∧ Flocal_variable_p (LSym s) Qnil st' = (Normal Qnil, st').
Proof.
  intros Hok Hone.
  pose proof Hok as [Hred Hfl Hfwd Hfound Hdef Hwhere Halloc].
  unfold Fkill_local_variable. simpl CHECK_SYMBOL. msteps.
  rewrite (bind_Normal _ _ _ _ _ (chase_alias_localized _ _ _ Hred)).
  msteps. rewrite Hred, Hfl. cbv iota.
  set (cur := current_buffer st) in *.
  set (alist := local_var_alist (BUFFER st cur)) in *.
  (* the state after the binding, if any, has been deleted *)
  assert (∃ s1,
            (match assq_no_quit st (LSym s) alist with
             | Some tem =>
                 modify (λ st0,
                   bset_local_var_alist (current_buffer st0)
                     (Fdelq tem
                        (local_var_alist (BUFFER st0 (current_buffer st0))))
                     st0)
             | None => ret ()
             end) st = (Normal tt, s1)
            ∧ symbols s1 = symbols st ∧ cells s1 = cells st
            ∧ next_addr s1 = next_addr st ∧ current_buffer s1 = cur
            ∧ (∀ b, b ≠ cur → BUFFER s1 b = BUFFER st b)
            ∧ (∀ c, c ∈ local_var_alist (BUFFER s1 cur) → c ∈ alist)
            ∧ assq_no_quit s1 (LSym s) (local_var_alist (BUFFER s1 cur))
              = None)
    as (s1 & Hrun1 & Esym & Ecells & Enext & Ecur & Hother & Hsub & Hnone).
  { destruct (assq_no_quit st (LSym s) alist) as [tem|] eqn:Hassq.
    - eexists. split; [reflexivity|]. fold cur alist.
      assert (local_var_alist
                (BUFFER (bset_local_var_alist cur (Fdelq tem alist) st) cur)
              = Fdelq tem alist) as Hal.
      { unfold bset_local_var_alist. by rewrite BUFFER_SET_BUFFER_eq. }
      split; [done|]. split; [done|]. split; [done|]. split; [done|].
      split.
      { intros b Hb. unfold bset_local_var_alist.
        by rewrite BUFFER_SET_BUFFER_ne. }
      rewrite Hal. split.
      { intros c Hc. unfold Fdelq in Hc.
        apply list_elem_of_In, filter_In in Hc as [Hc _].
        by apply list_elem_of_In. }
      rewrite <- (Hone tem eq_refl). by apply assq_no_quit_ext.
    - exists st. done. }
  rewrite ?bind_assoc. rewrite (bind_Normal _ _ _ _ _ Hrun1). mnext.
  assert (SYMBOL_REDIRECT s1 s = SYMBOL_LOCALIZED blv) as Hred1.
  { unfold SYMBOL_REDIRECT, SYMBOL. rewrite Esym. exact Hred. }
  assert (∀ c, cell_car s1 c = cell_car st c) as Hcars1
    by (intros; by apply cell_car_fields).
  assert (∀ b c, c ∈ local_var_alist (BUFFER s1 b)
                 → c ∈ local_var_alist (BUFFER st b)) as Hsub'.
  { intros b c. destruct (decide (b = cur)) as [->|Hne]; [apply Hsub|].
    by rewrite Hother. }
  rewrite bind_get_state, (SYMBOL_BLV_eq _ _ _ Hred1), Ecur.
  destruct (EQ (LBuffer cur) (blv_where blv)) eqn:Hhit.
  - (* the binding of the current buffer was loaded: it is looked up anew *)
    rewrite ?bind_assoc.
    erewrite bind_Normal; [|by apply modify_blv_run]. mnext.
    erewrite bind_Normal;
      [|by apply modify_blv_run, SYMBOL_REDIRECT_SET_eq].
    mnext. rewrite SET_SYMBOL_REDIRECT_twice.
    erewrite bind_Normal.
    2:{ apply find_symbol_value_reload.
        - apply SYMBOL_REDIRECT_SET_eq.
        - done.
        - done.
        - done. }
    mnext. rewrite SET_SYMBOL_REDIRECT_twice.
    rewrite blv_loaded_None by (rewrite <- Hnone, <- Ecur; reflexivity).
    unfold set_blv_found, set_blv_where.
    cbn [local_if_set frame_local found fwd blv_where defcell valcell
         current_buffer SET_SYMBOL_REDIRECT SET_SYMBOL set_symbols].
    rewrite Ecur, Hfl, Hfwd.
    set (blv2 := mk_blv (local_if_set blv) false false None (LBuffer cur)
                   (defcell blv) (defcell blv)).
    set (st' := SET_SYMBOL_REDIRECT s (SYMBOL_LOCALIZED blv2) s1).
    exists st', blv2. split; [done|].
    assert (SYMBOL_REDIRECT st' s = SYMBOL_LOCALIZED blv2) as Hred'
      by apply SYMBOL_REDIRECT_SET_eq.
    assert (assq_no_quit st' (LSym s)
              (local_var_alist (BUFFER st' (current_buffer st'))) = None)
      as Hnone' by (by rewrite <- Hnone, <- Ecur).
    split.
    { constructor; try done.
      - cbn [found valcell defcell blv2]. by rewrite bool_decide_eq_true_2.
      - intros b Hd. by apply (Hdef b), Hsub'.
      - right. exists cur. split; [done|].
        change (BUFFER st' cur) with (BUFFER s1 cur).
        change (assq_no_quit st') with (assq_no_quit s1).
        by rewrite Hnone.
      - change (next_addr st') with (next_addr s1). rewrite Enext.
        split; [apply Halloc|]. intros b c Hc.
        by apply (proj2 Halloc b), Hsub'. }
    split; [done|]. split; [done|]. split; [done|]. split; [done|].
    split.
    { unfold blv_cell. rewrite Hnone', (SYMBOL_BLV_eq _ _ _ Hred').
      by apply cell_cdr_fields. }
    apply (Flocal_variable_p_localized_None st' s blv2); try done.
    by left.
  - (* another binding, or none, was loaded *)
    msteps.
    assert (assq_no_quit s1 (LSym s)
              (local_var_alist (BUFFER s1 (current_buffer s1))) = None)
      as Hnone' by (by rewrite Ecur).
    exists s1, blv. split; [done|]. split.
    { constructor; try done.
      - intros b Hd. by apply (Hdef b), Hsub'.
      - destruct Hwhere as [?|(b & Hb & Hval)]; [by left|right].
        exists b. split; [done|].
        assert (b ≠ cur) as Hne.
        { intros ->. rewrite Hb in Hhit. simpl in Hhit.
          by rewrite bool_decide_eq_true_2 in Hhit. }
        rewrite Hother by done. rewrite Hval.
        f_equal. symmetry. by apply assq_no_quit_ext.
      - rewrite Enext. split; [apply Halloc|]. intros b c Hc.
        by apply (proj2 Halloc b), Hsub'. }
    split; [done|]. split; [done|]. split; [done|]. split; [done|].
    split.
    { unfold blv_cell. rewrite Hnone', (SYMBOL_BLV_eq _ _ _ Hred1).
      by apply cell_cdr_fields. }
    apply (Flocal_variable_p_localized_None s1 s blv); try done.
    right. rewrite Ecur. intros Hw. rewrite Hw in Hhit. simpl in Hhit.
    by rewrite bool_decide_eq_true_2 in Hhit.
Qed.

(** [blv_ok] from conditions on the buffer table that can be computed. *)
Lemma BUFFER_Forall (P : buffer → Prop) st :
  P empty_buffer → map_Forall (λ _, P) (buffers st) → ∀ b, P (BUFFER st b).
Proof.
  intros He Hall b. unfold BUFFER.
  destruct (buffers st !! b) as [buf|] eqn:Hb; [|done].
  by apply (Hall b).
Qed.

Lemma alists_allocated_check st :
  map_Forall (λ _ buf, Forall (λ c, c < next_addr st) (local_var_alist buf))
    (buffers st) →
  ∀ b c, c ∈ local_var_alist (BUFFER st b) → c < next_addr st.
Proof.
  intros Hall b c Hc.
  pose proof (BUFFER_Forall
                (λ buf, Forall (λ c, c < next_addr st) (local_var_alist buf))
                st (Forall_nil_2 _) Hall b) as H.
  by apply (proj1 (Forall_forall _ _) H).
Qed.

Lemma blv_ok_check st s blv :
  SYMBOL_REDIRECT st s = SYMBOL_LOCALIZED blv →
  frame_local blv = false →
  fwd blv = None →
  found blv = negb (bool_decide (valcell blv = defcell blv)) →
  map_Forall (λ _ buf, defcell blv ∉ local_var_alist buf) (buffers st) →
  match blv_where blv with
  | LBuffer b =>
      valcell blv
      = default (defcell blv)
          (assq_no_quit st (LSym s) (local_var_alist (BUFFER st b)))
  | w => w = Qnil ∧ valcell blv = defcell blv
  end →
  defcell blv < next_addr st →
  map_Forall (λ _ buf, Forall (λ c, c < next_addr st) (local_var_alist buf))
    (buffers st) →
  blv_ok st s blv.
Proof.
  intros Hred Hfl Hfwd Hfound Hdef Hwhere Hd Halloc.
  constructor; try done.
  - apply (BUFFER_Forall (λ buf, defcell blv ∉ local_var_alist buf));
      [|done].
    apply not_elem_of_nil.
  - destruct (blv_where blv) as [| | | | | b |] eqn:Hw;
      try (left; destruct Hwhere; by split).
    right. by exists b.
  - split; [done|]. by apply alists_allocated_check.
Qed.

Ltac compute_ok :=
  first [ apply (bool_decide_unpack _); vm_compute; exact I
        | vm_compute; first [reflexivity | split; reflexivity | lia] ].


Lemma find_symbol_value_localized_witness :
  ∃ st' blv',
    find_symbol_value (LSym SA) st_local_1
    = (Normal (cell_cdr st_local_1 (blv_cell st_local_1 SA)), st')
    ∧ blv_ok st' SA blv'
    ∧ blv_where blv' = LBuffer (current_buffer st_local_1)
    ∧ valcell blv' = blv_cell st_local_1 SA
    ∧ found blv'
      = bool_decide
          (is_Some
             (assq_no_quit st_local_1 (LSym SA)
                (local_var_alist
                   (BUFFER st_local_1 (current_buffer st_local_1)))))
    ∧ cells st' = cells st_local_1
    ∧ buffers st' = buffers st_local_1
    ∧ current_buffer st' = current_buffer st_local_1.
Proof.
  apply (find_symbol_value_localized st_local_1 SA blv_local).
  apply blv_ok_check; compute_ok.
Defined.

Lemma Fmake_local_variable_plain_witness :
  ∃ st' blv,
    Fmake_local_variable (LSym SA) st_A0 = (Normal (LSym SA), st')
    ∧ blv_ok st' SA blv
    ∧ local_if_set blv = false
    ∧ cell_cdr st' (blv_cell st' SA) = LInt 0
    ∧ cell_cdr st' (defcell blv) = LInt 0
    ∧ is_Some (assq_no_quit st' (LSym SA)
                 (local_var_alist (BUFFER st' (current_buffer st'))))
    ∧ current_buffer st' = current_buffer st_A0
    ∧ (∀ b, b ≠ current_buffer st_A0 → BUFFER st' b = BUFFER st_A0 b).
Proof.
  apply (Fmake_local_variable_plain st_A0 SA (LInt 0));
    first [ apply alists_allocated_check; compute_ok | compute_ok ].
Defined.

Lemma Fset_localized_witness :
  ∃ st' blv',
    Fset (LSym SA) (LInt 5) st_local_1 = (Normal (LInt 5), st')
    ∧ blv_ok st' SA blv'
    ∧ current_buffer st' = current_buffer st_local_1
    ∧ cell_cdr st' (blv_cell st' SA) = LInt 5
    ∧ defcell blv' = defcell blv_local
    ∧ cell_cdr st' (defcell blv_local) = LInt 5
    ∧ assq_no_quit st' (LSym SA)
        (local_var_alist (BUFFER st' (current_buffer st')))
      = None.
Proof.
  destruct (Fset_localized st_local_1 SA blv_local (LInt 5))
    as (st' & blv' & H1 & H2 & H3 & H4 & H5 & H6);
    [apply blv_ok_check; compute_ok | compute_ok | compute_ok |].
  exists st', blv'. exact (conj H1 (conj H2 (conj H3 (conj H4 (conj H5 H6))))).
Defined.

Lemma Fkill_local_variable_localized_witness :
  ∃ st' blv',
    Fkill_local_variable (LSym SA) st_local = (Normal (LSym SA), st')
    ∧ blv_ok st' SA blv'
    ∧ current_buffer st' = current_buffer st_local
    ∧ defcell blv' = defcell blv_local
    ∧ cells st' = cells st_local
    ∧ assq_no_quit st' (LSym SA)
        (local_var_alist (BUFFER st' (current_buffer st')))
      = None
    ∧ cell_cdr st' (blv_cell st' SA) = cell_cdr st_local (defcell blv_local)
    ∧ Flocal_variable_p (LSym SA) Qnil st' = (Normal Qnil, st').
Proof.
  apply (Fkill_local_variable_localized st_local SA blv_local).
  - apply blv_ok_check; compute_ok.
  - intros c Hc. vm_compute in Hc. injection Hc as <-.
    vm_compute. reflexivity.
Defined.
(** * Calling a closure *)

Lemma Flist_run (l : list Lisp_Object) (st : state) :
  ∃ x, Flist l st = (Normal x, set_next_addr (length l + next_addr st) st)
       ∧ list_elements x = l ∧ list_end x = Qnil.
Proof.
  revert st. induction l as [|a l IH]; intros st.
  - exists Qnil. split; [|done]. simpl. by destruct st.
  - destruct (IH st) as (x & Hx & Hel & Hend).
    exists (LCons (length l + next_addr st) a x). split; [|by simpl; rewrite Hel].
    cbn [Flist]. rewrite (bind_Normal _ _ _ _ _ Hx). reflexivity.
Qed.

Lemma plain_parameter_EQ s :
  plain_parameter s →
  EQ (LSym s) Qand_rest = false ∧ EQ (LSym s) Qand_optional = false.
Proof.
  intros [H1 H2]. simpl. by rewrite !bool_decide_eq_false_2.
Qed.

(** One parameter of the loop of [funcall_lambda] that is bound lexically. *)
Lemma funcall_lambda_loop_step fun_ args k s d i optional rest lexenv st :
  plain_parameter s →
  CONSP lexenv = true →
  funcall_lambda_loop fun_ args (LCons k (LSym s) d) i optional rest lexenv st
  = (ai ←
       (if rest
        then a ← Flist (drop i args); ret (a, length args)
        else
          match args !! i with
          | Some a => ret (a, S i)
          | None =>
              if negb optional
              then xsignal2 Qwrong_number_of_arguments fun_
                     (LInt (Z.of_nat (length args)))
              else ret (Qnil, i)
          end);
     lexenv' ← (b ← Fcons (LSym s) (fst ai); Fcons b lexenv);
     funcall_lambda_loop fun_ args d (snd ai) optional rest lexenv') st.
Proof.
  intros [H1 H2]%plain_parameter_EQ Henv.
  assert (NILP lexenv = false) as Hnil by (by destruct lexenv).
  cbn [funcall_lambda_loop SYMBOLP negb]. rewrite H1, H2, Hnil.
  reflexivity.
Qed.


Lemma set_next_addr_twice n m st :
  set_next_addr n (set_next_addr m st) = set_next_addr n st.
Proof. reflexivity. Qed.

Lemma env_pairs_cons k k' s a lexenv :
  env_pairs (LCons k (LCons k' s a) lexenv) = (s, a) :: env_pairs lexenv.
Proof. reflexivity. Qed.

(** The required parameters, when there are arguments enough. *)
Lemma funcall_lambda_loop_required fun_ args req :
  Forall plain_parameter req →
  ∀ syms tail i lexenv st,
    lisp_prefix (LSym <$> req) tail syms →
    CONSP lexenv = true →
    i + length req ≤ length args →
    ∃ lexenv' n,
      funcall_lambda_loop fun_ args syms i false false lexenv st
      = funcall_lambda_loop fun_ args tail (i + length req) false false
          lexenv' (set_next_addr n st)
      ∧ CONSP lexenv' = true
      ∧ env_pairs lexenv'
        = reverse (zip (LSym <$> req)
                     (optional_arg args <$> seq i (length req)))
          ++ env_pairs lexenv.
Proof.
  induction 1 as [|s req Hs Hreq IH]; intros syms tail i lexenv st Hsyms Henv Hi.
  - simpl in Hsyms. subst syms. exists lexenv, (next_addr st).
    replace (i + length (@nil sym_t)) with i by (simpl; lia).
    split; [by destruct st|]. done.
  - destruct Hsyms as (k & d & -> & Hd). cbn [length] in Hi.
    rewrite funcall_lambda_loop_step by done.
    destruct (args !! i) as [a|] eqn:Ha.
    2:{ apply lookup_ge_None in Ha. lia. }
    rewrite bind_ret. cbn [fst snd]. rewrite !bind_assoc, bind_Fcons.
    rewrite bind_Fcons.
    match goal with
    | |- context [funcall_lambda_loop _ _ d (S i) _ _ ?e ?t] =>
        destruct (IH d tail (S i) e t Hd) as (lexenv' & n & Hrun & Hnil & Hpairs);
          [done | lia |]
    end.
    exists lexenv', n. rewrite Hrun. split.
    { replace (i + length (s :: req)) with (S i + length req)
        by (simpl; lia). reflexivity. }
    split; [done|]. rewrite Hpairs, env_pairs_cons.
    cbn [length seq fmap list_fmap zip zip_with].
    rewrite reverse_cons, <- app_assoc. unfold optional_arg at 3.
    rewrite Ha. reflexivity.
Qed.

(** The required parameters, when the arguments run out. *)
Lemma funcall_lambda_loop_too_few fun_ args req :
  Forall plain_parameter req →
  ∀ syms tail i lexenv st,
    lisp_prefix (LSym <$> req) tail syms →
    CONSP lexenv = true →
    i ≤ length args →
    length args < i + length req →
    ∃ d st',
      funcall_lambda_loop fun_ args syms i false false lexenv st
      = (Signal Qwrong_number_of_arguments d, st')
      ∧ list_elements d = [fun_; LInt (Z.of_nat (length args))]
      ∧ ∃ n, st' = set_next_addr n st.
Proof.
  induction 1 as [|s req Hs Hreq IH]; intros syms tail i lexenv st Hsyms Henv Hle Hi.
  - simpl in Hi. lia.
  - destruct Hsyms as (k & d & -> & Hd). cbn [length] in Hi.
    rewrite funcall_lambda_loop_step by done.
    destruct (args !! i) as [a|] eqn:Ha.
    + pose proof (lookup_lt_Some _ _ _ Ha) as Hlt.
      rewrite bind_ret. cbn [fst snd]. rewrite !bind_assoc, bind_Fcons.
      rewrite bind_Fcons.
      match goal with
      | |- context [funcall_lambda_loop _ _ d (S i) _ _ ?e ?t] =>
          destruct (IH d tail (S i) e t Hd) as (dd & st' & Hrun & Hd' & n & ->);
            [done | lia | lia |]
      end.
      exists dd, (set_next_addr n st). rewrite Hrun. split; [done|].
      split; [done|]. by exists n.
    + cbn [negb]. eexists _, _. split; [reflexivity|]. split; [done|].
      by eexists.
Qed.

(** The optional parameters. *)
Lemma funcall_lambda_loop_optional fun_ args opt :
  Forall plain_parameter opt →
  ∀ syms tail i lexenv st,
    lisp_prefix (LSym <$> opt) tail syms →
    CONSP lexenv = true →
    i ≤ length args →
    ∃ lexenv' n,
      funcall_lambda_loop fun_ args syms i true false lexenv st
      = funcall_lambda_loop fun_ args tail
          (Nat.min (i + length opt) (length args)) true false
          lexenv' (set_next_addr n st)
      ∧ CONSP lexenv' = true
      ∧ env_pairs lexenv'
        = reverse (zip (LSym <$> opt)
                     (optional_arg args <$> seq i (length opt)))
          ++ env_pairs lexenv.
Proof.
  induction 1 as [|s opt Hs Hopt IH]; intros syms tail i lexenv st Hsyms Henv Hi.
  - simpl in Hsyms. subst syms. exists lexenv, (next_addr st).
    cbn [length]. rewrite Nat.add_0_r, Nat.min_l by lia.
    split; [by destruct st|]. done.
  - destruct Hsyms as (k & d & -> & Hd). cbn [length].
    rewrite funcall_lambda_loop_step by done.
    destruct (args !! i) as [a|] eqn:Ha.
    + pose proof (lookup_lt_Some _ _ _ Ha) as Hlt.
      rewrite bind_ret. cbn [fst snd]. rewrite !bind_assoc, bind_Fcons.
      rewrite bind_Fcons.
      match goal with
      | |- context [funcall_lambda_loop _ _ d (S i) _ _ ?e ?t] =>
          destruct (IH d tail (S i) e t Hd) as (lexenv' & n & Hrun & Hnil & Hpairs);
            [done | lia |]
      end.
      exists lexenv', n. rewrite Hrun. split.
      { replace (Nat.min (i + S (length opt)) (length args))
          with (Nat.min (S i + length opt) (length args)) by lia.
        reflexivity. }
      split; [done|]. rewrite Hpairs, env_pairs_cons.
      cbn [seq fmap list_fmap zip zip_with].
      rewrite reverse_cons, <- app_assoc. unfold optional_arg at 3.
      rewrite Ha. reflexivity.
    + pose proof (lookup_ge_None_1 _ _ Ha) as Hge.
      assert (i = length args) as Ei by lia.
      cbn [negb]. rewrite bind_ret. cbn [fst snd].
      rewrite !bind_assoc, bind_Fcons. rewrite bind_Fcons.
      match goal with
      | |- context [funcall_lambda_loop _ _ d i _ _ ?e ?t] =>
          destruct (IH d tail i e t Hd) as (lexenv' & n & Hrun & Hnil & Hpairs);
            [done | lia |]
      end.
      exists lexenv', n. rewrite Hrun. split.
      { replace (Nat.min (i + S (length opt)) (length args))
          with (Nat.min (i + length opt) (length args)) by lia.
        reflexivity. }
      split; [done|]. rewrite Hpairs, env_pairs_cons.
      cbn [seq fmap list_fmap zip zip_with].
      rewrite reverse_cons, <- app_assoc. unfold optional_arg at 3.
      rewrite Ha. cbn [default from_option id].
      do 3 f_equal.
      (* the parameters after the first that has no argument *)
      apply list_eq. intros j. rewrite !list_lookup_fmap.
      destruct (decide (j < length opt)) as [Hj|Hj].
      * rewrite !lookup_seq_lt by done. cbn [fmap option_fmap option_map].
        unfold optional_arg.
        rewrite (lookup_ge_None_2 args (i + j)) by lia.
        rewrite (lookup_ge_None_2 args (S i + j)) by lia. done.
      * rewrite !lookup_seq_ge by lia. done.
Qed.

(** The markers. *)
Lemma funcall_lambda_loop_and_optional fun_ args k d i optional rest lexenv :
  funcall_lambda_loop fun_ args (LCons k Qand_optional d) i optional rest
    lexenv
  = funcall_lambda_loop fun_ args d i true rest lexenv.
Proof. reflexivity. Qed.

Lemma funcall_lambda_loop_and_rest fun_ args k d i optional rest lexenv :
  funcall_lambda_loop fun_ args (LCons k Qand_rest d) i optional rest lexenv
  = funcall_lambda_loop fun_ args d i optional true lexenv.
Proof. reflexivity. Qed.

(** The parameter after [&rest]. *)
Lemma funcall_lambda_loop_rest fun_ args k r i optional lexenv st :
  plain_parameter r →
  CONSP lexenv = true →
  ∃ lexenv' n l,
    funcall_lambda_loop fun_ args (LCons k (LSym r) Qnil) i optional true
      lexenv st
    = (Normal (Qnil, length args, lexenv'), set_next_addr n st)
    ∧ CONSP lexenv' = true
    ∧ env_pairs lexenv' = (LSym r, l) :: env_pairs lexenv
    ∧ list_elements l = drop i args ∧ list_end l = Qnil.
Proof.
  intros Hr Henv. rewrite funcall_lambda_loop_step by done.
  destruct (Flist_run (drop i args) st) as (l & Hl & Hel & Hend).
  rewrite !bind_assoc. rewrite (bind_Normal _ _ _ _ _ Hl).
  rewrite bind_ret. cbn [fst snd]. rewrite !bind_assoc, bind_Fcons.
  rewrite bind_Fcons. cbn [funcall_lambda_loop].
  eexists _, _, l. split; [reflexivity|]. done.
Qed.

Lemma lisp_prefix_app l1 l2 tail x :
  lisp_prefix (l1 ++ l2) tail x →
  ∃ mid, lisp_prefix l1 mid x ∧ lisp_prefix l2 tail mid.
Proof.
  revert x. induction l1 as [|a l1 IH]; intros x H.
  - by exists x.
  - destruct H as (k & d & -> & Hd). destruct (IH d Hd) as (mid & H1 & H2).
    exists mid. split; [|done]. by exists k, d.
Qed.

(** What is left of the loop after the positional parameters. *)
Lemma funcall_lambda_loop_tail fun_ args rest syms i optional lexenv st :
  from_option plain_parameter True rest →
  lisp_prefix (match rest with Some r => [Qand_rest; LSym r] | None => [] end)
    Qnil syms →
  CONSP lexenv = true →
  ∃ lexenv' n,
    funcall_lambda_loop fun_ args syms i optional false lexenv st
    = (Normal (Qnil, match rest with Some _ => length args | None => i end,
            lexenv'),
       set_next_addr n st)
    ∧ CONSP lexenv' = true
    ∧ ∃ bs,
        env_pairs lexenv' = bs ++ env_pairs lexenv
        ∧ match rest with
          | Some r =>
              ∃ l, bs = [(LSym r, l)]
                   ∧ list_elements l = drop i args ∧ list_end l = Qnil
          | None => bs = []
          end.
Proof.
  intros Hr Hsyms Henv. destruct rest as [r|].
  - destruct Hsyms as (k & d & -> & k' & d' & -> & ->).
    rewrite funcall_lambda_loop_and_rest.
    destruct (funcall_lambda_loop_rest fun_ args k' r i optional lexenv st)
      as (lexenv' & n & l & Hrun & Hnil & Hpairs & Hl); [done..|].
    exists lexenv', n. split; [done|]. split; [done|].
    exists [(LSym r, l)]. split; [done|]. by exists l.
  - simpl in Hsyms. subst syms. exists lexenv, (next_addr st).
    split; [by destruct st|]. split; [done|]. by exists [].
Qed.

(** The whole loop on a lambda list, when the required parameters have
    their arguments. *)
Lemma funcall_lambda_loop_lambda_list fun_ args req opt rest syms lexenv st :
  Forall plain_parameter req →
  Forall plain_parameter opt →
  from_option plain_parameter True rest →
  lisp_prefix (lambda_list req opt rest) Qnil syms →
  CONSP lexenv = true →
  length req ≤ length args →
  ∃ lexenv' n,
    funcall_lambda_loop fun_ args syms 0 false false lexenv st
    = (Normal (Qnil,
               match rest with
               | Some _ => length args
               | None => Nat.min (length req + length opt) (length args)
               end,
               lexenv'),
       set_next_addr n st)
    ∧ CONSP lexenv' = true
    ∧ ∃ bs,
        env_pairs lexenv'
        = bs
          ++ reverse (zip (LSym <$> req ++ opt)
                        (optional_arg args
                           <$> seq 0 (length req + length opt)))
          ++ env_pairs lexenv
        ∧ match rest with
          | Some r =>
              ∃ l, bs = [(LSym r, l)]
                   ∧ list_elements l
                     = drop (length req + length opt) args
                   ∧ list_end l = Qnil
          | None => bs = []
          end.
Proof.
  intros Hreq Hopt Hrest Hsyms Henv Hn. unfold lambda_list in Hsyms.
  apply lisp_prefix_app in Hsyms as (mid & Hsreq & Hmid).
  apply lisp_prefix_app in Hmid as (mid' & Hsopt & Hsrest).
  destruct (funcall_lambda_loop_required fun_ args req Hreq syms mid 0
              lexenv st Hsreq Henv Hn)
    as (lexenv1 & n1 & Hrun1 & Hnil1 & Hpairs1).
  rewrite Hrun1. cbn [Nat.add].
  assert (∃ lexenv2 n2 optional,
            funcall_lambda_loop fun_ args mid (length req) false false
              lexenv1 (set_next_addr n1 st)
            = funcall_lambda_loop fun_ args mid'
                (Nat.min (length req + length opt) (length args))
                optional false lexenv2 (set_next_addr n2 st)
            ∧ CONSP lexenv2 = true
            ∧ env_pairs lexenv2
              = reverse (zip (LSym <$> opt)
                           (optional_arg args
                              <$> seq (length req) (length opt)))
                ++ env_pairs lexenv1) as (lexenv2 & n2 & optional & Hrun2
                                          & Hnil2 & Hpairs2).
  { destruct opt as [|o opt].
    - simpl in Hsopt. subst mid'. exists lexenv1, n1, false.
      cbn [length]. rewrite Nat.add_0_r, Nat.min_l by lia. done.
    - destruct Hsopt as (k & d & -> & Hd).
      rewrite funcall_lambda_loop_and_optional.
      destruct (funcall_lambda_loop_optional fun_ args (o :: opt) Hopt d mid'
                  (length req) lexenv1 (set_next_addr n1 st) Hd Hnil1 Hn)
        as (lexenv2 & n2 & Hrun2 & Hnil2 & Hpairs2).
      exists lexenv2, n2, true. done. }
  rewrite Hrun2.
  destruct (funcall_lambda_loop_tail fun_ args rest mid'
              (Nat.min (length req + length opt) (length args)) optional
              lexenv2 (set_next_addr n2 st) Hrest Hsrest Hnil2)
    as (lexenv3 & n3 & Hrun3 & Hnil3 & bs & Hpairs3 & Hbs).
  exists lexenv3, n3. rewrite Hrun3. split; [done|]. split; [done|].
  exists bs. split.
  - rewrite Hpairs3, Hpairs2, Hpairs1. f_equal. rewrite app_assoc. f_equal.
    rewrite <- reverse_app. f_equal.
    rewrite fmap_app, seq_app, fmap_app, zip_with_app; [done|].
    by rewrite !length_fmap, length_seq.
  - destruct rest as [r|]; [|done].
    destruct Hbs as (l & -> & Hl & Hend). exists l. split; [done|].
    split; [|done]. rewrite Hl.
    destruct (decide (length req + length opt ≤ length args)).
    + by rewrite Nat.min_l by lia.
    + rewrite Nat.min_r by lia. by rewrite !drop_ge by lia.
Qed.

(** [specbind] of a variable forwarded to a C variable that holds a Lisp
    object. *)
Lemma specbind_1_objfwd st s a value :
  SYMBOL_REDIRECT st s = SYMBOL_FORWARDED (Lisp_Fwd_Obj (Objvar a)) →
  constant (SYMBOL st s) = false →
  (SPECPDL_INDEX st + 1 < specpdl_size st)%Z →
  EQ value Qunbound = false →
  specbind_1 (LSym s) value st
  = (Normal tt,
     set_dynstack (W_unwinder U_unbind_once true :: dynstack st)
       (set_objvars (<[a := value]> (objvars st))
          (set_specpdl
             (mk_specbinding SPECPDL_LET (LSym s) (objvar st a)
                (Fcurrent_buffer st) :: specpdl st) st))).
Proof.
  intros Hfwd Hconst Hroom Hbound. unfold specbind_1. simpl CHECK_SYMBOL.
  msteps.
  rewrite (bind_Normal _ _ _ _ _ (chase_alias_forwarded _ _ _ Hfwd)). msteps.
  rewrite Hfwd. msteps.
  rewrite (bind_Normal _ _ _ _ _ (find_symbol_value_forwarded _ _ _ Hfwd)).
  msteps. rewrite Hfwd. cbn [BUFFER_OBJFWDP do_symval_forwarding].
  rewrite bind_assoc.
  rewrite (bind_Normal _ _ _ _ _ (grow_specpdl_room _ _ Hroom)).
  match goal with |- context [set_specpdl ?l st] => set (s1 := set_specpdl l st) end.
  assert (SYMBOL_REDIRECT s1 s = SYMBOL_FORWARDED (Lisp_Fwd_Obj (Objvar a)))
    as Hfwd1 by exact Hfwd.
  unfold set_internal. simpl CHECK_SYMBOL. msteps.
  unfold SYMBOL_CONSTANT_P.
  change (constant (SYMBOL s1 s)) with (constant (SYMBOL st s)).
  rewrite Hconst. cbv iota. msteps.
  rewrite (bind_Normal _ _ _ _ _ (chase_alias_forwarded _ _ _ Hfwd1)).
  msteps. rewrite Hfwd1. unfold set_internal_forwarded. msteps.
  rewrite Hbound. reflexivity.
Qed.


(** [funcall_lambda] on a closure, up to the loop over the formals. *)
Lemma funcall_lambda_bind_closure k0 k1 k2 env formals body args st :
  funcall_lambda_bind
    (LCons k0 Qclosure (LCons k1 env (LCons k2 formals body))) args st
  = (r ← funcall_lambda_loop (LCons k1 env (LCons k2 formals body)) args
           formals 0 false false env;
     let '(syms_left, i, lexenv) := r in
     (if negb (NILP syms_left)
      then xsignal1 Qinvalid_function (LCons k1 env (LCons k2 formals body))
      else if bool_decide (i < length args)
      then xsignal2 Qwrong_number_of_arguments
             (LCons k1 env (LCons k2 formals body))
             (LInt (Z.of_nat (length args)))
      else ret tt);;
     st ← get_state;
     when (negb (EQ lexenv (objvar st a_Vinternal_interpreter_environment)))
       (specbind_1 Qinternal_interpreter_environment lexenv);;
     ret body) (set_dynstack (W_frame :: dynstack st) st).
Proof.
  unfold funcall_lambda_bind, dynwind_begin. msteps.
  cbn [CONSP XCAR XCDR]. change (EQ Qclosure Qclosure) with true. cbv iota.
  msteps. cbn [fst snd CONSP XCAR XCDR]. msteps. reflexivity.
Qed.

(** X22. [funcall_lambda] on a closure with a lexical environment and the
    lambda list [(req... &optional opt... &rest r)], where the interpreter
    environment is [nil] at the call: with fewer arguments than required
    parameters, or without [&rest] and more arguments than parameters, it
    signals [wrong-number-of-arguments] with the function without its
    [closure] marker and the number of arguments, and nothing is bound
    dynamically; otherwise it reaches the body with the interpreter
    environment bound to the closure's environment extended, innermost
    first, by the [&rest] parameter with a fresh list of the other
    arguments, and by the positional parameters, each with its argument, or
    [nil] for an optional parameter without one. *)
Theorem funcall_lambda_arity (st : state) (k0 k1 k2 : addr)
    (env formals body : Lisp_Object) (req opt : list sym_t)
    (rest : option sym_t) (args : list Lisp_Object) :
  Forall plain_parameter req →
  Forall plain_parameter opt →
  from_option plain_parameter True rest →
  lisp_prefix (lambda_list req opt rest) Qnil formals →
  CONSP env = true →
  SYMBOL_REDIRECT st Sinternal_interpreter_environment
  = SYMBOL_FORWARDED (Lisp_Fwd_Obj (Objvar a_Vinternal_interpreter_environment)) →
  constant (SYMBOL st Sinternal_interpreter_environment) = false →
  objvar st a_Vinternal_interpreter_environment = Qnil →
  (SPECPDL_INDEX st + 1 < specpdl_size st)%Z →
  if bool_decide (length args < length req
                  ∨ rest = None ∧ length req + length opt < length args)
  then
    ∃ d n,
      funcall_lambda_bind
        (LCons k0 Qclosure (LCons k1 env (LCons k2 formals body))) args st
      = (Signal Qwrong_number_of_arguments d,
         set_next_addr n (set_dynstack (W_frame :: dynstack st) st))
      ∧ list_elements d
        = [LCons k1 env (LCons k2 formals body);
           LInt (Z.of_nat (length args))]
  else
    ∃ lexenv' bs st',
      funcall_lambda_bind
        (LCons k0 Qclosure (LCons k1 env (LCons k2 formals body))) args st
      = (Normal body, st')
      ∧ objvar st' a_Vinternal_interpreter_environment = lexenv'
      ∧ env_pairs lexenv'
        = bs
          ++ reverse (zip (LSym <$> req ++ opt)
                        (optional_arg args
                           <$> seq 0 (length req + length opt)))
          ++ env_pairs env
      ∧ match rest with
        | Some r =>
            ∃ l, bs = [(LSym r, l)]
                 ∧ list_elements l = drop (length req + length opt) args
                 ∧ list_end l = Qnil
        | None => bs = []
        end
      ∧ specpdl st'
        = mk_specbinding SPECPDL_LET Qinternal_interpreter_environment Qnil
            (Fcurrent_buffer st) :: specpdl st
      ∧ dynstack st'
        = W_unwinder U_unbind_once true :: W_frame :: dynstack st
      ∧ symbols st' = symbols st.
Proof.
  intros Hreq Hopt Hrest Hformals Henv Hfwd Hconst HV Hroom.
  rewrite funcall_lambda_bind_closure.
  set (s1 := set_dynstack (W_frame :: dynstack st) st).
  set (fun' := LCons k1 env (LCons k2 formals body)).
  destruct (decide (length args < length req)) as [Hfew|Hfew].
  { rewrite bool_decide_eq_true_2 by (by left).
    unfold lambda_list in Hformals.
    apply lisp_prefix_app in Hformals as (mid & Hsreq & _).
    destruct (funcall_lambda_loop_too_few fun' args req Hreq formals mid 0
                env s1 Hsreq Henv) as (d & st' & Hrun & Hd & n & ->);
      [lia | simpl; lia |].
    exists d, n. rewrite (bind_Signal _ _ _ _ _ _ Hrun). done. }
  destruct (funcall_lambda_loop_lambda_list fun' args req opt rest formals
              env s1 Hreq Hopt Hrest Hformals Henv)
    as (lexenv' & n & Hrun & Hnil' & bs & Hpairs & Hbs); [lia|].
  rewrite (bind_Normal _ _ _ _ _ Hrun).
  change (NILP Qnil) with true. cbn [negb]. cbv iota.
  destruct (decide (rest = None ∧ length req + length opt < length args))
    as [[-> Hmany]|Hmany].
  { rewrite bool_decide_eq_true_2 by (by right).
    rewrite bool_decide_eq_true_2 by lia.
    eexists _, _. split; [reflexivity|]. done. }
  rewrite (bool_decide_eq_false_2 (_ ∨ _)) by tauto.
  rewrite (bool_decide_eq_false_2 (_ < _)).
  2:{ destruct rest; [lia|]. 
      assert (¬ length req + length opt < length args) by tauto. lia. }
  msteps.
  change (objvar (set_next_addr n s1) a_Vinternal_interpreter_environment)
    with (objvar st a_Vinternal_interpreter_environment).
  rewrite HV. replace (EQ lexenv' Qnil) with false by (by destruct lexenv').
  cbn [negb when]. rewrite ?bind_assoc.
  erewrite bind_Normal.
  2:{ apply (specbind_1_objfwd _ Sinternal_interpreter_environment
               a_Vinternal_interpreter_environment);
        [exact Hfwd | exact Hconst | exact Hroom |].
      destruct lexenv'; try done. }
  exists lexenv', bs. eexists. split; [reflexivity|].
  split.
  { unfold objvar. cbn [objvars set_dynstack set_objvars].
    by rewrite lookup_insert_eq. }
  split; [exact Hpairs|]. split; [exact Hbs|].
  split.
  { cbn [specpdl set_dynstack set_objvars set_specpdl].
    change (objvar (set_next_addr n s1) a_Vinternal_interpreter_environment)
      with (objvar st a_Vinternal_interpreter_environment).
    rewrite HV. reflexivity. }
  split; reflexivity.
Qed.

Lemma funcall_lambda_arity_witness :
  ∃ lexenv' bs st',
    funcall_lambda_bind closure_test [LInt 1; LInt 2; LInt 3; LInt 4] st_A0
    = (Normal Qnil, st')
    ∧ objvar st' a_Vinternal_interpreter_environment = lexenv'
    ∧ env_pairs lexenv'
      = bs ++ [(LSym SB, LInt 2); (LSym SA, LInt 1)]
        ++ env_pairs closure_env_test
    ∧ (∃ l, bs = [(LSym SC, l)]
            ∧ list_elements l = [LInt 3; LInt 4] ∧ list_end l = Qnil)
    ∧ specpdl st'
      = [mk_specbinding SPECPDL_LET Qinternal_interpreter_environment Qnil
           (LBuffer 0)]
    ∧ dynstack st' = [W_unwinder U_unbind_once true; W_frame]
    ∧ symbols st' = symbols st_A0.
Proof.
  apply (funcall_lambda_arity st_A0 320 321 322 closure_env_test
           closure_formals_test Qnil [SA] [SB] (Some SC)
           [LInt 1; LInt 2; LInt 3; LInt 4]).
  - by repeat constructor.
  - by repeat constructor.
  - by split.
  - vm_compute. eauto 20.
  - reflexivity.
  - vm_compute; reflexivity.
  - vm_compute; reflexivity.
  - vm_compute; reflexivity.
  - vm_compute; reflexivity.
Defined.
(** * Default values of buffer-local variables *)

(** X23. [Fmake_variable_buffer_local] of a plain variable that is not
    constant: the variable becomes buffer-local with [local_if_set] on and
    no binding loaded but the default one, in a fresh cons; its default
    value is the value it had, or [nil] if it was unbound; the invariant of
    the variable holds; no buffer gets a binding and no cons that existed
    is changed. *)
Theorem Fmake_variable_buffer_local_plain (st : state) (s : sym_t)
    (v0 : Lisp_Object) :
  SYMBOL_REDIRECT st s = SYMBOL_PLAINVAL v0 →
  constant (SYMBOL st s) = false →
  (∀ b c, c ∈ local_var_alist (BUFFER st b) → c < next_addr st) →
  ∃ st' blv,
    Fmake_variable_buffer_local (LSym s) st = (Normal (LSym s), st')
    ∧ blv_ok st' s blv
    ∧ local_if_set blv = true
    ∧ found blv = false
    ∧ cell_cdr st' (defcell blv) = (if EQ v0 Qunbound then Qnil else v0)
    ∧ buffers st' = buffers st
    ∧ current_buffer st' = current_buffer st
    ∧ ∀ c, c < next_addr st → cells st' !! c = cells st !! c.
Proof.
  intros Hplain Hconst Halloc.
  unfold Fmake_variable_buffer_local. simpl CHECK_SYMBOL. msteps.
  rewrite (bind_Normal _ _ _ _ _ (chase_alias_plain _ _ _ Hplain)).
  msteps. rewrite Hplain, Hconst. cbv iota. msteps.
  unfold make_blv. msteps. rewrite bind_Fcons_cell. msteps.
  set (d := next_addr st).
  set (blv0 := mk_blv false false false None Qnil d d).
  erewrite bind_Normal.
  2:{ apply modify_blv_run, SYMBOL_REDIRECT_SET_eq. }
  rewrite SET_SYMBOL_REDIRECT_twice.
  unfold set_blv_local_if_set. cbn [local_if_set frame_local found fwd
    blv_where defcell valcell blv0].
  set (blv1 := mk_blv true false false None Qnil d d).
  name_run s1.
  exists s1, blv1. split; [reflexivity|].
  assert (∀ b, BUFFER s1 b = BUFFER st b) as Hbuf1
    by (intros; by apply BUFFER_fields).
  split.
  { constructor; try done.
    - sym_fields. done.
    - by rewrite bool_decide_eq_true_2.
    - intros b Hd. rewrite Hbuf1 in Hd. apply Halloc in Hd.
      cbn [defcell blv1] in Hd. unfold d in Hd. lia.
    - by left.
    - split; [cbn [defcell blv1]; rewrite Enext_s1; unfold d; lia|].
      intros b c Hc. rewrite Hbuf1 in Hc. apply Halloc in Hc.
      rewrite Enext_s1. lia. }
  split; [done|]. split; [done|]. split.
  { cbn [defcell blv1]. by rewrite (cell_cdr_insert_eq s1 _ d _ Ecells_s1). }
  split; [done|]. split; [done|].
  intros c Hc. rewrite Ecells_s1. apply lookup_insert_ne. unfold d in *. lia.
Qed.


Lemma Fmake_variable_buffer_local_plain_witness :
  ∃ st' blv,
    Fmake_variable_buffer_local (LSym SA) st_A0 = (Normal (LSym SA), st')
    ∧ blv_ok st' SA blv
    ∧ local_if_set blv = true
    ∧ found blv = false
    ∧ cell_cdr st' (defcell blv) = LInt 0
    ∧ buffers st' = buffers st_A0
    ∧ current_buffer st' = current_buffer st_A0
    ∧ ∀ c, c < next_addr st_A0 → cells st' !! c = cells st_A0 !! c.
Proof.
  apply (Fmake_variable_buffer_local_plain st_A0 SA (LInt 0)).
  - vm_compute; reflexivity.
  - vm_compute; reflexivity.
  - apply alists_allocated_check. compute_ok.
Defined.

(** X24. [Fset_default] of a buffer-local variable that is not constant
    stores the value in the default cell and nowhere else: [default_value]
    returns it afterwards, the invariant holds with the same record, the
    binding of the current buffer is the same cons as before, and the value
    of the variable in the current buffer is unchanged if the buffer has a
    binding of its own and is the new default otherwise. *)
Theorem Fset_default_localized (st : state) (s : sym_t)
    (blv : Lisp_Buffer_Local_Value) (v : Lisp_Object) :
  blv_ok st s blv →
  constant (SYMBOL st s) = false →
  ∃ st',
    Fset_default (LSym s) v st = (Normal v, st')
    ∧ blv_ok st' s blv
    ∧ default_value (LSym s) st' = (Normal v, st')
    ∧ buffers st' = buffers st
    ∧ blv_cell st' s = blv_cell st s
    ∧ cell_cdr st' (blv_cell st' s)
      = (if bool_decide
              (is_Some
                 (assq_no_quit st (LSym s)
                    (local_var_alist (BUFFER st (current_buffer st)))))
         then cell_cdr st (blv_cell st s) else v)
    ∧ ∀ c, c ≠ defcell blv → cell_cdr st' c = cell_cdr st c.
Proof.
  intros Hok Hconst.
  pose proof Hok as [Hred Hfl Hfwd Hfound Hdef Hwhere Halloc].
  unfold Fset_default. simpl CHECK_SYMBOL. msteps.
  unfold SYMBOL_CONSTANT_P. rewrite Hconst. cbv iota. msteps.
  rewrite (bind_Normal _ _ _ _ _ (chase_alias_localized _ _ _ Hred)).
  msteps. rewrite Hred. msteps. rewrite Hfwd. msteps.
  set (st' := XSETCDR_cell (defcell blv) v st).
  assert (SYMBOL_REDIRECT st' s = SYMBOL_LOCALIZED blv) as Hred' by exact Hred.
  assert (∀ l, assq_no_quit st' (LSym s) l = assq_no_quit st (LSym s) l)
    as Hassq.
  { intros. apply assq_no_quit_ext. intros. apply cell_car_XSETCDR_cell. }
  assert (blv_cell st' s = blv_cell st s) as Hcell.
  { unfold blv_cell. rewrite (SYMBOL_BLV_eq _ _ _ Hred').
    rewrite (SYMBOL_BLV_eq _ _ _ Hred). by rewrite Hassq. }
  exists st'. split; [reflexivity|]. split.
  { constructor; try done.
    destruct Hwhere as [?|(b & Hb & Hval)]; [by left|right].
    exists b. split; [done|]. by rewrite Hassq. }
  split.
  { unfold default_value. simpl CHECK_SYMBOL. msteps.
    rewrite (bind_Normal _ _ _ _ _ (chase_alias_localized _ _ _ Hred')).
    msteps. rewrite Hred', Hfwd. unfold st'.
    by rewrite cell_cdr_XSETCDR_cell_eq. }
  split; [done|]. split; [done|]. split.
  - rewrite Hcell. unfold blv_cell. rewrite (SYMBOL_BLV_eq _ _ _ Hred).
    change (current_buffer st') with (current_buffer st).
    destruct (assq_no_quit st (LSym s) _) as [c|] eqn:Hc;
      cbn [default from_option id].
    + rewrite bool_decide_eq_true_2 by eauto.
      unfold st'. apply cell_cdr_XSETCDR_cell_ne.
      intros <-. apply assq_no_quit_Some_elem in Hc. by apply Hdef in Hc.
    + rewrite bool_decide_eq_false_2 by (by intros [? ?]).
      unfold st'. apply cell_cdr_XSETCDR_cell_eq.
  - intros c Hc. unfold st'. by apply cell_cdr_XSETCDR_cell_ne.
Qed.

Lemma Fset_default_localized_witness :
  ∃ st',
    Fset_default (LSym SA) (LInt 5) st_local_1 = (Normal (LInt 5), st')
    ∧ blv_ok st' SA blv_local
    ∧ default_value (LSym SA) st' = (Normal (LInt 5), st')
    ∧ buffers st' = buffers st_local_1
    ∧ blv_cell st' SA = blv_cell st_local_1 SA
    ∧ cell_cdr st' (blv_cell st' SA) = LInt 5
    ∧ ∀ c, c ≠ defcell blv_local → cell_cdr st' c = cell_cdr st_local_1 c.
Proof.
  apply (Fset_default_localized st_local_1 SA blv_local (LInt 5)).
  - apply blv_ok_check; compute_ok.
  - vm_compute; reflexivity.
Defined.
(** * Let-binding buffer-local variables *)

Lemma state_eta st : set_symbols (symbols st) st = st.
Proof. by destruct st. Qed.

Lemma SET_SYMBOL_REDIRECT_same st s blv :
  SYMBOL_REDIRECT st s = SYMBOL_LOCALIZED blv →
  SET_SYMBOL_REDIRECT s (SYMBOL_LOCALIZED blv) st = st.
Proof.
  unfold SYMBOL_REDIRECT, SET_SYMBOL_REDIRECT, SET_SYMBOL, SYMBOL.
  destruct (symbols st !! s) as [sym|] eqn:Hs; cbn [default from_option id];
    [|done].
  intros Hred. destruct sym as [r c d k p]. cbn in Hred. subst r.
  unfold set_redirect. cbn [constant declared_special keyword plist].
  rewrite insert_id by done. apply state_eta.
Qed.

(** Under the invariant, [found] tells whether the buffer in [where] has a
    binding of its own. *)
Lemma blv_ok_at st s blv b :
  blv_ok st s blv →
  blv_where blv = LBuffer b →
  blv_at st s b blv = blv.
Proof.
  intros [Hred Hfl Hfwd Hfound Hdef Hwhere Halloc] Hb.
  destruct Hwhere as [[Hnil _]|(b' & Hb' & Hval)]; [congruence|].
  rewrite Hb in Hb'. injection Hb' as <-.
  unfold blv_at. rewrite <- Hval.
  assert (found blv
          = bool_decide
              (is_Some (assq_no_quit st (LSym s)
                          (local_var_alist (BUFFER st b))))) as Hf.
  { rewrite Hfound, Hval.
    destruct (assq_no_quit st (LSym s) _) as [c|] eqn:Hassq;
      cbn [default from_option id].
    - rewrite (bool_decide_eq_true_2 (is_Some _)) by eauto.
      rewrite bool_decide_eq_false_2; [done|].
      intros ->. apply assq_no_quit_Some_elem in Hassq. by apply (Hdef b).
    - rewrite (bool_decide_eq_false_2 (is_Some _)) by (by intros [? ?]).
      by rewrite bool_decide_eq_true_2. }
  rewrite <- Hf, <- Hb. destruct blv. cbn in *. by subst.
Qed.

Lemma blv_ok_blv_at st s blv b :
  blv_ok st s blv →
  blv_ok (SET_SYMBOL_REDIRECT s (SYMBOL_LOCALIZED (blv_at st s b blv)) st) s
    (blv_at st s b blv).
Proof.
  intros [Hred Hfl Hfwd Hfound Hdef Hwhere Halloc].
  apply blv_ok_SET; try done.
  - unfold blv_at. cbn [found valcell defcell].
    destruct (assq_no_quit st (LSym s) _) as [c|] eqn:Hassq;
      cbn [default from_option id].
    + rewrite (bool_decide_eq_true_2 (is_Some _)) by eauto.
      rewrite bool_decide_eq_false_2; [done|].
      intros ->. apply assq_no_quit_Some_elem in Hassq. by apply (Hdef b).
    + rewrite (bool_decide_eq_false_2 (is_Some _)) by (by intros [? ?]).
      by rewrite bool_decide_eq_true_2.
  - right. by exists b.
Qed.

(** [blv_ok] does not look at the values of the binding conses. *)
Lemma blv_ok_XSETCDR_cell st s blv c v :
  blv_ok st s blv → blv_ok (XSETCDR_cell c v st) s blv.
Proof.
  intros [Hred Hfl Hfwd Hfound Hdef Hwhere Halloc].
  constructor; try done.
  destruct Hwhere as [?|(b & Hb & Hval)]; [by left|right].
  exists b. split; [done|]. rewrite Hval. f_equal. symmetry.
  apply assq_no_quit_ext. intros. apply cell_car_XSETCDR_cell.
Qed.

(** A [modify_blv] after another one. *)
Ltac blv_step :=
  rewrite ?bind_assoc;
  rewrite (bind_Normal _ _ _ _ _
             (modify_blv_run _ _ _ _ (SYMBOL_REDIRECT_SET_eq _ _ _)));
  cbv beta; rewrite SET_SYMBOL_REDIRECT_twice.

(** [set_internal] with [bindflag] set on a buffer-local variable: the
    binding of the buffer is loaded and receives the value; a buffer
    without a binding of its own does not get one, the value goes to the
    default cell. *)
Lemma set_internal_localized_bind st s blv v where_ b :
  blv_ok st s blv →
  (where_ = Qnil ∧ b = current_buffer st) ∨ where_ = LBuffer b →
  set_internal_localized s v where_ true st
  = (Normal tt,
     XSETCDR_cell (valcell (blv_at st s b blv)) v
       (SET_SYMBOL_REDIRECT s (SYMBOL_LOCALIZED (blv_at st s b blv)) st)).
Proof.
  intros Hok Hwh.
  pose proof Hok as [Hred Hfl Hfwd Hfound Hdef Hwhere Halloc].
  unfold set_internal_localized. msteps.
  rewrite (SYMBOL_BLV_eq _ _ _ Hred), Hfl.
  assert ((if NILP where_ then LBuffer (current_buffer st) else where_)
          = LBuffer b) as ->.
  { destruct Hwh as [[-> ->]| ->]; done. }
  destruct (negb (EQ (blv_where blv) (LBuffer b))
            || bool_decide (valcell blv = defcell blv)) eqn:Hreload.
  2:{ apply orb_false_elim in Hreload as [Hw Hv].
      apply negb_false_iff in Hw.
      assert (blv_where blv = LBuffer b) as Hb.
      { destruct (blv_where blv); try done. simpl in Hw.
        by apply bool_decide_eq_true_1 in Hw as ->. }
      rewrite (blv_ok_at _ _ _ _ Hok Hb).
      rewrite (SET_SYMBOL_REDIRECT_same _ _ _ Hred).
      msteps. unfold set_blv_value. msteps.
      rewrite (SYMBOL_BLV_eq _ _ _ Hred).
      change (SYMBOL_BLV (XSETCDR_cell (valcell blv) v st) s)
        with (SYMBOL_BLV st s).
      rewrite (SYMBOL_BLV_eq _ _ _ Hred), Hfwd. reflexivity. }
  unfold unload_binding. msteps. rewrite (SYMBOL_BLV_eq _ _ _ Hred), Hfwd.
  msteps. cbn [where_alist]. cbn [orb]. cbv iota.
  rewrite ?bind_assoc.
  rewrite (bind_Normal _ _ _ _ _ (modify_blv_run _ _ _ _ Hred)). cbv beta.
  blv_step.
  unfold blv_at.
  destruct (assq_no_quit st (LSym s) (local_var_alist (BUFFER st b)))
    as [c|] eqn:Hassq; cbn [default from_option id].
  - msteps. blv_step.
    unfold set_blv_valcell, set_blv_found, set_blv_where.
    cbn [local_if_set frame_local found fwd blv_where defcell valcell].
    rewrite Hfl, Hfwd. rewrite bool_decide_eq_true_2 by eauto.
    unfold set_blv_value. msteps.
    rewrite (SYMBOL_BLV_eq _ _ _ (SYMBOL_REDIRECT_SET_eq _ _ _)).
    cbn [valcell].
    match goal with
    | |- context [SYMBOL_BLV (XSETCDR_cell ?x ?y ?z) s] =>
        change (SYMBOL_BLV (XSETCDR_cell x y z) s) with (SYMBOL_BLV z s)
    end.
    rewrite (SYMBOL_BLV_eq _ _ _ (SYMBOL_REDIRECT_SET_eq _ _ _)).
    reflexivity.
  - blv_step. msteps. blv_step.
    unfold set_blv_valcell, set_blv_found, set_blv_where.
    cbn [local_if_set frame_local found fwd blv_where defcell valcell].
    rewrite Hfl, Hfwd.
    rewrite bool_decide_eq_false_2 by (by intros [? ?]).
    unfold set_blv_value. msteps.
    rewrite (SYMBOL_BLV_eq _ _ _ (SYMBOL_REDIRECT_SET_eq _ _ _)).
    cbn [valcell].
    match goal with
    | |- context [SYMBOL_BLV (XSETCDR_cell ?x ?y ?z) s] =>
        change (SYMBOL_BLV (XSETCDR_cell x y z) s) with (SYMBOL_BLV z s)
    end.
    rewrite (SYMBOL_BLV_eq _ _ _ (SYMBOL_REDIRECT_SET_eq _ _ _)).
    reflexivity.
Qed.

(** [blv_ok] looks at the symbols, the buffers, the conses and the
    allocation pointer only. *)
Lemma blv_ok_same st st' s blv :
  symbols st' = symbols st → buffers st' = buffers st →
  cells st' = cells st → next_addr st' = next_addr st →
  blv_ok st s blv → blv_ok st' s blv.
Proof.
  intros Hsym Hbuf Hcells Hnext [Hred Hfl Hfwd Hfound Hdef Hwhere Halloc].
  assert (∀ b, BUFFER st' b = BUFFER st b) as HB
    by (intros; unfold BUFFER; by rewrite Hbuf).
  assert (∀ l, assq_no_quit st' (LSym s) l = assq_no_quit st (LSym s) l)
    as Hassq.
  { intros. apply assq_no_quit_ext. intros. unfold cell_car.
    by rewrite Hcells. }
  constructor; try done.
  - unfold SYMBOL_REDIRECT, SYMBOL. by rewrite Hsym.
  - intros b. by rewrite HB.
  - destruct Hwhere as [?|(b & Hb & Hval)]; [by left|right].
    exists b. split; [done|]. by rewrite HB, Hassq.
  - rewrite Hnext. destruct Halloc as [Hd Ha]. split; [done|].
    intros b c. rewrite HB. apply Ha.
Qed.

Lemma blv_at_same st st' s b blv :
  buffers st' = buffers st → cells st' = cells st →
  blv_at st' s b blv = blv_at st s b blv.
Proof.
  intros Hbuf Hcells. unfold blv_at, BUFFER. rewrite Hbuf.
  assert (∀ l, assq_no_quit st' (LSym s) l = assq_no_quit st (LSym s) l)
    as Hassq.
  { intros. apply assq_no_quit_ext. intros. unfold cell_car.
    by rewrite Hcells. }
  by rewrite Hassq.
Qed.

(** [find_symbol_value] of a buffer-local variable loads the binding of
    the current buffer. *)
Lemma find_symbol_value_localized_run st s blv :
  blv_ok st s blv →
  find_symbol_value (LSym s) st
  = (Normal (cell_cdr st (valcell (blv_at st s (current_buffer st) blv))),
     SET_SYMBOL_REDIRECT s
       (SYMBOL_LOCALIZED (blv_at st s (current_buffer st) blv)) st).
Proof.
  intros Hok. pose proof Hok as [Hred Hfl Hfwd Hfound Hdef Hwhere Halloc].
  destruct (EQ (LBuffer (current_buffer st)) (blv_where blv)) eqn:Hhit.
  - assert (blv_where blv = LBuffer (current_buffer st)) as Hcur.
    { destruct (blv_where blv); try done. simpl in Hhit.
      by apply bool_decide_eq_true_1 in Hhit as <-. }
    rewrite (blv_ok_at _ _ _ _ Hok Hcur).
    rewrite (SET_SYMBOL_REDIRECT_same _ _ _ Hred).
    unfold find_symbol_value. simpl CHECK_SYMBOL. msteps.
    rewrite (bind_Normal _ _ _ _ _ (chase_alias_localized _ _ _ Hred)).
    msteps. rewrite Hred.
    rewrite (bind_Normal _ _ _ _ _
               (swap_in_symval_forwarding_hit _ _ _ Hred Hfl Hcur)).
    msteps. by rewrite (SYMBOL_BLV_eq _ _ _ Hred), Hfwd.
  - rewrite (find_symbol_value_reload _ _ _ Hred Hfl Hfwd Hhit).
    unfold blv_loaded, blv_at. by rewrite Hfl, Hfwd.
Qed.

(** [Flocal_variable_p] tells whether the buffer has a binding of its
    own. *)
Lemma Flocal_variable_p_localized st s blv b :
  blv_ok st s blv →
  Flocal_variable_p (LSym s) (LBuffer b) st
  = (Normal (match assq_no_quit st (LSym s)
                     (local_var_alist (BUFFER st b)) with
             | Some _ => Qt
             | None => Qnil
             end), st).
Proof.
  intros Hok. pose proof Hok as [Hred Hfl Hfwd Hfound Hdef Hwhere Halloc].
  unfold Flocal_variable_p. msteps.
  change (NILP (LBuffer b)) with false. cbn [CHECK_BUFFER]. msteps.
  simpl CHECK_SYMBOL. msteps.
  rewrite (bind_Normal _ _ _ _ _ (chase_alias_localized _ _ _ Hred)).
  msteps. rewrite Hred.
  destruct (EQ (blv_where blv) (LBuffer b)) eqn:Hw.
  - assert (blv_where blv = LBuffer b) as Hb.
    { destruct (blv_where blv); try done. simpl in Hw.
      by apply bool_decide_eq_true_1 in Hw as ->. }
    pose proof (blv_ok_at _ _ _ _ Hok Hb) as Hat.
    apply (f_equal found) in Hat. unfold blv_at in Hat. cbn [found] in Hat.
    rewrite <- Hat.
    by destruct (assq_no_quit st (LSym s) _).
  - destruct (assq_no_quit st (LSym s) _) as [c|] eqn:Hassq.
    + replace (existsb _ _) with true; [done|]. symmetry.
      apply existsb_exists. exists c.
      unfold assq_no_quit in Hassq. apply find_some in Hassq as [Hin Heq].
      split; [done|]. cbv beta. by rewrite EQ_sym.
    + by rewrite (assq_no_quit_None_existsb _ _ _ Hassq).
Qed.

(** [set_internal] with [bindflag] set, for a variable that is not
    constant. *)
Lemma set_internal_localized_bind_run st s blv v where_ b :
  blv_ok st s blv →
  constant (SYMBOL st s) = false →
  (where_ = Qnil ∧ b = current_buffer st) ∨ where_ = LBuffer b →
  set_internal (LSym s) v where_ true st
  = (Normal tt,
     XSETCDR_cell (valcell (blv_at st s b blv)) v
       (SET_SYMBOL_REDIRECT s (SYMBOL_LOCALIZED (blv_at st s b blv)) st)).
Proof.
  intros Hok Hconst Hwh. pose proof (ok_redirect _ _ _ Hok) as Hred.
  unfold set_internal. simpl CHECK_SYMBOL. msteps.
  unfold SYMBOL_CONSTANT_P. rewrite Hconst. cbv iota. msteps.
  rewrite (bind_Normal _ _ _ _ _ (chase_alias_localized _ _ _ Hred)).
  msteps. rewrite Hred.
  by apply set_internal_localized_bind.
Qed.

(** [specbind] of a buffer-local variable. *)
Lemma specbind_1_localized st s blv v :
  blv_ok st s blv →
  constant (SYMBOL st s) = false →
  (SPECPDL_INDEX st + 1 < specpdl_size st)%Z →
  let blv1 := blv_at st s (current_buffer st) blv in
  specbind_1 (LSym s) v st
  = (Normal tt,
     set_dynstack (W_unwinder U_unbind_once true :: dynstack st)
       (XSETCDR_cell (valcell blv1) v
          (set_specpdl
             (mk_specbinding
                (if found blv1 then SPECPDL_LET_LOCAL
                 else SPECPDL_LET_DEFAULT)
                (LSym s) (cell_cdr st (valcell blv1))
                (LBuffer (current_buffer st)) :: specpdl st)
             (SET_SYMBOL_REDIRECT s (SYMBOL_LOCALIZED blv1) st)))).
Proof.
  intros Hok Hconst Hroom blv1.
  pose proof Hok as [Hred Hfl Hfwd Hfound Hdef Hwhere Halloc].
  unfold specbind_1. simpl CHECK_SYMBOL. msteps.
  rewrite (bind_Normal _ _ _ _ _ (chase_alias_localized _ _ _ Hred)).
  msteps. rewrite Hred, Hfl. msteps.
  rewrite (bind_Normal _ _ _ _ _ (find_symbol_value_localized_run _ _ _ Hok)).
  fold blv1. msteps. rewrite SYMBOL_REDIRECT_SET_eq.
  set (s1 := SET_SYMBOL_REDIRECT s (SYMBOL_LOCALIZED blv1) st).
  change (Fcurrent_buffer s1) with (LBuffer (current_buffer st)).
  set (entry := mk_specbinding _ _ _ _).
  assert (blv_ok s1 s blv1) as Hok1 by (by apply blv_ok_blv_at).
  rewrite bind_assoc.
  rewrite (bind_Normal _ _ _ _ _ (grow_specpdl_room s1 entry Hroom)).
  set (s2 := set_specpdl (entry :: specpdl s1) s1).
  assert (blv_ok s2 s blv1) as Hok2 by (by apply (blv_ok_same s1)).
  assert (constant (SYMBOL s2 s) = false) as Hconst2.
  { unfold s2, s1, SET_SYMBOL_REDIRECT.
    change (SYMBOL (set_specpdl ?l ?t) s) with (SYMBOL t s).
    by rewrite SYMBOL_SET_SYMBOL_eq. }
  rewrite (bind_Normal _ _ _ _ _
             (set_internal_localized_bind_run s2 s blv1 v Qnil
                (current_buffer st) Hok2 Hconst2 (or_introl (conj eq_refl eq_refl)))).
  rewrite (blv_ok_at s2 s blv1 (current_buffer st) Hok2 eq_refl).
  rewrite (SET_SYMBOL_REDIRECT_same _ _ _ (ok_redirect _ _ _ Hok2)).
  reflexivity.
Qed.

Lemma Fset_default_localized_run st s blv v :
  SYMBOL_REDIRECT st s = SYMBOL_LOCALIZED blv →
  fwd blv = None →
  constant (SYMBOL st s) = false →
  Fset_default (LSym s) v st
  = (Normal v, XSETCDR_cell (defcell blv) v st).
Proof.
  intros Hred Hfwd Hconst.
  unfold Fset_default. simpl CHECK_SYMBOL. msteps.
  unfold SYMBOL_CONSTANT_P. rewrite Hconst. cbv iota. msteps.
  rewrite (bind_Normal _ _ _ _ _ (chase_alias_localized _ _ _ Hred)).
  msteps. rewrite Hred. msteps. by rewrite Hfwd.
Qed.

(** [unbind_once] on an entry that let-bound the default value. *)
Lemma unbind_once_let_default_run st s blv old w rest :
  specpdl st = mk_specbinding SPECPDL_LET_DEFAULT (LSym s) old w :: rest →
  SYMBOL_REDIRECT st s = SYMBOL_LOCALIZED blv →
  fwd blv = None →
  constant (SYMBOL st s) = false →
  unbind_once st
  = (Normal tt,
     XSETCDR_cell (defcell blv) old
       (set_trace
          (trace st
           ++ [Ev_unbind (mk_specbinding SPECPDL_LET_DEFAULT (LSym s) old w)])
          (set_specpdl rest st))).
Proof.
  intros Hpdl Hred Hfwd Hconst. unfold unbind_once. msteps. rewrite Hpdl.
  msteps. cbn [kind specpdl_symbol specpdl_old_value symbol old_value].
  erewrite bind_Normal; [|by apply (Fset_default_localized_run _ s blv)].
  reflexivity.
Qed.

(** [unbind_once] on an entry that let-bound the binding of a buffer. *)
Lemma unbind_once_let_local_run st s blv old b rest :
  specpdl st
  = mk_specbinding SPECPDL_LET_LOCAL (LSym s) old (LBuffer b) :: rest →
  blv_ok st s blv →
  constant (SYMBOL st s) = false →
  let st1 :=
    set_trace
      (trace st
       ++ [Ev_unbind
             (mk_specbinding SPECPDL_LET_LOCAL (LSym s) old (LBuffer b))])
      (set_specpdl rest st) in
  unbind_once st
  = (Normal tt,
     match assq_no_quit st (LSym s) (local_var_alist (BUFFER st b)) with
     | Some c =>
         XSETCDR_cell c old
           (SET_SYMBOL_REDIRECT s (SYMBOL_LOCALIZED (blv_at st s b blv)) st1)
     | None => st1
     end).
Proof.
  intros Hpdl Hok Hconst st1. unfold unbind_once. msteps. rewrite Hpdl.
  msteps. cbn [kind specpdl_symbol specpdl_old_value specpdl_where symbol
    old_value let_where]. fold st1.
  assert (blv_ok st1 s blv) as Hok1 by (by apply (blv_ok_same st)).
  rewrite (bind_Normal _ _ _ _ _ (Flocal_variable_p_localized _ _ _ b Hok1)).
  change (BUFFER st1 b) with (BUFFER st b).
  assert (∀ l, assq_no_quit st1 (LSym s) l = assq_no_quit st (LSym s) l)
    as Hassq by done.
  rewrite Hassq.
  destruct (assq_no_quit st (LSym s) (local_var_alist (BUFFER st b)))
    as [c|] eqn:Hc.
  - change (NILP Qt) with false. cbn [negb]. cbv iota.
    rewrite (set_internal_localized_bind_run st1 s blv old (LBuffer b) b
               Hok1 Hconst (or_intror eq_refl)).
    assert (blv_at st1 s b blv = blv_at st s b blv) as ->
      by (by apply blv_at_same).
    assert (valcell (blv_at st s b blv) = c) as ->
      by (unfold blv_at; cbn [valcell]; by rewrite Hc).
    reflexivity.
  - reflexivity.
Qed.

Lemma specbind_localized_run st s blv v :
  blv_ok st s blv →
  constant (SYMBOL st s) = false →
  (SPECPDL_INDEX st + 1 < specpdl_size st)%Z →
  specbind (LSym s) v st
  = (Normal tt,
     set_dynstack (W_unwinder U_unbind_once true :: dynstack st)
       (XSETCDR_cell (valcell (blv_at st s (current_buffer st) blv)) v
          (set_specpdl
             (mk_specbinding
                (if found (blv_at st s (current_buffer st) blv)
                 then SPECPDL_LET_LOCAL else SPECPDL_LET_DEFAULT)
                (LSym s)
                (cell_cdr st (valcell (blv_at st s (current_buffer st) blv)))
                (LBuffer (current_buffer st)) :: specpdl st)
             (SET_SYMBOL_REDIRECT s
                (SYMBOL_LOCALIZED (blv_at st s (current_buffer st) blv))
                st)))).
Proof.
  intros Hok Hconst Hroom. unfold specbind, with_signals.
  by rewrite (specbind_1_localized st s blv v Hok Hconst Hroom).
Qed.

Lemma valcell_blv_at st s blv :
  SYMBOL_REDIRECT st s = SYMBOL_LOCALIZED blv →
  valcell (blv_at st s (current_buffer st) blv) = blv_cell st s.
Proof.
  intros Hred. unfold blv_at, blv_cell. cbn [valcell].
  by rewrite (SYMBOL_BLV_eq _ _ _ Hred).
Qed.

(** X25. [specbind] of a buffer-local variable that is not constant binds
    the binding of the current buffer: the entry pushed records the value
    the variable had there and the buffer, and is a [SPECPDL_LET_LOCAL]
    entry if the buffer has a binding of its own, a [SPECPDL_LET_DEFAULT]
    entry otherwise; the new value is stored in the cons that held the
    value, so without a binding of its own the default value is the one
    that changes; no other cons changes, no buffer gets a binding, and the
    invariant of the variable holds. *)
Theorem specbind_localized (st : state) (s : sym_t)
    (blv : Lisp_Buffer_Local_Value) (v : Lisp_Object) :
  blv_ok st s blv →
  constant (SYMBOL st s) = false →
  (SPECPDL_INDEX st + 1 < specpdl_size st)%Z →
  ∃ st' blv',
    specbind (LSym s) v st = (Normal tt, st')
    ∧ blv_ok st' s blv'
    ∧ blv_where blv' = LBuffer (current_buffer st)
    ∧ specpdl st'
      = mk_specbinding
          (match assq_no_quit st (LSym s)
                   (local_var_alist (BUFFER st (current_buffer st))) with
           | Some _ => SPECPDL_LET_LOCAL
           | None => SPECPDL_LET_DEFAULT
           end)
          (LSym s) (cell_cdr st (blv_cell st s))
          (LBuffer (current_buffer st)) :: specpdl st
    ∧ dynstack st' = W_unwinder U_unbind_once true :: dynstack st
    ∧ buffers st' = buffers st
    ∧ current_buffer st' = current_buffer st
    ∧ cell_cdr st' (blv_cell st s) = v
    ∧ (∀ c, c ≠ blv_cell st s → cell_cdr st' c = cell_cdr st c)
    ∧ blv_cell st' s = blv_cell st s.
Proof.
  intros Hok Hconst Hroom. pose proof (ok_redirect _ _ _ Hok) as Hred.
  rewrite (specbind_localized_run st s blv v Hok Hconst Hroom).
  set (blv1 := blv_at st s (current_buffer st) blv).
  pose proof (valcell_blv_at st s blv Hred) as Hcell. fold blv1 in Hcell.
  eexists _, blv1. split; [reflexivity|].
  pose proof (blv_ok_blv_at st s blv (current_buffer st) Hok) as Hok1.
  fold blv1 in Hok1.
  split.
  { match goal with
    | |- blv_ok (set_dynstack _ ?t) _ _ => apply (blv_ok_same t); [done..|]
    end.
    apply blv_ok_XSETCDR_cell.
    match goal with
    | |- blv_ok (set_specpdl _ ?t) _ _ => apply (blv_ok_same t); [done..|]
    end.
    exact Hok1. }
  split; [done|]. split.
  { cbn [specpdl set_dynstack XSETCDR_cell set_cells set_specpdl].
    rewrite Hcell. do 2 f_equal. unfold blv1, blv_at. cbn [found].
    destruct (assq_no_quit st (LSym s) _) as [c|].
    - by rewrite bool_decide_eq_true_2 by eauto.
    - by rewrite bool_decide_eq_false_2 by (by intros [? ?]). }
  split; [done|]. split; [done|]. split; [done|]. split.
  { rewrite <- Hcell.
    change (cell_cdr (set_dynstack ?d ?t)) with (cell_cdr t).
    apply cell_cdr_XSETCDR_cell_eq. }
  split.
  { intros c Hc. rewrite <- Hcell in Hc.
    change (cell_cdr (set_dynstack ?d ?t)) with (cell_cdr t).
    by rewrite cell_cdr_XSETCDR_cell_ne. }
  unfold blv_cell.
  match goal with
  | |- context [SYMBOL_BLV ?t s] =>
      assert (SYMBOL_BLV t s = blv1) as ->
        by (apply SYMBOL_BLV_eq, SYMBOL_REDIRECT_SET_eq)
  end.
  rewrite (SYMBOL_BLV_eq _ _ _ Hred).
  change (defcell blv1) with (defcell blv). f_equal.
  apply assq_no_quit_ext. intros.
  change (cell_car (set_dynstack ?d ?t)) with (cell_car t).
  rewrite cell_car_XSETCDR_cell. done.
Qed.

(** X26. [unbind_once] on a [SPECPDL_LET_LOCAL] entry of a buffer-local
    variable: if the buffer of the entry, current or not, still has a
    binding of its own, that binding gets the old value back and no other
    cons changes; if the binding is gone, nothing is restored: no cons and
    no symbol changes.  The entry is popped and the invariant holds in
    both cases. *)
Theorem unbind_once_let_local (st : state) (s : sym_t)
    (blv : Lisp_Buffer_Local_Value) (old : Lisp_Object) (b : buffer_t)
    (rest : list specbinding) :
  specpdl st
  = mk_specbinding SPECPDL_LET_LOCAL (LSym s) old (LBuffer b) :: rest →
  blv_ok st s blv →
  constant (SYMBOL st s) = false →
  ∃ st' blv',
    unbind_once st = (Normal tt, st')
    ∧ specpdl st' = rest
    ∧ blv_ok st' s blv'
    ∧ buffers st' = buffers st
    ∧ current_buffer st' = current_buffer st
    ∧ match assq_no_quit st (LSym s) (local_var_alist (BUFFER st b)) with
      | Some c =>
          cell_cdr st' c = old
          ∧ (∀ c', c' ≠ c → cell_cdr st' c' = cell_cdr st c')
          ∧ blv_where blv' = LBuffer b
      | None => cells st' = cells st ∧ symbols st' = symbols st
      end.
Proof.
  intros Hpdl Hok Hconst.
  rewrite (unbind_once_let_local_run st s blv old b rest Hpdl Hok Hconst).
  cbv zeta.
  set (st1 := set_trace _ (set_specpdl rest st)).
  assert (blv_ok st1 s blv) as Hok1 by (by apply (blv_ok_same st)).
  destruct (assq_no_quit st (LSym s) (local_var_alist (BUFFER st b)))
    as [c|] eqn:Hc.
  - eexists _, (blv_at st s b blv). split; [reflexivity|]. split; [done|].
    split.
    { apply blv_ok_XSETCDR_cell.
      assert (blv_at st s b blv = blv_at st1 s b blv) as ->
        by (symmetry; by apply blv_at_same).
      by apply blv_ok_blv_at. }
    split; [done|]. split; [done|]. split.
    { apply cell_cdr_XSETCDR_cell_eq. }
    split; [|done].
    intros c' Hc'. by rewrite cell_cdr_XSETCDR_cell_ne.
  - exists st1, blv. done.
Qed.

(** X27. A let-binding of a buffer-local variable around a read of it:
    the read gives the let-bound value, and leaving the frame gives every
    binding cons, the default cell too, the value it had before; the
    binding stack, the wind stack and the buffers are as before, and the
    invariant of the variable holds. *)
Theorem let_localized_round_trip (st : state) (s : sym_t)
    (blv : Lisp_Buffer_Local_Value) (v : Lisp_Object) :
  blv_ok st s blv →
  constant (SYMBOL st s) = false →
  (SPECPDL_INDEX st + 1 < specpdl_size st)%Z →
  ∃ st' blv',
    let_value_test (LSym s) v st = (Normal v, st')
    ∧ blv_ok st' s blv'
    ∧ specpdl st' = specpdl st
    ∧ dynstack st' = dynstack st
    ∧ buffers st' = buffers st
    ∧ current_buffer st' = current_buffer st
    ∧ (∀ c, cell_cdr st' c = cell_cdr st c)
    ∧ (∀ c, cell_car st' c = cell_car st c).
Proof.
  intros Hok Hconst Hroom. pose proof (ok_redirect _ _ _ Hok) as Hred.
  unfold let_value_test, dynwind_begin. msteps.
  set (s0 := set_dynstack (W_frame :: dynstack st) st).
  assert (blv_ok s0 s blv) as Hok0 by (by apply (blv_ok_same st)).
  rewrite (bind_Normal _ _ _ _ _
             (specbind_localized_run s0 s blv v Hok0 Hconst Hroom)).
  change (current_buffer s0) with (current_buffer st).
  assert (blv_at s0 s (current_buffer st) blv
          = blv_at st s (current_buffer st) blv) as -> by done.
  set (blv1 := blv_at st s (current_buffer st) blv).
  set (c1 := valcell blv1).
  set (entry := mk_specbinding _ _ _ _).
  set (s1 := SET_SYMBOL_REDIRECT s (SYMBOL_LOCALIZED blv1) s0).
  assert (blv_ok s1 s blv1) as Hok1
    by exact (blv_ok_blv_at s0 s blv (current_buffer st) Hok0).
  set (s2 := XSETCDR_cell c1 v (set_specpdl (entry :: specpdl s0) s1)).
  assert (blv_ok s2 s blv1) as Hok2.
  { apply blv_ok_XSETCDR_cell. by apply (blv_ok_same s1). }
  set (s3 := set_dynstack _ s2).
  assert (blv_ok s3 s blv1) as Hok3 by (by apply (blv_ok_same s2)).
  rewrite (bind_Normal _ _ _ _ _ (find_symbol_value_localized_run _ _ _ Hok3)).
  change (current_buffer s3) with (current_buffer st).
  rewrite (blv_ok_at s3 s blv1 (current_buffer st) Hok3 eq_refl).
  rewrite (SET_SYMBOL_REDIRECT_same _ _ _ (ok_redirect _ _ _ Hok3)).
  assert (cell_cdr s3 (valcell blv1) = v) as ->
    by apply cell_cdr_XSETCDR_cell_eq.
  msteps. unfold dynwind_end.
  rewrite bind_unfold. unfold bind at 1.
  change (dynstack s3)
    with (W_unwinder U_unbind_once true :: W_frame :: dynstack st).
  set (s4 := set_dynstack (W_frame :: dynstack st) s3).
  assert (blv_ok s4 s blv1) as Hok4 by (by apply (blv_ok_same s3)).
  assert (constant (SYMBOL s4 s) = false) as Hconst4.
  { change (SYMBOL s4 s) with (SYMBOL s1 s). unfold s1, SET_SYMBOL_REDIRECT.
    rewrite SYMBOL_SET_SYMBOL_eq. exact Hconst. }
  assert (∀ l, assq_no_quit s4 (LSym s) l = assq_no_quit st (LSym s) l)
    as Hassq.
  { intros. apply assq_no_quit_ext. intros.
    change (cell_car s4) with (cell_car s2). unfold s2.
    by rewrite cell_car_XSETCDR_cell. }
  assert (∃ s5 blv5,
            unbind_once s4 = (Normal tt, s5)
            ∧ blv_ok s5 s blv5
            ∧ specpdl s5 = specpdl st
            ∧ dynstack s5 = W_frame :: dynstack st
            ∧ buffers s5 = buffers st
            ∧ current_buffer s5 = current_buffer st
            ∧ (∀ c, cell_cdr s5 c = cell_cdr st c)
            ∧ (∀ c, cell_car s5 c = cell_car st c))
    as (s5 & blv5 & Hrun & Hok5 & Hpdl5 & Hdyn5 & Hbuf5 & Hcur5 & Hcdr5
        & Hcar5).
  { assert (specpdl s4 = entry :: specpdl st) as Hpdl by reflexivity.
    unfold entry in Hpdl. change (cell_cdr s0 c1) with (cell_cdr st c1) in Hpdl.
    assert (∀ c, cell_car s4 c = cell_car st c) as Hcar4.
    { intros. change (cell_car s4) with (cell_car s2). unfold s2.
      by rewrite cell_car_XSETCDR_cell. }
    assert (∀ c, c ≠ c1 → cell_cdr s4 c = cell_cdr st c) as Hcdr4.
    { intros. change (cell_cdr s4) with (cell_cdr s2). unfold s2.
      by rewrite cell_cdr_XSETCDR_cell_ne. }
    destruct (assq_no_quit st (LSym s)
                (local_var_alist (BUFFER st (current_buffer st))))
      as [c|] eqn:Hown.
    - assert (found blv1 = true) as Hf.
      { unfold blv1, blv_at. cbn [found]. rewrite Hown.
        by rewrite bool_decide_eq_true_2 by eauto. }
      assert (c1 = c) as Hc1.
      { unfold c1, blv1, blv_at. cbn [valcell]. by rewrite Hown. }
      rewrite Hf in Hpdl.
      rewrite (unbind_once_let_local_run s4 s blv1 _ _ _ Hpdl Hok4 Hconst4).
      cbv zeta. change (BUFFER s4 (current_buffer st))
        with (BUFFER st (current_buffer st)).
      rewrite Hassq, Hown.
      eexists _, _. split; [reflexivity|]. split.
      { apply blv_ok_XSETCDR_cell.
        match goal with
        | |- blv_ok (SET_SYMBOL_REDIRECT _ _ ?t) _ _ =>
            assert (blv_at s4 s (current_buffer st) blv1
                    = blv_at t s (current_buffer st) blv1) as ->
              by (symmetry; by apply blv_at_same);
            apply blv_ok_blv_at; by apply (blv_ok_same s4)
        end. }
      split; [done|]. split; [done|]. split; [done|]. split; [done|].
      split.
      + intros c'. destruct (decide (c' = c)) as [->|Hne].
        * rewrite cell_cdr_XSETCDR_cell_eq. by rewrite Hc1.
        * rewrite cell_cdr_XSETCDR_cell_ne by done.
          apply Hcdr4. by rewrite Hc1.
      + intros c'. rewrite cell_car_XSETCDR_cell. apply Hcar4.
    - assert (found blv1 = false) as Hf.
      { unfold blv1, blv_at. cbn [found]. rewrite Hown.
        by rewrite bool_decide_eq_false_2 by (by intros [? ?]). }
      assert (c1 = defcell blv1) as Hc1.
      { unfold c1, blv1, blv_at. cbn [valcell defcell]. by rewrite Hown. }
      rewrite Hf in Hpdl.
      rewrite (unbind_once_let_default_run s4 s blv1 _ _ _ Hpdl
                 (ok_redirect _ _ _ Hok4) eq_refl Hconst4).
      eexists _, blv1. split; [reflexivity|]. split.
      { apply blv_ok_XSETCDR_cell. by apply (blv_ok_same s4). }
      split; [done|]. split; [done|]. split; [done|]. split; [done|].
      split.
      + intros c'. destruct (decide (c' = defcell blv1)) as [->|Hne].
        * rewrite cell_cdr_XSETCDR_cell_eq. by rewrite Hc1.
        * rewrite cell_cdr_XSETCDR_cell_ne by done.
          apply Hcdr4. by rewrite Hc1.
      + intros c'. rewrite cell_car_XSETCDR_cell. apply Hcar4. }
  cbn [dynwind_end_loop run_unwinder]. fold s4. rewrite Hrun.
  exists (set_dynstack (dynstack st) s5), blv5. split; [reflexivity|].
  split; [by apply (blv_ok_same s5)|]. done.
Qed.

Lemma specbind_localized_witness :
  ∃ st' blv',
    specbind (LSym SA) (LInt 7) st_local = (Normal tt, st')
    ∧ blv_ok st' SA blv'
    ∧ blv_where blv' = LBuffer (current_buffer st_local)
    ∧ specpdl st'
      = mk_specbinding SPECPDL_LET_LOCAL (LSym SA) (LInt 0) (LBuffer 0)
          :: specpdl st_local
    ∧ dynstack st' = W_unwinder U_unbind_once true :: dynstack st_local
    ∧ buffers st' = buffers st_local
    ∧ current_buffer st' = current_buffer st_local
    ∧ cell_cdr st' (blv_cell st_local SA) = LInt 7
    ∧ (∀ c, c ≠ blv_cell st_local SA → cell_cdr st' c = cell_cdr st_local c)
    ∧ blv_cell st' SA = blv_cell st_local SA.
Proof.
  apply (specbind_localized st_local SA blv_local (LInt 7)).
  - apply blv_ok_check; compute_ok.
  - vm_compute; reflexivity.
  - vm_compute; reflexivity.
Defined.

Lemma unbind_once_let_local_witness :
  ∃ st' blv',
    unbind_once st_let_local = (Normal tt, st')
    ∧ specpdl st' = []
    ∧ blv_ok st' SA blv'
    ∧ buffers st' = buffers st_let_local
    ∧ current_buffer st' = current_buffer st_let_local
    ∧ cell_cdr st' (blv_cell st_local SA) = LInt 0
    ∧ (∀ c', c' ≠ blv_cell st_local SA
             → cell_cdr st' c' = cell_cdr st_let_local c')
    ∧ blv_where blv' = LBuffer 0.
Proof.
  apply (unbind_once_let_local st_let_local SA (SYMBOL_BLV st_let_local SA)
           (LInt 0) 0 []).
  - vm_compute; reflexivity.
  - apply blv_ok_check; compute_ok.
  - vm_compute; reflexivity.
Defined.

Lemma let_localized_round_trip_witness :
  ∃ st' blv',
    let_value_test (LSym SA) (LInt 7) st_local_1 = (Normal (LInt 7), st')
    ∧ blv_ok st' SA blv'
    ∧ specpdl st' = specpdl st_local_1
    ∧ dynstack st' = dynstack st_local_1
    ∧ buffers st' = buffers st_local_1
    ∧ current_buffer st' = current_buffer st_local_1
    ∧ (∀ c, cell_cdr st' c = cell_cdr st_local_1 c)
    ∧ (∀ c, cell_car st' c = cell_car st_local_1 c).
Proof.
  apply (let_localized_round_trip st_local_1 SA blv_local (LInt 7)).
  - apply blv_ok_check; compute_ok.
  - vm_compute; reflexivity.
  - vm_compute; reflexivity.
Defined.
(** * Making a variable buffer-local inside a let-binding *)

(** [unbind_once] on a [SPECPDL_LET] entry of a variable that has become
    buffer-local since: the old value goes to the default cell. *)
Lemma unbind_once_let_now_localized st s blv old w rest :
  specpdl st = mk_specbinding SPECPDL_LET (LSym s) old w :: rest →
  SYMBOL_REDIRECT st s = SYMBOL_LOCALIZED blv →
  fwd blv = None →
  constant (SYMBOL st s) = false →
  unbind_once st
  = (Normal tt,
     XSETCDR_cell (defcell blv) old
       (set_trace
          (trace st ++ [Ev_unbind (mk_specbinding SPECPDL_LET (LSym s) old w)])
          (set_specpdl rest st))).
Proof.
  intros Hpdl Hred Hfwd Hconst. unfold unbind_once. msteps. rewrite Hpdl.
  msteps. cbn [kind specpdl_symbol specpdl_old_value symbol old_value].
  rewrite Hred.
  erewrite bind_Normal; [|by apply (Fset_default_localized_run _ s blv)].
  reflexivity.
Qed.

(** X28. A plain variable is let-bound and, inside the binding, made local
    to the current buffer with [Fmake_local_variable]: the binding of the
    buffer is created with the let-bound value, and when the frame is left
    [unbind_once] finds the [SPECPDL_LET] entry of a variable that is
    buffer-local by now and gives the old value to the default cell only.
    So after the let the default value is the old value, while the current
    buffer keeps the let-bound value as its own; the binding stack and the
    wind stack are as before and the invariant of the variable holds. *)
Theorem make_local_inside_let (st : state) (s : sym_t)
    (v0 v : Lisp_Object) :
  SYMBOL_REDIRECT st s = SYMBOL_PLAINVAL v0 →
  constant (SYMBOL st s) = false →
  (∀ b c, c ∈ local_var_alist (BUFFER st b) → c < next_addr st) →
  assq_no_quit st (LSym s) (local_var_alist (BUFFER st (current_buffer st)))
  = None →
  (SPECPDL_INDEX st + 1 < specpdl_size st)%Z →
  ∃ st' blv,
    let_make_local_test (LSym s) v st = (Normal tt, st')
    ∧ blv_ok st' s blv
    ∧ cell_cdr st' (defcell blv) = v0
    ∧ cell_cdr st' (blv_cell st' s) = v
    ∧ is_Some (assq_no_quit st' (LSym s)
                 (local_var_alist (BUFFER st' (current_buffer st'))))
    ∧ specpdl st' = specpdl st
    ∧ dynstack st' = dynstack st
    ∧ current_buffer st' = current_buffer st
    ∧ (∀ b, b ≠ current_buffer st → BUFFER st' b = BUFFER st b).
Proof.
  intros Hplain Hconst Halloc Hnone Hroom.
  unfold let_make_local_test, dynwind_begin. msteps.
  set (s0 := set_dynstack (W_frame :: dynstack st) st).
  rewrite (bind_Normal _ _ _ _ _
             (specbind_plain s0 s v0 v Hplain Hconst Hroom)).
  set (s1 := set_dynstack _ (SET_SYMBOL_VAL s v _)).
  destruct (Fmake_local_variable_plain_run s1 s v)
    as (s2 & blv & Hrun & Hok & Hlis & Hval & Hdef & Hown & Hcur & Hbuf
        & Hpdl & Hdyn & Htr & Hconst2 & Hcells).
  { apply SYMBOL_REDIRECT_SET_SYMBOL_VAL_eq. }
  { change (SYMBOL s1 s) with (SYMBOL (SET_SYMBOL_VAL s v st) s).
    by rewrite constant_SET_SYMBOL_VAL. }
  { exact Halloc. }
  { exact Hnone. }
  rewrite (bind_Normal _ _ _ _ _ Hrun).
  unfold dynwind_end. rewrite Hdyn.
  change (dynstack s1)
    with (W_unwinder U_unbind_once true :: W_frame :: dynstack st).
  pose proof Hok as [Hred Hfl Hfwd Hfound Hdefc Hwhere Hal].
  cbn [dynwind_end_loop run_unwinder].
  set (s3 := set_dynstack (W_frame :: dynstack st) s2).
  erewrite (unbind_once_let_now_localized s3 s blv v0 Qnil (specpdl st));
    [|change (specpdl s3) with (specpdl s2); by rewrite Hpdl
     |exact Hred|exact Hfwd|exact Hconst2].
  set (s4 := set_trace _ _).
  assert (blv_ok s4 s blv) as Hok4 by (by apply (blv_ok_same s2)).
  eexists _, blv. split; [reflexivity|].
  split.
  { match goal with
    | |- blv_ok (set_dynstack _ ?t) _ _ => apply (blv_ok_same t); [done..|]
    end.
    by apply blv_ok_XSETCDR_cell. }
  split.
  { change (cell_cdr (set_dynstack ?d ?t)) with (cell_cdr t).
    apply cell_cdr_XSETCDR_cell_eq. }
  assert (∀ l, assq_no_quit (XSETCDR_cell (defcell blv) v0 s4) (LSym s) l
               = assq_no_quit s2 (LSym s) l) as Hassq.
  { intros. apply assq_no_quit_ext. intros.
    by rewrite cell_car_XSETCDR_cell. }
  destruct Hown as [c Hc].
  assert (c ≠ defcell blv) as Hne.
  { intros ->. apply assq_no_quit_Some_elem in Hc. by apply Hdefc in Hc. }
  assert (blv_cell s2 s = c) as Hcell2.
  { unfold blv_cell. by rewrite Hc. }
  split.
  { unfold blv_cell.
    change (current_buffer (set_dynstack ?d ?t)) with (current_buffer s2).
    change (BUFFER (set_dynstack ?d ?t)) with (BUFFER s2).
    change (assq_no_quit (set_dynstack ?d ?t))
      with (assq_no_quit t).
    rewrite Hassq, Hc. cbn [default from_option id].
    change (cell_cdr (set_dynstack ?d ?t)) with (cell_cdr t).
    rewrite cell_cdr_XSETCDR_cell_ne by done.
    rewrite <- Hcell2. exact Hval. }
  split.
  { change (current_buffer (set_dynstack ?d ?t)) with (current_buffer s2).
    change (BUFFER (set_dynstack ?d ?t)) with (BUFFER s2).
    change (assq_no_quit (set_dynstack ?d ?t))
      with (assq_no_quit t).
    rewrite Hassq, Hc. eauto. }
  split; [done|]. split; [done|]. split; [exact Hcur|]. exact Hbuf.
Qed.

Lemma make_local_inside_let_witness :
  ∃ st' blv,
    let_make_local_test (LSym SA) (LInt 7) st_A0 = (Normal tt, st')
    ∧ blv_ok st' SA blv
    ∧ cell_cdr st' (defcell blv) = LInt 0
    ∧ cell_cdr st' (blv_cell st' SA) = LInt 7
    ∧ is_Some (assq_no_quit st' (LSym SA)
                 (local_var_alist (BUFFER st' (current_buffer st'))))
    ∧ specpdl st' = specpdl st_A0
    ∧ dynstack st' = dynstack st_A0
    ∧ current_buffer st' = current_buffer st_A0
    ∧ (∀ b, b ≠ current_buffer st_A0 → BUFFER st' b = BUFFER st_A0 b).
Proof.
  apply (make_local_inside_let st_A0 SA (LInt 0) (LInt 7)).
  - vm_compute; reflexivity.
  - vm_compute; reflexivity.
  - apply alists_allocated_check. compute_ok.
  - vm_compute; reflexivity.
  - vm_compute; reflexivity.
Defined.
(** * A catch whose body returns *)

Lemma icc_normal_return type tag (body : M Lisp_Object)
    (hfun : Lisp_Object → M Lisp_Object) st v s' :
  body (icc_entry_state type tag st) = (Normal v, s') →
  dynstack s' = dynstack (icc_entry_state type tag st) →
  (c ← make_handler type tag;
   call_with_prompt (ptag (fst c)) (icc_thunk c body) (icc_handler hfun)) st
  = (Normal v,
     set_dynstack (dynstack st) (set_handlerlist (handlerlist st) s')).
Proof.
  intros Hbody Hdyn. unfold make_handler, make_prompt_tag. msteps.
  rewrite bind_fresh. msteps. cbn [fst snd ptag].
  erewrite call_with_prompt_Normal.
  2:{ unfold icc_thunk, dynwind_begin, scm_dynwind_unwind_handler. msteps.
      cbn [fst snd handlerlist set_dynstack dynstack set_next_addr].
      erewrite bind_Normal; [|exact Hbody].
      unfold dynwind_end. rewrite bind_unfold. unfold bind at 1.
      rewrite Hdyn. cbn [icc_entry_state dynstack set_handlerlist
        set_dynstack dynwind_end_loop run_unwinder].
      unfold modify. reflexivity. }
  reflexivity.
Qed.

(** X29. [internal_catch] around a body that returns normally and leaves
    the wind stack as it found it: the catch returns the value of the body;
    the handler list is set back to what it was before the catch, whatever
    the body left there, and the prompt and the frame of the catch are off
    the wind stack; everything else is as the body left it, the
    input-blocking depth too, since [restore_handler] is registered for
    non-local exits only. *)
Theorem internal_catch_normal_return (st : state) (tag arg v : Lisp_Object)
    (func : Lisp_Object → M Lisp_Object) (s' : state) :
  func arg (icc_entry_state CATCHER tag st) = (Normal v, s') →
  dynstack s' = dynstack (icc_entry_state CATCHER tag st) →
  internal_catch tag func arg st
  = (Normal v,
     set_dynstack (dynstack st) (set_handlerlist (handlerlist st) s')).
Proof. apply icc_normal_return. Qed.

Lemma internal_catch_normal_return_witness :
  internal_catch (LSym Stag) (λ x, ret x) (LInt 1) st_A0
  = (Normal (LInt 1),
     set_dynstack (dynstack st_A0)
       (set_handlerlist (handlerlist st_A0)
          (icc_entry_state CATCHER (LSym Stag) st_A0))).
Proof.
  apply (internal_catch_normal_return st_A0 (LSym Stag) (LInt 1) (LInt 1)
           (λ x, ret x) (icc_entry_state CATCHER (LSym Stag) st_A0));
    reflexivity.
Defined.
(** * Let-binding a per-buffer variable *)

Lemma BUFFER_propagate_default st lo idx offset v b buf :
  buffers st !! b = Some buf →
  BUFFER (propagate_default lo idx offset v st) b
  = if (negb lo || live buf) && negb (PER_BUFFER_VALUE_P buf idx)
    then set_per_buffer_value offset v buf else buf.
Proof.
  intros Hb. unfold BUFFER, propagate_default. cbn [buffers set_buffers].
  by rewrite lookup_fmap, Hb.
Qed.

(** [Fset_default] of a per-buffer variable whose slot has a flag. *)
Lemma Fset_default_per_buffer_run st s offset pred v :
  SYMBOL_REDIRECT st s
  = SYMBOL_FORWARDED (Lisp_Fwd_Buffer_Obj offset pred) →
  constant (SYMBOL st s) = false →
  (0 < PER_BUFFER_IDX st offset)%Z →
  Fset_default (LSym s) v st
  = (Normal v,
     propagate_default false (PER_BUFFER_IDX st offset) offset v
       (set_per_buffer_default offset v st)).
Proof.
  intros Hfwd Hconst Hidx.
  unfold Fset_default. simpl CHECK_SYMBOL. msteps.
  unfold SYMBOL_CONSTANT_P. rewrite Hconst. cbv iota. msteps.
  rewrite (bind_Normal _ _ _ _ _ (chase_alias_forwarded _ _ _ Hfwd)).
  msteps. rewrite Hfwd. msteps.
  rewrite bool_decide_eq_true_2 by done. msteps. reflexivity.
Qed.

Lemma Flocal_variable_p_per_buffer_run st s offset pred :
  SYMBOL_REDIRECT st s
  = SYMBOL_FORWARDED (Lisp_Fwd_Buffer_Obj offset pred) →
  Flocal_variable_p (LSym s) Qnil st
  = (Normal (if bool_decide (PER_BUFFER_IDX st offset = -1)%Z
                || PER_BUFFER_VALUE_P (BUFFER st (current_buffer st))
                     (PER_BUFFER_IDX st offset)
             then Qt else Qnil), st).
Proof.
  intros Hfwd. unfold Flocal_variable_p. msteps.
  change (NILP Qnil) with true. cbv iota. simpl CHECK_SYMBOL. msteps.
  rewrite (bind_Normal _ _ _ _ _ (chase_alias_forwarded _ _ _ Hfwd)).
  msteps. by rewrite Hfwd.
Qed.

(** [specbind] of a per-buffer variable that has no value of its own in
    the current buffer. *)
Lemma specbind_per_buffer_default st s offset pred v :
  SYMBOL_REDIRECT st s
  = SYMBOL_FORWARDED (Lisp_Fwd_Buffer_Obj offset pred) →
  constant (SYMBOL st s) = false →
  (0 < PER_BUFFER_IDX st offset)%Z →
  PER_BUFFER_VALUE_P (BUFFER st (current_buffer st))
    (PER_BUFFER_IDX st offset) = false →
  (SPECPDL_INDEX st + 1 < specpdl_size st)%Z →
  specbind (LSym s) v st
  = (Normal tt,
     set_dynstack (W_unwinder U_unbind_once true :: dynstack st)
       (propagate_default false (PER_BUFFER_IDX st offset) offset v
          (set_per_buffer_default offset v
             (set_specpdl
                (mk_specbinding SPECPDL_LET_DEFAULT (LSym s)
                   (per_buffer_value (BUFFER st (current_buffer st)) offset)
                   (LBuffer (current_buffer st)) :: specpdl st) st)))).
Proof.
  intros Hfwd Hconst Hidx Hflag Hroom.
  unfold specbind, with_signals, specbind_1. simpl CHECK_SYMBOL. msteps.
  rewrite (bind_Normal _ _ _ _ _ (chase_alias_forwarded _ _ _ Hfwd)).
  msteps. rewrite Hfwd. msteps.
  rewrite (bind_Normal _ _ _ _ _ (find_symbol_value_forwarded _ _ _ Hfwd)).
  msteps. rewrite Hfwd. cbn [BUFFER_OBJFWDP do_symval_forwarding].
  rewrite ?bind_assoc.
  rewrite (bind_Normal _ _ _ _ _
             (Flocal_variable_p_per_buffer_run _ _ _ _ Hfwd)).
  rewrite Hflag. rewrite bool_decide_eq_false_2 by lia.
  cbn [orb]. change (NILP Qnil) with true. cbv iota.
  rewrite ?bind_assoc.
  rewrite (bind_Normal _ _ _ _ _ (grow_specpdl_room _ _ Hroom)).
  rewrite ?bind_assoc.
  rewrite (bind_Normal _ _ _ _ _
             (Fset_default_per_buffer_run (set_specpdl _ st) s offset pred v
                Hfwd Hconst Hidx)).
  msteps. reflexivity.
Qed.

Lemma unbind_once_let_default_per_buffer st s offset pred old w rest :
  specpdl st = mk_specbinding SPECPDL_LET_DEFAULT (LSym s) old w :: rest →
  SYMBOL_REDIRECT st s
  = SYMBOL_FORWARDED (Lisp_Fwd_Buffer_Obj offset pred) →
  constant (SYMBOL st s) = false →
  (0 < PER_BUFFER_IDX st offset)%Z →
  unbind_once st
  = (Normal tt,
     propagate_default false (PER_BUFFER_IDX st offset) offset old
       (set_per_buffer_default offset old
          (set_trace
             (trace st
              ++ [Ev_unbind
                    (mk_specbinding SPECPDL_LET_DEFAULT (LSym s) old w)])
             (set_specpdl rest st)))).
Proof.
  intros Hpdl Hfwd Hconst Hidx. unfold unbind_once. msteps. rewrite Hpdl.
  msteps. cbn [kind specpdl_symbol specpdl_old_value symbol old_value].
  rewrite (bind_Normal _ _ _ _ _
             (Fset_default_per_buffer_run (set_trace _ (set_specpdl _ st)) s
                offset pred old Hfwd Hconst Hidx)).
  reflexivity.
Qed.

(** X30. A let-binding of a per-buffer variable in a buffer where it has
    no value of its own binds the default: the read inside the binding
    gives the let-bound value, and leaving the frame makes the value the
    current buffer had before the binding the default value and the value
    of every buffer without a value of its own; buffers with a value of
    their own are never touched.  The binding stack and the wind stack are
    as before. *)
Theorem let_per_buffer_default (st : state) (s : sym_t) (offset : Z)
    (pred v : Lisp_Object) (bcur : buffer) :
  SYMBOL_REDIRECT st s
  = SYMBOL_FORWARDED (Lisp_Fwd_Buffer_Obj offset pred) →
  constant (SYMBOL st s) = false →
  (0 < PER_BUFFER_IDX st offset)%Z →
  buffers st !! current_buffer st = Some bcur →
  PER_BUFFER_VALUE_P bcur (PER_BUFFER_IDX st offset) = false →
  (SPECPDL_INDEX st + 1 < specpdl_size st)%Z →
  ∃ st',
    let_value_test (LSym s) v st = (Normal v, st')
    ∧ per_buffer_default st' offset = per_buffer_value bcur offset
    ∧ (∀ b buf,
         buffers st !! b = Some buf →
         BUFFER st' b
         = if PER_BUFFER_VALUE_P buf (PER_BUFFER_IDX st offset) then buf
           else set_per_buffer_value offset (per_buffer_value bcur offset)
                  buf)
    ∧ specpdl st' = specpdl st
    ∧ dynstack st' = dynstack st
    ∧ symbols st' = symbols st.
Proof.
  intros Hfwd Hconst Hidx Hcur Hflag Hroom.
  assert (BUFFER st (current_buffer st) = bcur) as HB
    by (unfold BUFFER; by rewrite Hcur).
  assert (PER_BUFFER_VALUE_P (BUFFER st (current_buffer st))
            (PER_BUFFER_IDX st offset) = false) as Hflag0 by (by rewrite HB).
  unfold let_value_test, dynwind_begin. msteps.
  set (s0 := set_dynstack (W_frame :: dynstack st) st).
  rewrite (bind_Normal _ _ _ _ _
             (specbind_per_buffer_default s0 s offset pred v Hfwd Hconst Hidx
                Hflag0 Hroom)).
  change (PER_BUFFER_IDX s0 offset) with (PER_BUFFER_IDX st offset).
  change (BUFFER s0) with (BUFFER st). change (current_buffer s0)
    with (current_buffer st). rewrite HB.
  set (idx := PER_BUFFER_IDX st offset) in *.
  set (old := per_buffer_value bcur offset).
  set (s1 := set_dynstack _ (propagate_default _ _ _ _ _)).
  assert (SYMBOL_REDIRECT s1 s
          = SYMBOL_FORWARDED (Lisp_Fwd_Buffer_Obj offset pred)) as Hfwd1
    by exact Hfwd.
  rewrite (bind_Normal _ _ _ _ _ (find_symbol_value_forwarded _ _ _ Hfwd1)).
  cbn [do_symval_forwarding].
  assert (per_buffer_value (BUFFER s1 (current_buffer s1)) offset = v) as ->.
  { change (current_buffer s1) with (current_buffer st).
    unfold s1. change (BUFFER (set_dynstack ?d ?t)) with (BUFFER t).
    erewrite BUFFER_propagate_default; [|exact Hcur].
    rewrite Hflag. cbn [negb orb andb].
    unfold per_buffer_value, set_per_buffer_value. cbn [slots set_slots].
    by rewrite lookup_insert_eq. }
  msteps. unfold dynwind_end. rewrite bind_unfold. unfold bind at 1.
  change (dynstack s1)
    with (W_unwinder U_unbind_once true :: W_frame :: dynstack st).
  cbn [dynwind_end_loop run_unwinder].
  set (s2 := set_dynstack (W_frame :: dynstack st) s1).
  rewrite (unbind_once_let_default_per_buffer s2 s offset pred old
             (LBuffer (current_buffer st)) (specpdl st) eq_refl Hfwd Hconst
             Hidx).
  change (PER_BUFFER_IDX s2 offset) with idx.
  eexists. split; [reflexivity|].
  split.
  { unfold per_buffer_default.
    cbn [buffer_defaults set_dynstack propagate_default set_buffers
      set_per_buffer_default set_buffer_defaults].
    by rewrite lookup_insert_eq. }
  split; [|done].
  intros b buf Hb.
  change (BUFFER (set_dynstack ?d ?t)) with (BUFFER t).
  erewrite BUFFER_propagate_default.
  2:{ cbn [buffers set_per_buffer_default set_buffer_defaults set_trace
        set_specpdl]. unfold s2, s1.
      cbn [buffers set_dynstack propagate_default set_buffers].
      rewrite lookup_fmap.
      cbn [buffers set_per_buffer_default set_buffer_defaults set_specpdl].
      change (buffers s0) with (buffers st). rewrite Hb. reflexivity. }
  cbn [negb orb andb].
  destruct (PER_BUFFER_VALUE_P buf idx) eqn:Hp; cbn [negb].
  - by rewrite Hp.
  - unfold PER_BUFFER_VALUE_P, set_per_buffer_value in *.
    cbn [local_flags set_slots slots]. rewrite Hp. cbn [negb].
    destruct buf. cbn. by rewrite insert_insert_eq.
Qed.

Lemma let_per_buffer_default_witness :
  ∃ st',
    let_value_test (LSym SB) (LInt 9) st_per_buffer = (Normal (LInt 9), st')
    ∧ per_buffer_default st' 8 = LInt 1
    ∧ BUFFER st' 0 = BUFFER st_per_buffer 0
    ∧ BUFFER st' 1 = BUFFER st_per_buffer 1
    ∧ specpdl st' = specpdl st_per_buffer
    ∧ dynstack st' = dynstack st_per_buffer.
Proof.
  destruct (let_per_buffer_default st_per_buffer SB 8 Qnil (LInt 9)
              (mk_buffer true [] ∅ {[ 8%Z := LInt 1 ]}))
    as (st' & Hrun & Hdef & Hbufs & Hpdl & Hdyn & _);
    [vm_compute; reflexivity | vm_compute; reflexivity
     | vm_compute; reflexivity | vm_compute; reflexivity
     | vm_compute; reflexivity | vm_compute; reflexivity |].
  exists st'. split; [exact Hrun|]. split; [exact Hdef|].
  split; [exact (Hbufs 0 _ eq_refl)|]. split; [exact (Hbufs 1 _ eq_refl)|].
  split; [exact Hpdl | exact Hdyn].
Defined.
